(** * Receipt scanner: the text-extraction engine of [script.js]

    A shallow embedding of [parseReceiptText] and [escapeCsv] together with
    the pieces of the JavaScript runtime they rest on: strings as sequences
    of UTF-16 code units, backtracking regular expressions, the [String]
    methods [split], [trim], [match], [replace] and [join], and binary64
    numbers for [parseFloat] and the alphabetic ratio. *)

From Stdlib Require Import Ascii String.
From Stdlib Require Import List NArith ZArith Bool Lia.
Import ListNotations.

(** ** Strings *)

(** A JavaScript string is a sequence of 16-bit code units. *)
Definition char := N.
Definition jsstring := list char.

Definition cu (a : ascii) : char := N_of_ascii a.

(** The string written with ASCII characters only. *)
Definition str (s : string) : jsstring := map cu (list_ascii_of_string s).

Definition LF : char := 10%N.
Definition CR : char := 13%N.
Definition DQUOTE : char := 34%N.
Definition POUND : char := 163%N.   (* U+00A3 *)
Definition EURO : char := 8364%N.   (* U+20AC *)

Definition between (lo hi c : char) : bool := ((lo <=? c) && (c <=? hi))%N.
Arguments between (lo hi c)%_N.

Definition isDigit (c : char) : bool := between 48 57 c.
Definition isUpper (c : char) : bool := between 65 90 c.
Definition isLower (c : char) : bool := between 97 122 c.
Definition isAlpha (c : char) : bool := isUpper c || isLower c.

(** WhiteSpace and LineTerminator code units: what [\s] matches and what
    [trim] removes. *)
Definition isSpace (c : char) : bool :=
  (between 9 13 c || (c =? 32) || (c =? 160) || (c =? 5760)
   || between 8192 8202 c || (c =? 8232) || (c =? 8233) || (c =? 8239)
   || (c =? 8287) || (c =? 12288) || (c =? 65279))%N.

Definition isWord (c : char) : bool := isAlpha c || isDigit c || (c =? 95)%N.

Definition eqs (a b : jsstring) : bool :=
  if list_eq_dec N.eq_dec a b then true else false.

(** ** Regular expressions *)

Inductive class_item :=
| One (c : char)             (* a single character *)
| Range (lo hi : char)       (* lo-hi *)
| ClsDigit                   (* \d *)
| ClsSpace                   (* \s *)
| ClsWord.                   (* \w *)

Inductive regex :=
| Empty
| Char (c : char)
| Class (invert : bool) (items : list class_item)    (* [...] and [^...] *)
| Seq (a b : regex)
| Disj (a b : regex)                                 (* a|b *)
| Quant (min : nat) (max : option nat) (a : regex)   (* greedy a{min,max} *)
| AssertStart                                        (* ^ *)
| NotBehind (items : list class_item)                (* (?<![...]) *)
| NotAhead (items : list class_item).                (* (?![...]) *)

Arguments One c%_N.
Arguments Range (lo hi)%_N.
Arguments Char c%_N.

(** A regular expression object: its pattern and its [i] flag.  Grouping
    parentheses leave no trace in the pattern: the program never reads a
    capture, only element 0 of a match. *)
Record RegExp := { pattern : regex; ignoreCase : bool }.

(** Canonicalize of the specification, for a pattern without the [u] flag:
    a code unit is replaced by its upper case, except that a code unit
    outside ASCII is never mapped into ASCII.  Every pattern character of
    the program is ASCII when [i] is set, so only the ASCII part is
    needed: a code unit outside ASCII then never becomes equal to one. *)
Definition canon (i : bool) (c : char) : char :=
  if i && isLower c then (c - 32)%N else c.

Definition swapCase (c : char) : char :=
  if isLower c then (c - 32)%N else if isUpper c then (c + 32)%N else c.

Definition inItem (i : bool) (it : class_item) (c : char) : bool :=
  match it with
  | One a => (canon i a =? canon i c)%N
  | Range lo hi => between lo hi c || (i && between lo hi (swapCase c))
  | ClsDigit => isDigit c
  | ClsSpace => isSpace c
  | ClsWord => isWord c
  end.

Definition inClass (i : bool) (items : list class_item) (c : char) : bool :=
  existsb (fun it => inItem i it c) items.

(** A position in the subject string: the code unit before it, if any, and
    the code units from it on. *)
Definition state := (option char * jsstring)%type.

Definition step (st : state) : option (char * state) :=
  match snd st with
  | [] => None
  | c :: t => Some (c, (Some c, t))
  end.

(** [repeat] runs the iterations of a greedy quantifier.  An iteration that
    consumes nothing once the minimum is reached is rejected, as in
    RepeatMatcher; [fuel] bounds the number of iterations and is never
    exhausted when it exceeds [min] plus the length left. *)
Section Repeat.
Variable body : state -> list state.

Fixpoint repeat (fuel min : nat) (max : option nat) (st : state) : list state :=
  match max with
  | Some 0 => [st]
  | _ =>
    match fuel with
    | 0 => []
    | S fuel' =>
      let again :=
        flat_map
          (fun st' : state =>
             if (min =? 0) && (length (snd st') =? length (snd st))
             then []
             else repeat fuel' (pred min) (option_map pred max) st')
          (body st) in
      if min =? 0 then again ++ [st] else again
    end
  end.
End Repeat.

(** The positions at which a match of [r] that starts at [st] can end, in
    the order in which backtracking tries them: the head of the list is
    the end of the match the engine reports. *)
Fixpoint ends (i : bool) (r : regex) (st : state) : list state :=
  match r with
  | Empty => [st]
  | Char a =>
    match step st with
    | Some (c, st') => if (canon i a =? canon i c)%N then [st'] else []
    | None => []
    end
  | Class inv items =>
    match step st with
    | Some (c, st') => if xorb inv (inClass i items c) then [st'] else []
    | None => []
    end
  | Seq a b => flat_map (ends i b) (ends i a st)
  | Disj a b => ends i a st ++ ends i b st
  | Quant min max a =>
    repeat (ends i a) (S (min + length (snd st))) min max st
  | AssertStart =>
    match fst st with None => [st] | Some _ => [] end
  | NotBehind items =>
    match fst st with
    | Some c => if inClass i items c then [] else [st]
    | None => [st]
    end
  | NotAhead items =>
    match snd st with
    | c :: _ => if inClass i items c then [] else [st]
    | [] => [st]
    end
  end.

(** The code units between position [st] and a later position [st']. *)
Definition consumed (st st' : state) : jsstring :=
  firstn (length (snd st) - length (snd st')) (snd st).

(** RegExpBuiltinExec for a pattern without [g] and [y]: the first start
    position from which the pattern matches.  The result is the text before
    the match, the match (element 0) and the text after it. *)
Fixpoint search (rx : RegExp) (prev : option char) (s : jsstring)
  : option (jsstring * jsstring * jsstring) :=
  match ends (ignoreCase rx) (pattern rx) (prev, s) with
  | e :: _ => Some ([], consumed (prev, s) e, snd e)
  | [] =>
    match s with
    | [] => None
    | c :: t =>
      match search rx (Some c) t with
      | Some (p, m, a) => Some (c :: p, m, a)
      | None => None
      end
    end
  end.

Definition exec (rx : RegExp) (s : jsstring) := search rx None s.

(** rx.test(s) *)
Definition test (rx : RegExp) (s : jsstring) : bool :=
  match exec rx s with Some _ => true | None => false end.

(** s.match(rx)[0] for [rx] without [g]; [None] is null. *)
Definition match0 (s : jsstring) (rx : RegExp) : option jsstring :=
  match exec rx s with Some (_, m, _) => Some m | None => None end.

(** s.replace(rx, by) for [rx] without [g] and [by] without [$]. *)
Definition replace (s : jsstring) (rx : RegExp) (by_ : jsstring) : jsstring :=
  match exec rx s with
  | Some (p, _, a) => p ++ by_ ++ a
  | None => s
  end.

(** For a pattern with [g], [match] and [replace] start at index 0 and
    look for the next match from the end of the last one, one code unit
    further when that match was empty.  [skip] counts the code units of the
    current match still to be stepped over. *)
Fixpoint scan (rx : RegExp) (prev : option char) (s : jsstring) (skip : nat)
  : list jsstring :=
  match skip with
  | S k =>
    match s with
    | [] => []
    | c :: t => scan rx (Some c) t k
    end
  | 0 =>
    match ends (ignoreCase rx) (pattern rx) (prev, s) with
    | e :: _ =>
      let m := consumed (prev, s) e in
      m :: match s with
           | [] => []
           | c :: t => scan rx (Some c) t (pred (length m))
           end
    | [] =>
      match s with
      | [] => []
      | c :: t => scan rx (Some c) t 0
      end
    end
  end.

(** s.match(rx) for [rx] with [g]: every match, or null. *)
Definition matchAll (s : jsstring) (rx : RegExp) : option (list jsstring) :=
  match scan rx None s 0 with
  | [] => None
  | ms => Some ms
  end.

Fixpoint replaceScan (rx : RegExp) (by_ : jsstring) (prev : option char)
         (s : jsstring) (skip : nat) : jsstring :=
  match skip with
  | S k =>
    match s with
    | [] => []
    | c :: t => replaceScan rx by_ (Some c) t k
    end
  | 0 =>
    match ends (ignoreCase rx) (pattern rx) (prev, s) with
    | e :: _ =>
      let k := length (consumed (prev, s) e) in
      by_ ++ match s with
             | [] => []
             | c :: t =>
               (if k =? 0 then [c] else [])
                 ++ replaceScan rx by_ (Some c) t (pred k)
             end
    | [] =>
      match s with
      | [] => []
      | c :: t => c :: replaceScan rx by_ (Some c) t 0
      end
    end
  end.

(** s.replace(rx, by) for [rx] with [g] and [by] without [$]. *)
Definition replaceAll (s : jsstring) (rx : RegExp) (by_ : jsstring) : jsstring :=
  replaceScan rx by_ None s 0.

(** The loop of s.split(rx): [cur] holds, reversed, the code units of the
    piece that started at index p; a match at q that ends at p (an empty
    match at the start of a piece) only moves q on. *)
Fixpoint splitLoop (rx : RegExp) (prev : option char) (s : jsstring)
         (skip : nat) (cur : jsstring) : list jsstring :=
  match s with
  | [] => [rev cur]
  | c :: t =>
    match skip with
    | S k => splitLoop rx (Some c) t k cur
    | 0 =>
      match ends (ignoreCase rx) (pattern rx) (prev, s) with
      | [] => splitLoop rx (Some c) t 0 (c :: cur)
      | e :: _ =>
        match length (consumed (prev, s) e) with
        | 0 =>
          match cur with
          | [] => splitLoop rx (Some c) t 0 [c]
          | _ => rev cur :: splitLoop rx (Some c) t 0 [c]
          end
        | S k => rev cur :: splitLoop rx (Some c) t k []
        end
      end
    end
  end.

(** s.split(rx), without a limit; the patterns given to it have no
    capture. *)
Definition split (s : jsstring) (rx : RegExp) : list jsstring :=
  match s with
  | [] =>
    match ends (ignoreCase rx) (pattern rx) (None, []) with
    | [] => [[]]
    | _ => []
    end
  | _ => splitLoop rx None s 0 []
  end.

Fixpoint trimStart (s : jsstring) : jsstring :=
  match s with
  | c :: t => if isSpace c then trimStart t else s
  | [] => []
  end.

Definition trimEnd (s : jsstring) : jsstring := rev (trimStart (rev s)).

(** s.trim() *)
Definition trim (s : jsstring) : jsstring := trimEnd (trimStart s).

(** a.join(sep) for an array of strings *)
Fixpoint join (a : list jsstring) (sep : jsstring) : jsstring :=
  match a with
  | [] => []
  | [x] => x
  | x :: rest => x ++ sep ++ join rest sep
  end.

(** A string is truthy when it is not empty. *)
Definition truthy (s : jsstring) : bool :=
  match s with [] => false | _ => true end.

(** ** Numbers *)

(** A Number that is not NaN and not infinite is a multiple of 2^-1074;
    [Fin k] is k * 2^-1074.  The two zeros are one value here: the program
    only compares. *)
Inductive number :=
| NaN
| Fin (k : Z)
| Inf (negative : bool).

Local Open Scope Z_scope.

Definition unit64 : Z := 2 ^ 1074.
Definition huge64 : Z := 2 ^ 2098.     (* 2^1024, in units of 2^-1074 *)

(** The Number nearest to n/d, ties to even, for 0 <= n and 0 < d. *)
Definition binary64 (n d : Z) : number :=
  if n =? 0 then Fin 0 else
  let l := Z.log2 n - Z.log2 d in
  let fl := if 0 <=? l
            then (if d * 2 ^ l <=? n then l else l - 1)
            else (if d <=? n * 2 ^ (- l) then l else l - 1) in
  let e := Z.max (fl - 52) (-1074) in
  let num := if 0 <=? e then n else n * 2 ^ (- e) in
  let den := if 0 <=? e then d * 2 ^ e else d in
  let m := num / den in
  let r := num mod den in
  let m' := if (den <? 2 * r) || ((den =? 2 * r) && Z.odd m) then m + 1 else m in
  let k := m' * 2 ^ (e + 1074) in
  if huge64 <=? k then Inf false else Fin k.

Definition negate (x : number) : number :=
  match x with
  | NaN => NaN
  | Fin k => Fin (- k)
  | Inf b => Inf (negb b)
  end.

(** a / b for two lengths *)
Definition divNat (a b : nat) : number :=
  match b with
  | O => match a with O => NaN | _ => Inf false end
  | _ => binary64 (Z.of_nat a) (Z.of_nat b)
  end.

Definition ext (x : number) : option Z :=
  match x with
  | NaN => None
  | Fin k => Some k
  | Inf false => Some huge64
  | Inf true => Some (- huge64)
  end.

(** a < b and a > b on Numbers: false when one side is NaN. *)
Definition lt (a b : number) : bool :=
  match ext a, ext b with
  | Some x, Some y => x <? y
  | _, _ => false
  end.

Definition gt (a b : number) : bool := lt b a.

Definition isNaN (x : number) : bool :=
  match x with NaN => true | _ => false end.

Fixpoint digitsValue (acc : Z) (s : jsstring) : Z :=
  match s with
  | c :: t => digitsValue (10 * acc + (Z.of_N c - 48)) t
  | [] => acc
  end.

Fixpoint takeDigits (s : jsstring) : jsstring * jsstring :=
  match s with
  | c :: t =>
    if isDigit c then let '(ds, r) := takeDigits t in (c :: ds, r) else ([], s)
  | [] => ([], [])
  end.

Fixpoint startsWith (p s : jsstring) : bool :=
  match p, s with
  | [], _ => true
  | a :: p', b :: s' => (a =? b)%N && startsWith p' s'
  | _ :: _, [] => false
  end.

(** The exponent part that may follow the digits: e or E, a sign, digits. *)
Definition exponentPart (s : jsstring) : Z :=
  match s with
  | c :: t =>
    if ((c =? 101) || (c =? 69))%N then
      match t with
      | sg :: t' =>
        if (sg =? 45)%N then
          match fst (takeDigits t') with [] => 0 | ds => - digitsValue 0 ds end
        else if (sg =? 43)%N then digitsValue 0 (fst (takeDigits t'))
        else digitsValue 0 (fst (takeDigits t))
      | [] => 0
      end
    else 0
  | [] => 0
  end.

(** The unsigned part of parseFloat: Infinity or the longest prefix that
    is a decimal literal, rounded to the nearest Number as engines do (the
    specification leaves them some freedom beyond 20 significant digits). *)
Definition parseUnsigned (s : jsstring) : number :=
  if startsWith (str "Infinity") s then Inf false else
  let '(ip, r1) := takeDigits s in
  let '(fp, r2) :=
    match r1 with
    | c :: t => if (c =? 46)%N then takeDigits t else ([], r1)
    | [] => ([], r1)
    end in
  match ip ++ fp with
  | [] => NaN
  | ds =>
    let x := exponentPart r2 - Z.of_nat (length fp) in
    if 0 <=? x then binary64 (digitsValue 0 ds * 10 ^ x) 1
    else binary64 (digitsValue 0 ds) (10 ^ (- x))
  end.

(** parseFloat(s) *)
Definition parseFloat (s : jsstring) : number :=
  match trimStart s with
  | c :: t =>
    if (c =? 45)%N then negate (parseUnsigned t)
    else if (c =? 43)%N then parseUnsigned t
    else parseUnsigned (c :: t)
  | [] => NaN
  end.

Local Close Scope Z_scope.

(** ** Patterns of the program *)

Arguments cu a%_char.

Definition lit (s : string) : regex :=
  fold_right (fun a r => Seq (Char (cu a)) r) Empty (list_ascii_of_string s).

Definition seqs (l : list regex) : regex := fold_right Seq Empty l.

Fixpoint alts (l : list regex) : regex :=
  match l with
  | [] => Class false []
  | [r] => r
  | r :: rest => Disj r (alts rest)
  end.

Definition opt (r : regex) : regex := Quant 0 (Some 1) r.     (* r? *)
Definition star (r : regex) : regex := Quant 0 None r.        (* r* *)
Definition plus (r : regex) : regex := Quant 1 None r.        (* r+ *)
Definition times (n : nat) (r : regex) : regex := Quant n (Some n) r.  (* r{n} *)

Definition digit : regex := Class false [ClsDigit].           (* \d *)
Definition space : regex := Class false [ClsSpace].           (* \s *)
Definition wordChar : regex := Class false [ClsWord].         (* \w *)
Definition digit09 : regex := Class false [Range (cu "0") (cu "9")].   (* [0-9] *)
Definition letters : list class_item :=
  [Range (cu "A") (cu "Z"); Range (cu "a") (cu "z")].         (* A-Za-z *)

Module Date.
(** (20\d{2}|19\d{2}) *)
Definition year : regex :=
  alts [Seq (lit "20") (times 2 digit); Seq (lit "19") (times 2 digit)].
(** [-\/.] *)
Definition sep : regex := Class false [One (cu "-"); One (cu "/"); One (cu ".")].
(** (0?[1-9]|1[0-2]) *)
Definition month : regex :=
  alts [Seq (opt (Char (cu "0"))) (Class false [Range (cu "1") (cu "9")]);
        Seq (Char (cu "1")) (Class false [Range (cu "0") (cu "2")])].
(** (0?[1-9]|[12]\d|3[01]) *)
Definition day : regex :=
  alts [Seq (opt (Char (cu "0"))) (Class false [Range (cu "1") (cu "9")]);
        Seq (Class false [One (cu "1"); One (cu "2")]) digit;
        Seq (Char (cu "3")) (Class false [One (cu "0"); One (cu "1")])].
(** (Jan|Feb|Mar|Apr|May|Jun|Jul|Aug|Sep|Sept|Oct|Nov|Dec) *)
Definition monthName : regex :=
  alts [lit "Jan"; lit "Feb"; lit "Mar"; lit "Apr"; lit "May"; lit "Jun";
        lit "Jul"; lit "Aug"; lit "Sep"; lit "Sept"; lit "Oct"; lit "Nov";
        lit "Dec"].

Definition ymd : RegExp :=        (* YYYY-MM-DD *)
  {| pattern := seqs [year; sep; month; sep; day]; ignoreCase := false |}.
Definition mdy : RegExp :=        (* MM-DD-YYYY *)
  {| pattern := seqs [month; sep; day; sep; year]; ignoreCase := false |}.
Definition dmy : RegExp :=        (* DD-MM-YYYY *)
  {| pattern := seqs [day; sep; month; sep; year]; ignoreCase := false |}.
Definition dMonthY : RegExp :=    (* day, month name, year; flag i *)
  {| pattern := seqs [day; plus space; monthName; star wordChar; plus space; year];
     ignoreCase := true |}.
End Date.

Definition datePatterns : list RegExp :=
  [Date.ymd; Date.mdy; Date.dmy; Date.dMonthY].

(** ([0-9]{1,3}(?:,[0-9]{3})*(?:\.[0-9]{2})|[0-9]+\.[0-9]{2}) *)
Definition amount : regex :=
  alts [seqs [Quant 1 (Some 3) digit09;
              star (Seq (Char (cu ",")) (times 3 digit09));
              Seq (Char (cu ".")) (times 2 digit09)];
        seqs [plus digit09; Char (cu "."); times 2 digit09]].

(** (?:\$|USD\s*\$?|EUR\s*<U+20AC>?|<U+00A3>|<U+20AC>) *)
Definition currencyMarker : regex :=
  alts [Char (cu "$");
        seqs [lit "USD"; star space; opt (Char (cu "$"))];
        seqs [lit "EUR"; star space; opt (Char EURO)];
        Char POUND;
        Char EURO].

Definition currencyAmount : RegExp :=
  {| pattern := seqs [currencyMarker; star space; amount]; ignoreCase := false |}.

(** (?<![A-Za-z])(amount)(?![A-Za-z]) *)
Definition amountOnly : RegExp :=
  {| pattern := seqs [NotBehind letters; amount; NotAhead letters];
     ignoreCase := false |}.

(** /(grand\s*total|total\s*amount|amount\s*due|balance\s*due|total)/i *)
Definition totalKeyword : RegExp :=
  {| pattern := alts [seqs [lit "grand"; star space; lit "total"];
                      seqs [lit "total"; star space; lit "amount"];
                      seqs [lit "amount"; star space; lit "due"];
                      seqs [lit "balance"; star space; lit "due"];
                      lit "total"];
     ignoreCase := true |}.

(** /^[^0-9$<U+20AC><U+00A3>]+/ *)
Definition leadingJunk : RegExp :=
  {| pattern := Seq AssertStart
                    (plus (Class true [Range (cu "0") (cu "9"); One (cu "$");
                                       One EURO; One POUND]));
     ignoreCase := false |}.

(** The amount pattern with flag g, of the fallback scan. *)
Definition amountG : RegExp := {| pattern := amount; ignoreCase := false |}.

(** /,/g *)
Definition commaG : RegExp := {| pattern := Char (cu ","); ignoreCase := false |}.

(** The deny-list of the merchant scan, flag i. *)
Definition skipKeywords : RegExp :=
  {| pattern := alts [lit "receipt"; lit "invoice"; lit "store"; lit "market";
                      lit "mart"; lit "supermarket"; lit "shop"; lit "cashier";
                      lit "transaction"; lit "date"; lit "time"; lit "subtotal";
                      lit "tax"; lit "vat"; lit "total"; lit "amount";
                      lit "phone"; lit "tel"; lit "address"; lit "pos";
                      lit "terminal"; lit "card"; lit "change"; lit "cash";
                      lit "credit"; lit "debit"];
     ignoreCase := true |}.

(** /[^A-Za-z]/g *)
Definition nonLetterG : RegExp :=
  {| pattern := Class true letters; ignoreCase := false |}.

(** /[^A-Za-z0-9 .,&'-]/g *)
Definition disallowedG : RegExp :=
  {| pattern := Class true (letters ++
                            [Range (cu "0") (cu "9"); One (cu " "); One (cu ".");
                             One (cu ","); One (cu "&"); One (cu "'");
                             One (cu "-")]);
     ignoreCase := false |}.

(** /\s{2,}/g *)
Definition spacesG : RegExp := {| pattern := Quant 2 None space; ignoreCase := false |}.

(** /\r?\n/ *)
Definition lineBreak : RegExp :=
  {| pattern := Seq (opt (Char CR)) (Char LF); ignoreCase := false |}.

(** ** Completions *)

(** A call either returns a value or throws; the only exception the
    statements of [parseReceiptText] can raise is the TypeError of a method
    call on undefined.  Limits of the engine (memory, the longest string)
    are not modelled. *)
Inductive completion (A : Type) :=
| Normal (a : A)
| Throw.
Arguments Normal {A} a.
Arguments Throw {A}.

Definition bind {A B} (c : completion A) (k : A -> completion B) : completion B :=
  match c with
  | Normal a => k a
  | Throw => Throw
  end.

Notation "x <- c ;; k" := (bind c (fun x => k))
  (at level 61, c at next level, right associativity).

(** ** parseReceiptText *)

Record ExtractionResult := {
  date : jsstring;
  merchant : jsstring;
  total : jsstring;
  raw : jsstring
}.

(** The separator of the join: the source text of the literal has a
    doubled backslash, so the string is a space, a backslash, the letter n
    and a space. *)
Definition separator : jsstring := str " \n ".

(** lines: split, trim each piece, keep the non-empty ones *)
Definition linesOf (text : jsstring) : list jsstring :=
  filter (fun l => 0 <? length l) (map trim (split text lineBreak)).

(** for (const rx of datePatterns): the first pattern that matches sets
    foundDate and leaves the loop. *)
Fixpoint dateLoop (patterns : list RegExp) (fullText : jsstring) : jsstring :=
  match patterns with
  | [] => []
  | rx :: rest =>
    match match0 fullText rx with
    | Some m0 => m0
    | None => dateLoop rest fullText
    end
  end.

(** String(v) for a string or undefined *)
Definition toString (v : option jsstring) : jsstring :=
  match v with
  | Some x => x
  | None => str "undefined"
  end.

(** for (let i = lines.length - 1; i >= 0; i--): [n] is i + 1.  The result
    is foundTotal when the loop is left. *)
Fixpoint totalLoop (lines : list jsstring) (n : nat) : completion jsstring :=
  match n with
  | 0 => Normal []
  | S i =>
    let line := nth_error lines i in
    let isTotalLine := test totalKeyword (toString line) in
    if isTotalLine then
      match line with
      | None => Throw
      | Some l =>
        match match0 l currencyAmount with
        | Some m1 => Normal (trim (replace m1 leadingJunk []))
        | None =>
          match match0 l amountOnly with
          | Some m2 => Normal m2
          | None => totalLoop lines i
          end
        end
      end
    else totalLoop lines i
  end.

Definition minusOne : number := Fin (- unit64).
Definition zero : number := Fin 0.

(** for (const s of matches) *)
Definition maxStep (acc : number * jsstring) (s0 : jsstring) : number * jsstring :=
  let v := parseFloat (replaceAll s0 commaG []) in
  if negb (isNaN v) && gt v (fst acc) then (v, s0) else acc.

(** for (const line of lines) *)
Definition maxLine (acc : number * jsstring) (line : jsstring) : number * jsstring :=
  match matchAll line amountG with
  | None => acc
  | Some matches => fold_left maxStep matches acc
  end.

(** The fallback: the amount of greatest value on the receipt. *)
Definition maxTotal (lines : list jsstring) : jsstring :=
  let '(maxVal, maxStr) := fold_left maxLine lines (minusOne, []) in
  if gt maxVal zero then maxStr else [].

(** The literal 0.3 *)
Definition threeTenths : number := binary64 3 10.

(** The length of the line without its non-letters, over the length of
    the line.  The source writes (n || 0) for the numerator n, which is n
    for every number that is not NaN. *)
Definition alphaRatio (line : jsstring) : number :=
  divNat (length (replaceAll line nonLetterG [])) (length line).

(** The line without the characters outside A-Za-z0-9 .,&'- , with each
    run of two or more white spaces replaced by one space, trimmed. *)
Definition sanitize (line : jsstring) : jsstring :=
  trim (replaceAll (replaceAll line disallowedG []) spacesG (str " ")).

(** for (let i = 0; i < Math.min(lines.length, 12); i++): [k] iterations
    are left. *)
Fixpoint merchantLoop (lines : list jsstring) (i k : nat) (foundMerchant : jsstring)
  : completion jsstring :=
  match k with
  | 0 => Normal foundMerchant
  | S k' =>
    match nth_error lines i with
    | None => Throw
    | Some line =>
      if lt (alphaRatio line) threeTenths then merchantLoop lines (S i) k' foundMerchant
      else if test skipKeywords line then merchantLoop lines (S i) k' foundMerchant
      else if length line <? 2 then merchantLoop lines (S i) k' foundMerchant
      else
        let found := sanitize line in
        if truthy found then Normal found
        else merchantLoop lines (S i) k' found
    end
  end.

(** The returned object is written with (x || <empty string>) for each of
    the three fields, which is x for a string x. *)
Definition parseReceiptText (text : jsstring) : completion ExtractionResult :=
  let lines := linesOf text in
  let fullText := join lines separator in
  let foundDate := dateLoop datePatterns fullText in
  foundTotal <- totalLoop lines (length lines) ;;
  let foundTotal := if truthy foundTotal then foundTotal else maxTotal lines in
  foundMerchant <- merchantLoop lines 0 (Nat.min (length lines) 12) [] ;;
  Normal {| date := foundDate; merchant := foundMerchant;
            total := foundTotal; raw := text |}.

(** ** escapeCsv and the text of downloadCSV *)

(** The values escapeCsv is given: a string, or a missing one. *)
Inductive value :=
| Undefined
| Null
| Str (v : jsstring).

(** String(value ?? <empty string>) *)
Definition stringOrEmpty (v : value) : jsstring :=
  match v with
  | Str x => x
  | Undefined | Null => []
  end.

Definition COMMA : char := cu ",".

(** The class of the double quote, the comma and the line feed *)
Definition csvSpecial : RegExp :=
  {| pattern := Class false [One DQUOTE; One COMMA; One LF]; ignoreCase := false |}.

(** The pattern of one double quote, flag g *)
Definition quoteG : RegExp := {| pattern := Char DQUOTE; ignoreCase := false |}.

Definition escapeCsv (val : value) : jsstring :=
  let v := stringOrEmpty val in
  if test csvSpecial v
  then [DQUOTE] ++ replaceAll v quoteG [DQUOTE; DQUOTE] ++ [DQUOTE]
  else v.

(** The text that downloadCSV puts in the file (its variable csv): each
    row is its escaped fields joined by a comma, and the rows are joined by
    a line feed.  The first row is the header, the second holds the three
    values kept with the download button. *)
Definition downloadCSV (d0 m0 t0 : jsstring) : jsstring :=
  join (map (fun r => join (map escapeCsv r) [COMMA])
            [[Str (str "Date"); Str (str "Merchant"); Str (str "Total")];
             [Str d0; Str m0; Str t0]])
       [LF].

(** ** A reader of comma-separated values

    The program only writes this format.  The reader below is the usual
    one: fields are separated by commas; outside double quotes a record
    ends at a line feed, at a carriage return, or at a carriage return
    with the line feed after it; a field that starts with a double quote
    runs to the closing double quote, inside it a doubled double quote
    stands for one, and commas and line ends are data.  The end of the text
    closes the last record. *)
Inductive csvMode := FieldStart | Unquoted | Quoted | QuoteSeen | AfterCR.

Definition consField (f : jsstring) (records : list (list jsstring))
  : list (list jsstring) :=
  match records with
  | r :: rs => (f :: r) :: rs
  | [] => [[f]]
  end.

(** [cur] holds the code units of the field being read, last first. *)
Fixpoint csvRead (mode : csvMode) (cur : jsstring) (text : jsstring)
  : list (list jsstring) :=
  match text with
  | [] => [[rev cur]]
  | c :: t =>
    let plain :=
      if (c =? COMMA)%N then consField (rev cur) (csvRead FieldStart [] t)
      else if (c =? LF)%N then [rev cur] :: csvRead FieldStart [] t
      else if (c =? CR)%N then [rev cur] :: csvRead AfterCR [] t
      else csvRead Unquoted (c :: cur) t in
    match mode with
    | FieldStart => if (c =? DQUOTE)%N then csvRead Quoted [] t else plain
    | AfterCR =>
      if (c =? LF)%N then csvRead FieldStart [] t
      else if (c =? DQUOTE)%N then csvRead Quoted [] t
      else plain
    | Unquoted => plain
    | Quoted =>
      if (c =? DQUOTE)%N then csvRead QuoteSeen cur t
      else csvRead Quoted (c :: cur) t
    | QuoteSeen =>
      if (c =? DQUOTE)%N then csvRead Quoted (c :: cur) t else plain
    end
  end.

Definition csvParse (text : jsstring) : list (list jsstring) :=
  csvRead FieldStart [] text.

(** The value of a text that holds one field. *)
Definition csvUnescape (field : jsstring) : option jsstring :=
  match csvParse field with
  | [[v]] => Some v
  | _ => None
  end.

(** What the reader does at the end of a field *)
Definition closeField (f : jsstring) (rest : jsstring) : list (list jsstring) :=
  match rest with
  | [] => [[f]]
  | c :: t =>
    if (c =? COMMA)%N then consField f (csvParse t)
    else [f] :: csvParse t
  end.

(** The text after a field: nothing, or a comma or a line feed and more. *)
Definition fieldEnd (rest : jsstring) : Prop :=
  match rest with
  | [] => True
  | c :: _ => c = COMMA \/ c = LF
  end.

Definition isCsvSpecial (c : char) : bool :=
  ((c =? DQUOTE) || (c =? COMMA) || (c =? LF))%N.

Definition doubleQuotes (v : jsstring) : jsstring :=
  flat_map (fun c => if (c =? DQUOTE)%N then [DQUOTE; DQUOTE] else [c]) v.

(** A field that the reader gives back: one that escapeCsv wraps in double
    quotes, or one without a carriage return. *)
Definition readBack (v : jsstring) : Prop :=
  existsb isCsvSpecial v = true \/ ~ In CR v.

(** The escaping with another test of what needs the double quotes. *)
Definition quoteWhen (special : char -> bool) (v : jsstring) : jsstring :=
  if existsb special v then [DQUOTE] ++ doubleQuotes v ++ [DQUOTE] else v.

(** The test of escapeCsv with the carriage return added. *)
Definition isLineSpecial (c : char) : bool :=
  (isCsvSpecial c || (c =? CR))%N.

(** ** Notions of the statements *)

Definition DOT : char := cu ".".
Definition BACKSLASH : char := 92%N.

(** Position [e] is position [st] or a later one of the same string. *)
Definition suffixOf (st e : state) : Prop := exists m, snd st = m ++ snd e.

(** From [st] to [e] only code units that satisfy [P] are passed. *)
Definition spans (P : char -> Prop) (st e : state) : Prop :=
  exists m, snd st = m ++ snd e /\ Forall P m.

(** The code unit before the position that follows [p], when [prev] is the
    one before [p]. *)
Fixpoint lastOr (prev : option char) (p : jsstring) : option char :=
  match p with
  | [] => prev
  | c :: t => lastOr (Some c) t
  end.

(** [m] is what a search for [rx] in [s0] reports: [s0] is [p], [m] and
    [a]; no match starts inside [p]; and [m] is the first match, in the
    order of backtracking, that starts after [p]. *)
Definition firstMatch (rx : RegExp) (s0 p m a : jsstring) : Prop :=
  s0 = p ++ m ++ a
  /\ (exists e rest,
        ends (ignoreCase rx) (pattern rx) (lastOr None p, m ++ a) = e :: rest
        /\ snd e = a)
  /\ (forall p1 p2, p = p1 ++ p2 -> p2 <> [] ->
        ends (ignoreCase rx) (pattern rx) (lastOr None p1, p2 ++ m ++ a) = []).

(** A class, inverted or not, holds the code unit. *)
Definition accepts (i inv : bool) (items : list class_item) (c : char) : bool :=
  xorb inv (inClass i items c).

(** Every code unit that [r] can consume satisfies [P]. *)
Fixpoint alphabet (i : bool) (r : regex) (P : char -> Prop) : Prop :=
  match r with
  | Char a => forall c, canon i a = canon i c -> P c
  | Class inv items => forall c, accepts i inv items c = true -> P c
  | Seq a b | Disj a b => alphabet i a P /\ alphabet i b P
  | Quant _ _ a => alphabet i a P
  | Empty | AssertStart | NotBehind _ | NotAhead _ => True
  end.

(** [rx] matches exactly the single code units that satisfy [f]. *)
Definition singleUnit (rx : RegExp) (f : char -> bool) : Prop :=
  forall st,
    ends (ignoreCase rx) (pattern rx) st
    = match snd st with
      | c :: t => if f c then [(Some c, t)] else []
      | [] => []
      end.

(** A digit, anything, a point and two digits. *)
Definition amountShaped (t : jsstring) : Prop :=
  exists c m d1 d2, t = c :: m ++ [DOT; d1; d2]
                    /\ isDigit c = true /\ isDigit d1 = true /\ isDigit d2 = true.

(** The string ends with a point and two digits. *)
Definition endsWithCents (t : jsstring) : Prop :=
  exists m d1 d2, t = m ++ [DOT; d1; d2]
                  /\ isDigit d1 = true /\ isDigit d2 = true.

(** Numbers that are not NaN are ordered as their keys. *)
Definition key (x : number) : Z :=
  match ext x with Some k => k | None => 0%Z end.

(** The number the fallback scan gives to a matched string *)
Definition valueOf (s0 : jsstring) : number := parseFloat (replaceAll s0 commaG []).

(** The matches of the amount pattern on all lines, in the order of the
    fallback scan *)
Definition amountsOf (lines : list jsstring) : list jsstring :=
  flat_map (fun line => match matchAll line amountG with
                        | Some ms => ms
                        | None => []
                        end) lines.

(** Empty, or white space only *)
Definition blank (text : jsstring) : Prop := Forall (fun c => isSpace c = true) text.

(** A line on which the keyword scan goes on: no keyword, or a keyword and
    no amount. *)
Definition yieldsNothing (x : jsstring) : Prop :=
  test totalKeyword x = false
  \/ (match0 x currencyAmount = None /\ match0 x amountOnly = None).

(** A keyword line on which the scan stops with the total [a]: the
    currency-anchored match without its leading junk, trimmed, or else
    the bare amount. *)
Definition yields (l a : jsstring) : Prop :=
  test totalKeyword l = true
  /\ ((exists m1, match0 l currencyAmount = Some m1
                  /\ a = trim (replace m1 leadingJunk []))
      \/ (match0 l currencyAmount = None /\ match0 l amountOnly = Some a)).

(** ** Receipts of the examples *)

Definition NL : string := String (ascii_of_nat 10) EmptyString.
Definition TAB : string := String (ascii_of_nat 9) EmptyString.

(** The four header lines of the merchant example *)
Definition headerLines : list jsstring :=
  [str "*** RECEIPT ***"; str "12345"; str "Fresh Foods Market";
   str "Date: 2024-01-01"].

Definition headerText : jsstring :=
  str ("*** RECEIPT ***" ++ NL ++ "12345" ++ NL ++ "Fresh Foods Market" ++ NL
       ++ "Date: 2024-01-01").

Definition totalsText : jsstring :=
  str ("Subtotal $10.00" ++ NL ++ "Tax $1.00" ++ NL ++ "Total $11.00").

Definition zeroText : jsstring := str ("0.00" ++ NL ++ "Items 0.00").


(** The days from 13 to 31 whose second digit is not 0, and the months
    with and without a leading zero *)
Definition digitsFrom (lo hi : N) : list char :=
  map (fun k => (lo + N.of_nat k)%N) (seq 0 (N.to_nat (hi - lo + 1))).

Definition daysAbove12 : list jsstring :=
  map (fun d2 => [cu "1"; d2]) (digitsFrom 51 57)
  ++ map (fun d2 => [cu "2"; d2]) (digitsFrom 49 57)
  ++ [str "31"].

Definition monthsWritten : list jsstring :=
  map (fun m => [m]) (digitsFrom 49 57)
  ++ map (fun m => [cu "0"; m]) (digitsFrom 49 57)
  ++ [str "10"; str "11"; str "12"].




Definition dateOf (text : jsstring) : jsstring :=
  match parseReceiptText text with
  | Normal r => date r
  | Throw => []
  end.

(** Closes the goals of [alphabet] for a pattern that consumes no given
    code unit. *)
Ltac alphabet_without :=
  cbn; repeat split;
  match goal with
  | |- forall c, _ -> _ <> _ =>
    let c := fresh "c" in
    let Hc := fresh "Hc" in
    let Ec := fresh "Ec" in
    intros c Hc Ec; rewrite Ec in Hc; vm_compute in Hc; discriminate Hc
  end.

(** ** The page *)

(** The functions around parseReceiptText read and write a few elements of
    the page.  An element is kept with the properties the program uses; a
    variable that getElementById left null is [None]. *)
Definition ELLIPSIS : char := 8230%N.   (* U+2026 *)
Definition DASH : char := 8212%N.       (* U+2014 *)

(** An element with its text; [hidden] tells whether its class list holds
    the class hidden. *)
Record Node := { textContent : jsstring; hidden : bool }.

(** The download button: its disabled flag and the entries date, merchant
    and total of its dataset, undefined until they are written. *)
Record Button := {
  disabled : bool;
  dataDate : value;
  dataMerchant : value;
  dataTotal : value
}.

(** progressBar is kept as its value. *)
Record Page := {
  progressWrap : option Node;
  progressBar : option number;
  statusText : option Node;
  errorBox : option Node;
  dateValueEl : option Node;
  merchantValueEl : option Node;
  totalValueEl : option Node;
  downloadBtn : option Button
}.

(** n.textContent = s *)
Definition setText (s : jsstring) (n : Node) : Node :=
  {| textContent := s; hidden := hidden n |}.

(** n.classList.add(hidden) for [true], n.classList.remove(hidden) for
    [false] *)
Definition setHidden (b : bool) (n : Node) : Node :=
  {| textContent := textContent n; hidden := b |}.

Definition withProgressWrap (x : option Node) (p : Page) : Page :=
  {| progressWrap := x; progressBar := progressBar p; statusText := statusText p;
     errorBox := errorBox p; dateValueEl := dateValueEl p;
     merchantValueEl := merchantValueEl p; totalValueEl := totalValueEl p;
     downloadBtn := downloadBtn p |}.

Definition withProgressBar (x : option number) (p : Page) : Page :=
  {| progressWrap := progressWrap p; progressBar := x; statusText := statusText p;
     errorBox := errorBox p; dateValueEl := dateValueEl p;
     merchantValueEl := merchantValueEl p; totalValueEl := totalValueEl p;
     downloadBtn := downloadBtn p |}.

Definition withStatusText (x : option Node) (p : Page) : Page :=
  {| progressWrap := progressWrap p; progressBar := progressBar p; statusText := x;
     errorBox := errorBox p; dateValueEl := dateValueEl p;
     merchantValueEl := merchantValueEl p; totalValueEl := totalValueEl p;
     downloadBtn := downloadBtn p |}.

Definition withErrorBox (x : option Node) (p : Page) : Page :=
  {| progressWrap := progressWrap p; progressBar := progressBar p;
     statusText := statusText p; errorBox := x; dateValueEl := dateValueEl p;
     merchantValueEl := merchantValueEl p; totalValueEl := totalValueEl p;
     downloadBtn := downloadBtn p |}.

Definition withDateValueEl (x : option Node) (p : Page) : Page :=
  {| progressWrap := progressWrap p; progressBar := progressBar p;
     statusText := statusText p; errorBox := errorBox p; dateValueEl := x;
     merchantValueEl := merchantValueEl p; totalValueEl := totalValueEl p;
     downloadBtn := downloadBtn p |}.

Definition withMerchantValueEl (x : option Node) (p : Page) : Page :=
  {| progressWrap := progressWrap p; progressBar := progressBar p;
     statusText := statusText p; errorBox := errorBox p;
     dateValueEl := dateValueEl p; merchantValueEl := x;
     totalValueEl := totalValueEl p; downloadBtn := downloadBtn p |}.

Definition withTotalValueEl (x : option Node) (p : Page) : Page :=
  {| progressWrap := progressWrap p; progressBar := progressBar p;
     statusText := statusText p; errorBox := errorBox p;
     dateValueEl := dateValueEl p; merchantValueEl := merchantValueEl p;
     totalValueEl := x; downloadBtn := downloadBtn p |}.

Definition withDownloadBtn (x : option Button) (p : Page) : Page :=
  {| progressWrap := progressWrap p; progressBar := progressBar p;
     statusText := statusText p; errorBox := errorBox p;
     dateValueEl := dateValueEl p; merchantValueEl := merchantValueEl p;
     totalValueEl := totalValueEl p; downloadBtn := x |}.

Definition showError (message : jsstring) (p : Page) : Page :=
  match errorBox p with
  | None => p
  | Some b => withErrorBox (Some (setHidden false (setText message b))) p
  end.

Definition clearError (p : Page) : Page :=
  match errorBox p with
  | None => p
  | Some b => withErrorBox (Some (setHidden true (setText [] b))) p
  end.

Definition resetUI (p : Page) : Page :=
  let p1 := match progressWrap p with
            | Some w => withProgressWrap (Some (setHidden true w)) p
            | None => p
            end in
  let p2 := match progressBar p1 with
            | Some _ => withProgressBar (Some zero) p1
            | None => p1
            end in
  match statusText p2 with
  | Some s => withStatusText (Some (setText [] s)) p2
  | None => p2
  end.

Definition one : number := binary64 1 1.

(** Math.min(a, b) and Math.max(a, b) *)
Definition mathMin (a b : number) : number :=
  if isNaN a || isNaN b then NaN else if lt b a then b else a.

Definition mathMax (a b : number) : number :=
  if isNaN a || isNaN b then NaN else if lt a b then b else a.

(** [progress] is [None] for an argument that is not of type number. *)
Definition setProgress (message : jsstring) (progress : option number) (p : Page)
  : Page :=
  let p1 := match progressWrap p with
            | Some w => withProgressWrap (Some (setHidden false w)) p
            | None => p
            end in
  let p2 := match statusText p1 with
            | Some s =>
              if truthy message then withStatusText (Some (setText message s)) p1
              else p1
            | None => p1
            end in
  match progress, progressBar p2 with
  | Some x, Some _ => withProgressBar (Some (mathMax zero (mathMin one x))) p2
  | _, _ => p2
  end.

(** A run of statements on the page ends normally or with a TypeError, and
    leaves the page as it is then. *)
Inductive run :=
| Done (p : Page)
| Raised (p : Page).

(** x || dash and x || <empty string>, for a string x *)
Definition orDash (x : jsstring) : jsstring := if truthy x then x else [DASH].
Definition orNothing (x : jsstring) : jsstring := if truthy x then x else [].

Definition displayResults (data : ExtractionResult) (p : Page) : run :=
  match dateValueEl p with
  | None => Raised p
  | Some n =>
    let p1 := withDateValueEl (Some (setText (orDash (date data)) n)) p in
    match merchantValueEl p1 with
    | None => Raised p1
    | Some n =>
      let p2 := withMerchantValueEl (Some (setText (orDash (merchant data)) n)) p1 in
      match totalValueEl p2 with
      | None => Raised p2
      | Some n =>
        let p3 := withTotalValueEl (Some (setText (orDash (total data)) n)) p2 in
        match downloadBtn p3 with
        | None => Raised p3
        | Some b =>
          Done (withDownloadBtn
                  (Some {| disabled := negb (truthy (date data)
                                             || truthy (merchant data)
                                             || truthy (total data));
                           dataDate := Str (orNothing (date data));
                           dataMerchant := Str (orNothing (merchant data));
                           dataTotal := Str (orNothing (total data)) |})
                  p3)
        end
      end
    end
  end.

(** v || <empty string> for an entry of the dataset or the text of a
    result: a string or undefined *)
Definition orEmpty (v : value) : jsstring :=
  match v with
  | Str x => x
  | Undefined | Null => []
  end.

(** The text that a click on the download button puts in the file. *)
Definition csvOfPage (p : Page) : completion jsstring :=
  match downloadBtn p with
  | None => Throw
  | Some b =>
    Normal (downloadCSV (orEmpty (dataDate b)) (orEmpty (dataMerchant b))
                        (orEmpty (dataTotal b)))
  end.

(** ** handleFile *)

(** The file is null or has a type.  The recognition is outside the
    program: it is given as the messages passed to the logger, in order,
    and the way the promise settles.  A message is null or has a status,
    a string or nothing, and a progress, a number or not; the text of a
    result is a string or is missing.  URL.createObjectURL is taken to
    return, and an assignment to the value of the bar to store what it is
    given. *)
Record File := { type : jsstring }.

Record LogMessage := { status : value; progress : option number }.

Inductive settled :=
| Fulfilled (text : value)
| Rejected.

Record Recognition := { messages : list (option LogMessage); outcome : settled }.

Definition logger (m : option LogMessage) (p : Page) : Page :=
  match m with
  | None => p
  | Some msg =>
    match status msg with
    | Str s =>
      if truthy s then
        match eqs s (str "recognizing text"), progress msg with
        | true, Some x => setProgress (str "Recognizing text" ++ [ELLIPSIS]) (Some x) p
        | _, _ =>
          if eqs s (str "loading tesseract core")
          then setProgress (str "Loading OCR engine" ++ [ELLIPSIS])
                           (Some (binary64 1 10)) p
          else if eqs s (str "initializing tesseract")
          then setProgress (str "Initializing OCR" ++ [ELLIPSIS])
                           (Some (binary64 15 100)) p
          else if eqs s (str "loading language traineddata")
          then setProgress (str "Loading language data" ++ [ELLIPSIS])
                           (Some (binary64 2 10)) p
          else p
        end
      else p
    | Undefined | Null => p
    end
  end.

Definition noFile : jsstring := str "No file selected.".
Definition notAnImage : jsstring := str "Please select an image file (JPG, PNG, GIF).".
Definition noText : jsstring := str "OCR did not detect any text. Try a clearer photo.".
Definition ocrFailed : jsstring :=
  str "Something went wrong during OCR. Please try again.".

(** The catch clause *)
Definition caught (p : Page) : Page := resetUI (showError ocrFailed p).

(** A call of handleFile during which nothing but its own logger runs on
    the page: the part before the await, the messages of the logger, and
    the part after the await, in a row. *)
Definition handleFile (file : option File) (ocr : Recognition) (p : Page) : Page :=
  let p0 := resetUI (clearError p) in
  match file with
  | None => showError noFile p0
  | Some f =>
    if negb (startsWith (str "image/") (type f)) then showError notAnImage p0
    else
      let p1 := setProgress (str "Loading image" ++ [ELLIPSIS]) (Some zero) p0 in
      let p2 := setProgress (str "Running OCR" ++ [ELLIPSIS])
                            (Some (binary64 5 100)) p1 in
      let p3 := fold_left (fun q m => logger m q) (messages ocr) p2 in
      match outcome ocr with
      | Rejected => caught p3
      | Fulfilled v =>
        let text := orEmpty v in
        if negb (truthy (trim text)) then resetUI (showError noText p3)
        else
          let p4 := setProgress (str "Parsing text" ++ [ELLIPSIS])
                                (Some (binary64 98 100)) p3 in
          match parseReceiptText text with
          | Throw => caught p4
          | Normal parsed =>
            match displayResults parsed p4 with
            | Done p5 => resetUI p5
            | Raised p5 => caught p5
            end
          end
      end
  end.

(** The page after a run that the catch clause may have to finish. *)
Definition settle (r : run) : Page :=
  match r with
  | Done q => q
  | Raised q => showError ocrFailed q
  end.

Definition runMap (f : Page -> Page) (r : run) : run :=
  match r with
  | Done q => Done (f q)
  | Raised q => Raised (f q)
  end.

(** ** The two parts of handleFile

    handleFile is an async function.  A call runs up to the await of the
    recognition and returns to the handler that made it; the rest runs
    when the recognition settles.  In between the logger is called, and
    other handlers of the page may run, a second call of handleFile among
    them.  Each part runs without interruption, on the page as it is when
    the part starts. *)
Inductive started :=
| Returned (p : Page)
| Awaiting (p : Page).

(** The part before the await: the call is over when there is no file or
    the file is not an image, and waits for the recognition otherwise. *)
Definition handleFileStart (file : option File) (p : Page) : started :=
  let p0 := resetUI (clearError p) in
  match file with
  | None => Returned (showError noFile p0)
  | Some f =>
    if negb (startsWith (str "image/") (type f)) then Returned (showError notAnImage p0)
    else
      let p1 := setProgress (str "Loading image" ++ [ELLIPSIS]) (Some zero) p0 in
      Awaiting (setProgress (str "Running OCR" ++ [ELLIPSIS])
                            (Some (binary64 5 100)) p1)
  end.

(** The part after the await, on the page as it is when the recognition
    settles. *)
Definition handleFileResume (s : settled) (p : Page) : Page :=
  match s with
  | Rejected => caught p
  | Fulfilled v =>
    let text := orEmpty v in
    if negb (truthy (trim text)) then resetUI (showError noText p)
    else
      let p4 := setProgress (str "Parsing text" ++ [ELLIPSIS])
                            (Some (binary64 98 100)) p in
      match parseReceiptText text with
      | Throw => caught p4
      | Normal parsed =>
        match displayResults parsed p4 with
        | Done p5 => resetUI p5
        | Raised p5 => caught p5
        end
      end
  end.

Definition pageOf (s : started) : Page :=
  match s with
  | Returned p | Awaiting p => p
  end.

(** What runs on the page, one after the other: a call of handleFile by a
    handler, a message to the logger of a recognition, the part after the
    await of a call whose recognition settles. *)
Inductive task :=
| Call (file : option File)
| Log (m : option LogMessage)
| Settle (s : settled).

Definition runTask (t : task) (p : Page) : Page :=
  match t with
  | Call file => pageOf (handleFileStart file p)
  | Log m => logger m p
  | Settle s => handleFileResume s p
  end.

Definition runTasks (ts : list task) (p : Page) : Page :=
  fold_left (fun q t => runTask t q) ts p.

(** ** A page and a recognition for the examples *)

(** Every element exists; nothing is shown yet. *)
Definition freshPage : Page :=
  {| progressWrap := Some {| textContent := []; hidden := true |};
     progressBar := Some zero;
     statusText := Some {| textContent := []; hidden := false |};
     errorBox := Some {| textContent := []; hidden := true |};
     dateValueEl := Some {| textContent := [DASH]; hidden := false |};
     merchantValueEl := Some {| textContent := [DASH]; hidden := false |};
     totalValueEl := Some {| textContent := [DASH]; hidden := false |};
     downloadBtn := Some {| disabled := true; dataDate := Undefined;
                            dataMerchant := Undefined; dataTotal := Undefined |} |}.

(** Two messages of the logger, then the text of a receipt. *)
Definition sampleRecognition : Recognition :=
  {| messages := [Some {| status := Str (str "loading tesseract core");
                          progress := None |};
                  Some {| status := Str (str "recognizing text");
                          progress := Some (binary64 1 2) |}];
     outcome := Fulfilled (Str (str ("Joe's Diner" ++ NL ++ "2024-03-05"
                                       ++ NL ++ "Total $1,234.50"))) |}.

Definition failedRecognition : Recognition :=
  {| messages := [Some {| status := Str (str "recognizing text");
                          progress := Some (binary64 1 2) |}];
     outcome := Rejected |}.

Definition blankRecognition : Recognition :=
  {| messages := []; outcome := Fulfilled (Str (str "  ")) |}.

(** ** Notions of the further properties *)

(** [m] occurs in [l] as a run of adjacent code units. *)
Definition occursIn (m l : jsstring) : Prop := exists p a, l = p ++ m ++ a.

(** The pieces between line ends, written without the pattern: a line feed
    ends a piece, and so does a carriage return before a line feed. *)
Fixpoint lineSplit (cur : jsstring) (text : jsstring) : list jsstring :=
  match text with
  | [] => [rev cur]
  | c :: t =>
    if (c =? LF)%N then rev cur :: lineSplit [] t
    else if (c =? CR)%N then
      match t with
      | c2 :: t2 =>
        if (c2 =? LF)%N then rev cur :: lineSplit [] t2
        else lineSplit (c :: cur) t
      | [] => lineSplit (c :: cur) t
      end
    else lineSplit (c :: cur) t
  end.

(** The three tests of the merchant scan that let a line through: enough
    letters, no keyword of the deny-list, two code units or more. *)
Definition passesFilters (line : jsstring) : bool :=
  negb (lt (alphaRatio line) threeTenths)
  && negb (test skipKeywords line)
  && negb (length line <? 2).

(** The characters a merchant name may hold: A-Za-z0-9 .,&'- *)
Definition allowedInName (c : char) : bool :=
  (isAlpha c || isDigit c
   || (c =? cu " ") || (c =? cu ".") || (c =? cu ",") || (c =? cu "&")
   || (c =? cu "'") || (c =? cu "-"))%N.

(** What becomes of the pieces of a split: each is trimmed and the empty
    ones are dropped. *)
Definition keptPieces (pieces : list jsstring) : list jsstring :=
  filter (fun l => 0 <? length l) (map trim pieces).

(** The position after the longest run of code units that satisfy [f] at
    the start of [s]. *)
Fixpoint skipClass (f : char -> bool) (prev : option char) (s : jsstring) : state :=
  match s with
  | c :: t => if f c then skipClass f (Some c) t else (prev, s)
  | [] => (prev, [])
  end.

(** No white space is followed by another one. *)
Definition singleSpaced (s : jsstring) : Prop :=
  forall p a b q, s = p ++ a :: b :: q -> isSpace a = true -> isSpace b = false.

(** A digit or the sign of the dollar, the euro or the pound: what the
    pattern of the leading junk stops at. *)
Definition amountStart (c : char) : bool :=
  (isDigit c || (c =? cu "$") || (c =? EURO) || (c =? POUND))%N.

(** The first code unit of a string, tested. *)
Definition headIs (f : char -> bool) (s0 : jsstring) : Prop :=
  exists c t, s0 = c :: t /\ f c = true.

(** Every match of [r] starts with a code unit that satisfies [P]: a part
    that can match the empty string may stand before the part that gives
    the first code unit, if all it consumes satisfies [P]. *)
Fixpoint mustStart (i : bool) (r : regex) (P : char -> Prop) : Prop :=
  match r with
  | Char a => forall c, canon i a = canon i c -> P c
  | Class inv items => forall c, accepts i inv items c = true -> P c
  | Seq a b => mustStart i a P \/ (alphabet i a P /\ mustStart i b P)
  | Disj a b => mustStart i a P /\ mustStart i b P
  | Quant (S _) max a => max <> Some 0 /\ mustStart i a P
  | _ => False
  end.

(** Every match of [r] ends with a code unit that satisfies [P]. *)
Fixpoint mustEnd (i : bool) (r : regex) (P : char -> Prop) : Prop :=
  match r with
  | Char a => forall c, canon i a = canon i c -> P c
  | Class inv items => forall c, accepts i inv items c = true -> P c
  | Seq a b => mustEnd i b P \/ (alphabet i b P /\ mustEnd i a P)
  | Disj a b => mustEnd i a P /\ mustEnd i b P
  | Quant (S _) max a => max <> Some 0 /\ mustEnd i a P
  | _ => False
  end.

(** Something is consumed from [st] to [e], and the last code unit
    consumed satisfies [P]. *)
Definition endsOn (P : char -> Prop) (st e : state) : Prop :=
  exists m c, snd st = m ++ c :: snd e /\ P c.

(** A class item that holds digits only. *)
Definition digitItem (it : class_item) : bool :=
  match it with
  | One a => isDigit a
  | Range lo hi => (48 <=? lo)%N && (hi <=? 57)%N
  | ClsDigit => true
  | ClsSpace | ClsWord => false
  end.

(** A field in double quotes when it holds a comma, as it stands
    otherwise. *)
Definition commaQuoted (v : jsstring) : jsstring :=
  if existsb (N.eqb COMMA) v then [DQUOTE] ++ v ++ [DQUOTE] else v.

(** ** parseReceiptText with its RegExp objects

    A regular expression literal makes a RegExp object each time it is
    evaluated.  The pattern and the flags of the object never change; its
    lastIndex does: exec reads it and writes it when the flag g or y is
    set, and test, match, replace and split go through exec.  This is the
    state a call of parseReceiptText works with besides its argument.  The
    world holds the lastIndex of every RegExp object made so far, and the
    page, which is the other state of the program.  The methods are the
    ones of the language: exec is RegExpBuiltinExec, and test, match,
    replace and split are the methods of RegExp.prototype that the methods
    of a string call. *)
Module Stateful.

Record RegExpObject := {
  address : nat;
  source : RegExp;
  global : bool;
  sticky : bool
}.

Record World := {
  created : nat;                (* the objects made so far: the addresses below *)
  lastIndexOf : nat -> nat;     (* the lastIndex of the object at an address *)
  page : Page
}.

(** A call returns a value, throws, or is cut short by the bound on the
    turns of a loop. *)
Inductive result (A : Type) :=
| Returns (a : A) (w : World)
| Throws (w : World)
| Unfinished.
Arguments Returns {A} a w.
Arguments Throws {A} w.
Arguments Unfinished {A}.

Definition M (A : Type) : Type := World -> result A.

Definition ret {A} (a : A) : M A := fun w => Returns a w.

Definition throw {A} : M A := fun w => Throws w.

Definition unfinished {A} : M A := fun _ => Unfinished.

Definition bind {A B} (m : M A) (k : A -> M B) : M B :=
  fun w =>
    match m w with
    | Returns a w' => k a w'
    | Throws w' => Throws w'
    | Unfinished => Unfinished
    end.

Notation "x <~ c ;; k" := (bind c (fun x => k))
  (at level 61, c at next level, right associativity).
Notation "c ;;; k" := (bind c (fun _ => k))
  (at level 61, right associativity).

Definition getLastIndex (o : RegExpObject) : M nat :=
  fun w => Returns (lastIndexOf w (address o)) w.

(** The world with [n] as the lastIndex of the object at [a] *)
Definition withLastIndex (a n : nat) (w : World) : World :=
  {| created := created w;
     lastIndexOf := fun b => if b =? a then n else lastIndexOf w b;
     page := page w |}.

Definition setLastIndex (o : RegExpObject) (n : nat) : M unit :=
  fun w => Returns tt (withLastIndex (address o) n w).

(** The world with one object more *)
Definition withObject (w : World) : World :=
  {| created := S (created w);
     lastIndexOf := lastIndexOf w;
     page := page w |}.

(** A new object, at the next address, with lastIndex 0. *)
Definition construct (rx : RegExp) (g y : bool) : M RegExpObject :=
  fun w =>
    Returns {| address := created w; source := rx; global := g; sticky := y |}
            (withObject (withLastIndex (created w) 0 w)).

(** The evaluation of a literal, with the flag g or without *)
Definition regExpLiteral (rx : RegExp) (g : bool) : M RegExpObject :=
  construct rx g false.

(** The code unit before index [i] *)
Definition prevAt (s : jsstring) (i : nat) : option char :=
  match i with
  | 0 => None
  | S j => nth_error s j
  end.

(** The code units from index [i] up to index [e] *)
Definition substring (s : jsstring) (i e : nat) : jsstring :=
  firstn (e - i) (skipn i s).

(** The matcher of the pattern tried at index [i]: the index where the
    match ends. *)
Definition matcherAt (rx : RegExp) (s : jsstring) (i : nat) : option nat :=
  match ends (ignoreCase rx) (pattern rx) (prevAt s i, skipn i s) with
  | e :: _ => Some (length s - length (snd e))
  | [] => None
  end.

(** The loop of RegExpBuiltinExec from lastIndex [i]: [left] is the number
    of indices from [i] to the length of the string; with none left
    lastIndex exceeds the length and the result is null.  A failure at an
    index ends the loop when the flag y is set, and moves to the next index
    otherwise.  The result is the index of the match and its end. *)
Fixpoint execLoop (rx : RegExp) (y : bool) (s : jsstring) (i left : nat)
  : option (nat * nat) :=
  match left with
  | 0 => None
  | S n =>
    match matcherAt rx s i with
    | Some e => Some (i, e)
    | None => if y then None else execLoop rx y s (S i) n
    end
  end.

(** The array that exec returns: its index and its element 0 *)
Record MatchArray := { index : nat; matched : jsstring }.

(** RegExpBuiltinExec: lastIndex is read and written only with the flag g
    or y, and counts as 0 without them. *)
Definition regExpBuiltinExec (o : RegExpObject) (s : jsstring)
  : M (option MatchArray) :=
  let stateful := global o || sticky o in
  i <~ (if stateful then getLastIndex o else ret 0) ;;
  match execLoop (source o) (sticky o) s i (S (length s) - i) with
  | None =>
    (if stateful then setLastIndex o 0 else ret tt) ;;;
    ret None
  | Some (idx, e) =>
    (if stateful then setLastIndex o e else ret tt) ;;;
    ret (Some {| index := idx; matched := substring s idx e |})
  end.

(** rx.test(s) *)
Definition test (o : RegExpObject) (s : jsstring) : M bool :=
  r <~ regExpBuiltinExec o s ;;
  ret (match r with Some _ => true | None => false end).

(** The loop of match and of replace for an object with the flag g: exec
    until it returns null; after an empty match lastIndex is moved one
    index on.  [turns] bounds the turns of the loop. *)
Fixpoint execAll (o : RegExpObject) (s : jsstring) (turns : nat)
  : M (list MatchArray) :=
  match turns with
  | 0 => unfinished
  | S n =>
    r <~ regExpBuiltinExec o s ;;
    match r with
    | None => ret []
    | Some m =>
      (match matched m with
       | [] => thisIndex <~ getLastIndex o ;; setLastIndex o (S thisIndex)
       | _ => ret tt
       end) ;;;
      rest <~ execAll o s n ;;
      ret (m :: rest)
    end
  end.

(** s.match(rx): without the flag g the array of exec, of which only
    element 0 is kept here, or null; with the flag g every match from
    lastIndex 0 on, or null when there is none. *)
Definition match_ (s : jsstring) (o : RegExpObject) : M (option (list jsstring)) :=
  if global o then
    setLastIndex o 0 ;;;
    results <~ execAll o s (length s + 2) ;;
    ret (match results with
         | [] => None
         | _ => Some (map matched results)
         end)
  else
    r <~ regExpBuiltinExec o s ;;
    ret (option_map (fun m => [matched m]) r).

(** The result of replace from the matches found: what lies between the
    matches is kept, each match becomes [by_]. *)
Fixpoint assemble (s by_ : jsstring) (results : list MatchArray)
         (nextSourcePosition : nat) : jsstring :=
  match results with
  | [] => skipn nextSourcePosition s
  | m :: rest =>
    if nextSourcePosition <=? index m
    then substring s nextSourcePosition (index m) ++ by_
           ++ assemble s by_ rest (index m + length (matched m))
    else assemble s by_ rest nextSourcePosition
  end.

(** s.replace(rx, by) for [by] without [$]: one exec without the flag g,
    every match from lastIndex 0 on with it. *)
Definition replace (s : jsstring) (o : RegExpObject) (by_ : jsstring) : M jsstring :=
  results <~ (if global o then
                setLastIndex o 0 ;;; execAll o s (length s + 2)
              else
                r <~ regExpBuiltinExec o s ;;
                ret (match r with Some m => [m] | None => [] end)) ;;
  ret (assemble s by_ results 0).

(** The loop of split: the piece in progress starts at [p], the splitter
    is tried at [q]. *)
Fixpoint splitLoop (splitter : RegExpObject) (s : jsstring) (p q turns : nat)
  : M (list jsstring) :=
  match turns with
  | 0 => unfinished
  | S n =>
    if length s <=? q then ret [substring s p (length s)]
    else
      setLastIndex splitter q ;;;
      z <~ regExpBuiltinExec splitter s ;;
      match z with
      | None => splitLoop splitter s p (S q) n
      | Some _ =>
        e0 <~ getLastIndex splitter ;;
        let e := Nat.min e0 (length s) in
        if e =? p then splitLoop splitter s p (S q) n
        else
          rest <~ splitLoop splitter s e e n ;;
          ret (substring s p q :: rest)
      end
  end.

(** s.split(rx), without a limit, for a pattern without a capture: split
    works with an object of its own, made from [rx] with the flag y
    added. *)
Definition split (s : jsstring) (o : RegExpObject) : M (list jsstring) :=
  splitter <~ construct (source o) (global o) true ;;
  match s with
  | [] =>
    z <~ regExpBuiltinExec splitter s ;;
    ret (match z with Some _ => [] | None => [[]] end)
  | _ => splitLoop splitter s 0 0 (2 * length s + 2)
  end.

(** lines *)
Definition linesOf (text : jsstring) : M (list jsstring) :=
  rx <~ regExpLiteral lineBreak false ;;
  pieces <~ split text rx ;;
  ret (filter (fun l => 0 <? length l) (map trim pieces)).

(** The array literal of datePatterns *)
Fixpoint literals (patterns : list RegExp) : M (list RegExpObject) :=
  match patterns with
  | [] => ret []
  | rx :: rest =>
    o <~ regExpLiteral rx false ;;
    os <~ literals rest ;;
    ret (o :: os)
  end.

(** Element 0 of an array of strings, or undefined *)
Definition element0 (a : list jsstring) : option jsstring := hd_error a.

(** for (const rx of datePatterns); an undefined foundDate would become
    the empty string in the returned object. *)
Fixpoint dateLoop (patterns : list RegExpObject) (fullText : jsstring) : M jsstring :=
  match patterns with
  | [] => ret []
  | rx :: rest =>
    m <~ match_ fullText rx ;;
    match m with
    | Some a => ret (match element0 a with Some m0 => m0 | None => [] end)
    | None => dateLoop rest fullText
    end
  end.

(** for (let i = lines.length - 1; i >= 0; i--): [n] is i + 1.  The
    literals of the body are evaluated in each turn; currencyAmount and
    amountOnly are the two objects made before the loop. *)
Fixpoint totalLoop (currencyAmount amountOnly : RegExpObject)
         (lines : list jsstring) (n : nat) : M jsstring :=
  match n with
  | 0 => ret []
  | S i =>
    let line := nth_error lines i in
    keyword <~ regExpLiteral totalKeyword false ;;
    isTotalLine <~ test keyword (toString line) ;;
    if isTotalLine then
      match line with
      | None => throw
      | Some l =>
        m1 <~ match_ l currencyAmount ;;
        match m1 with
        | Some a1 =>
          match element0 a1 with
          | None => throw
          | Some m10 =>
            junk <~ regExpLiteral leadingJunk false ;;
            r <~ replace m10 junk [] ;;
            ret (trim r)
          end
        | None =>
          m2 <~ match_ l amountOnly ;;
          match m2 with
          | Some a2 =>
            (* an undefined foundTotal would be as falsy as the empty string *)
            ret (match element0 a2 with Some m20 => m20 | None => [] end)
          | None => totalLoop currencyAmount amountOnly lines i
          end
        end
      end
    else totalLoop currencyAmount amountOnly lines i
  end.

(** for (const s of matches) *)
Fixpoint maxMatches (matches : list jsstring) (acc : number * jsstring)
  : M (number * jsstring) :=
  match matches with
  | [] => ret acc
  | s0 :: rest =>
    comma <~ regExpLiteral commaG true ;;
    digits <~ replace s0 comma [] ;;
    let v := parseFloat digits in
    maxMatches rest (if negb (isNaN v) && gt v (fst acc) then (v, s0) else acc)
  end.

(** for (const line of lines) *)
Fixpoint maxLines (lines : list jsstring) (acc : number * jsstring)
  : M (number * jsstring) :=
  match lines with
  | [] => ret acc
  | line :: rest =>
    amounts <~ regExpLiteral amountG true ;;
    matches <~ match_ line amounts ;;
    match matches with
    | None => maxLines rest acc
    | Some ms =>
      acc' <~ maxMatches ms acc ;;
      maxLines rest acc'
    end
  end.

Definition maxTotal (lines : list jsstring) : M jsstring :=
  r <~ maxLines lines (minusOne, []) ;;
  ret (if gt (fst r) zero then snd r else []).

Definition alphaRatio (line : jsstring) : M number :=
  nonLetter <~ regExpLiteral nonLetterG true ;;
  letters <~ replace line nonLetter [] ;;
  ret (divNat (length letters) (length line)).

Definition sanitize (line : jsstring) : M jsstring :=
  disallowed <~ regExpLiteral disallowedG true ;;
  kept <~ replace line disallowed [] ;;
  spaces <~ regExpLiteral spacesG true ;;
  spaced <~ replace kept spaces (str " ") ;;
  ret (trim spaced).

(** for (let i = 0; i < Math.min(lines.length, 12); i++): [k] turns are
    left; skipKeywords is the object made before the loop. *)
Fixpoint merchantLoop (skipKeywords : RegExpObject) (lines : list jsstring)
         (i k : nat) (foundMerchant : jsstring) : M jsstring :=
  match k with
  | 0 => ret foundMerchant
  | S k' =>
    match nth_error lines i with
    | None => throw
    | Some line =>
      ratio <~ alphaRatio line ;;
      if lt ratio threeTenths then merchantLoop skipKeywords lines (S i) k' foundMerchant
      else
        skip <~ test skipKeywords line ;;
        if skip then merchantLoop skipKeywords lines (S i) k' foundMerchant
        else if length line <? 2 then merchantLoop skipKeywords lines (S i) k' foundMerchant
        else
          found <~ sanitize line ;;
          if truthy found then ret found
          else merchantLoop skipKeywords lines (S i) k' found
    end
  end.

Definition parseReceiptText (text : jsstring) : M ExtractionResult :=
  lines <~ linesOf text ;;
  let fullText := join lines separator in
  patterns <~ literals datePatterns ;;
  foundDate <~ dateLoop patterns fullText ;;
  currency <~ regExpLiteral currencyAmount false ;;
  bare <~ regExpLiteral amountOnly false ;;
  foundTotal <~ totalLoop currency bare lines (length lines) ;;
  foundTotal <~ (if truthy foundTotal then ret foundTotal else maxTotal lines) ;;
  keywords <~ regExpLiteral skipKeywords false ;;
  foundMerchant <~ merchantLoop keywords lines 0 (Nat.min (length lines) 12) [] ;;
  ret {| date := foundDate; merchant := foundMerchant;
         total := foundTotal; raw := text |}.

End Stateful.

(** Index [i] of [s] is a position of the matcher: [prev] is the code
    unit before it and [suf] are the code units from it on. *)
Definition located (s : jsstring) (i : nat) (prev : option char) (suf : jsstring)
  : Prop :=
  Stateful.prevAt s i = prev /\ skipn i s = suf /\ i <= length s.

(** From [w] to [w'] the page is the same, no object is lost, and the
    objects below address [n] have the lastIndex they had. *)
Definition keeps (n : nat) (w w' : Stateful.World) : Prop :=
  Stateful.page w' = Stateful.page w
  /\ Stateful.created w <= Stateful.created w'
  /\ forall a, a < n -> Stateful.lastIndexOf w' a = Stateful.lastIndexOf w a.

(** In every world that holds the objects below [n], whatever their
    lastIndex, [m] returns [v] and keeps these objects and the page. *)
Definition returns {A} (n : nat) (m : Stateful.M A) (v : A) : Prop :=
  forall w, n <= Stateful.created w ->
            exists w', m w = Stateful.Returns v w' /\ keeps n w w'.

Definition raises {A} (n : nat) (m : Stateful.M A) : Prop :=
  forall w, n <= Stateful.created w ->
            exists w', m w = Stateful.Throws w' /\ keeps n w w'.

(** [m] ends as the completion [c] says. *)
Definition follows {A} (n : nat) (m : Stateful.M A) (c : completion A) : Prop :=
  match c with
  | Normal v => returns n m v
  | Throw => raises n m
  end.

(** The index after a match at [idx] of length [len], where the next
    match of a pattern with the flag g is looked for. *)
Definition nextIndex (idx len : nat) : nat := idx + Nat.max 1 len.

(** An object made by a literal without the flag g, for the pattern [rx] *)
Definition plainFor (rx : RegExp) (o : Stateful.RegExpObject) : Prop :=
  Stateful.source o = rx /\ Stateful.global o = false /\ Stateful.sticky o = false.

(** A world in which objects exist already, with a lastIndex that is not
    0, and a world without objects *)
Definition usedWorld : Stateful.World :=
  {| Stateful.created := 5; Stateful.lastIndexOf := fun a => 3 + a;
     Stateful.page := freshPage |}.

Definition newWorld : Stateful.World :=
  {| Stateful.created := 0; Stateful.lastIndexOf := fun _ => 0;
     Stateful.page := freshPage |}.

(** The completion of a call that is not cut short *)
Definition completionOf {A} (r : Stateful.result A) : option (completion A) :=
  match r with
  | Stateful.Returns a _ => Some (Normal a)
  | Stateful.Throws _ => Some Throw
  | Stateful.Unfinished => None
  end.

(** Three calls of test on one object for the pattern of a comma with the
    flag g *)
Definition testThrice (s : jsstring) : Stateful.M (bool * bool * bool) :=
  Stateful.bind (Stateful.regExpLiteral commaG true) (fun o =>
  Stateful.bind (Stateful.test o s) (fun b1 =>
  Stateful.bind (Stateful.test o s) (fun b2 =>
  Stateful.bind (Stateful.test o s) (fun b3 =>
  Stateful.ret (b1, b2, b3))))).

(** ** Checks of the model on known values *)

Example split_lines :
  split (str ("a" ++ String (ascii_of_nat 13) NL ++ "b" ++ NL ++ NL ++ "c")) lineBreak
  = [str "a"; str "b"; []; str "c"].
Proof. vm_compute. reflexivity. Qed.

Example split_empty : split [] lineBreak = [[]].
Proof. reflexivity. Qed.

Example linesOf_trims :
  linesOf (str ("  a " ++ String (ascii_of_nat 13) NL ++ NL ++ TAB ++ "b c"))
  = [str "a"; str "b c"].
Proof. vm_compute. reflexivity. Qed.

Example amounts_of_a_line :
  matchAll (str "1,2345.67 and 8.00 or 1,234,567.891") amountG
  = Some [str "2345.67"; str "8.00"; str "1,234,567.89"].
Proof. vm_compute. reflexivity. Qed.

Example spaces_collapsed :
  replaceAll (str "a   b  c d") spacesG (str " ") = str "a b c d".
Proof. vm_compute. reflexivity. Qed.

Example month_name_date :
  match0 (str "Sept 5, 12 SEPTEMBER  2024") Date.dMonthY
  = Some (str "12 SEPTEMBER  2024").
Proof. vm_compute. reflexivity. Qed.

(** The look-behind only sees the code unit before the match, and the
    look-ahead the one after it. *)
Example bare_amount_between_letters :
  match0 (str "12.50kg 7.25") amountOnly = Some (str "7.25")
  /\ match0 (str "x12.50") amountOnly = Some (str "2.50").
Proof. split; vm_compute; reflexivity. Qed.

Example currency_total :
  option_map (fun m1 => trim (replace m1 leadingJunk []))
             (match0 (str "Total due: USD 1,234.50") currencyAmount)
  = Some (str "1,234.50").
Proof. vm_compute. reflexivity. Qed.

(** 0.3 is 5404319552844595 * 2^-54 and 0.1 is 3602879701896397 * 2^-55. *)
Example binary64_three_tenths :
  threeTenths = Fin (5404319552844595 * 2 ^ 1020).
Proof. vm_compute. reflexivity. Qed.

Example binary64_one_tenth :
  binary64 1 10 = Fin (3602879701896397 * 2 ^ 1019).
Proof. vm_compute. reflexivity. Qed.

(** 2^53 + 1 is not a Number: it rounds to 2^53, the even neighbour. *)
Example binary64_ties_to_even :
  binary64 (2 ^ 53 + 1) 1 = Fin (2 ^ 53 * unit64)
  /\ binary64 (2 ^ 53 + 3) 1 = Fin ((2 ^ 53 + 4) * unit64).
Proof. split; vm_compute; reflexivity. Qed.

Example parseFloat_amount :
  parseFloat (str "1234.50") = Fin (2469 * 2 ^ 1073)
  /\ valueOf (str "1,234.50") = parseFloat (str "1234.50")
  /\ parseFloat (str "-1") = minusOne
  /\ parseFloat (str "  2.5e1x") = Fin (25 * unit64)
  /\ parseFloat (str "total") = NaN.
Proof. repeat split; vm_compute; reflexivity. Qed.

(** The ratio of letters is compared as a Number: 3 letters of 10 code
    units is not below 0.3. *)
Example alphaRatio_at_the_bound :
  lt (alphaRatio (str "abc1234567")) threeTenths = false
  /\ lt (alphaRatio (str "ab12345")) threeTenths = true.
Proof. split; vm_compute; reflexivity. Qed.

(** The merchant Joe's "Diner", Inc. of the specification *)
Example escapeCsv_diner :
  let v := str "Joe's " ++ [DQUOTE] ++ str "Diner" ++ [DQUOTE] ++ str ", Inc." in
  escapeCsv (Str v)
  = [DQUOTE] ++ str "Joe's " ++ [DQUOTE; DQUOTE] ++ str "Diner" ++ [DQUOTE; DQUOTE]
    ++ str ", Inc." ++ [DQUOTE]
  /\ csvUnescape (escapeCsv (Str v)) = Some v.
Proof. split; vm_compute; reflexivity. Qed.

(** ** Facts about the matcher *)

Lemma in_flat_map_inv (A B : Type) (f : A -> list B) (l : list A) (y : B) :
  In y (flat_map f l) -> exists x, In x l /\ In y (f x).
Proof. intro H. apply in_flat_map in H. exact H. Qed.

Lemma flat_map_same (A B : Type) (f g : A -> list B) (l : list A) :
  (forall a, In a l -> f a = g a) -> flat_map f l = flat_map g l.
Proof.
  intro H. induction l as [|a l IH]; [reflexivity|].
  cbn [flat_map]. rewrite (H a) by (left; reflexivity).
  rewrite IH; [reflexivity|]. intros x Hx. apply H. right. exact Hx.
Qed.

Lemma existsb_same (A : Type) (f g : A -> bool) (l : list A) :
  (forall a, f a = g a) -> existsb f l = existsb g l.
Proof.
  intro H. induction l as [|a l IH]; [reflexivity|].
  cbn [existsb]. rewrite H, IH. reflexivity.
Qed.

Lemma suffixOf_refl st : suffixOf st st.
Proof. exists []. reflexivity. Qed.

Lemma suffixOf_trans a b c : suffixOf a b -> suffixOf b c -> suffixOf a c.
Proof.
  intros [m1 H1] [m2 H2]. exists (m1 ++ m2).
  rewrite H1, H2, app_assoc. reflexivity.
Qed.

Lemma suffixOf_length st e : suffixOf st e -> length (snd e) <= length (snd st).
Proof. intros [m ->]. rewrite length_app. lia. Qed.

Lemma step_inv st c st' :
  step st = Some (c, st') -> snd st = c :: snd st' /\ fst st' = Some c.
Proof.
  unfold step. destruct st as [p [|x t]]; simpl; intro H; inversion H; subst.
  simpl. split; reflexivity.
Qed.

Lemma step_suffix st c st' : step st = Some (c, st') -> suffixOf st st'.
Proof. intro H. apply step_inv in H. exists [c]. apply H. Qed.

(** Whatever relation between positions each iteration of a quantifier
    keeps, if it is reflexive and transitive the quantifier keeps it. *)
Section RepeatFacts.
Variable body : state -> list state.
Variable R : state -> state -> Prop.
Hypothesis R_refl : forall st, R st st.
Hypothesis R_trans : forall a b c, R a b -> R b c -> R a c.
Hypothesis body_R : forall st e, In e (body st) -> R st e.

Lemma repeat_keeps fuel : forall min max st e,
  In e (repeat body fuel min max st) -> R st e.
Proof.
  induction fuel as [|fuel IH]; intros min max st e H.
  - destruct max as [[|k]|]; simpl in H; try contradiction.
    destruct H as [<-|[]]. apply R_refl.
  - assert (Hagain :
      In e (flat_map
              (fun st' : state =>
                 if (min =? 0) && (length (snd st') =? length (snd st))
                 then []
                 else repeat body fuel (pred min) (option_map pred max) st')
              (body st)) -> R st e).
    { intro Hin. apply in_flat_map_inv in Hin. destruct Hin as [st' [Hb Hr]].
      destruct ((min =? 0) && (length (snd st') =? length (snd st)));
        [contradiction|].
      eapply R_trans; [apply body_R, Hb | eapply IH, Hr]. }
    destruct max as [[|k]|]; simpl in H.
    + destruct H as [<-|[]]. apply R_refl.
    + destruct (min =? 0); [apply in_app_or in H; destruct H as [H|[<-|[]]]|];
        auto.
    + destruct (min =? 0); [apply in_app_or in H; destruct H as [H|[<-|[]]]|];
        auto.
Qed.
End RepeatFacts.

Lemma repeat_suffix (body : state -> list state) :
  (forall st e, In e (body st) -> suffixOf st e) ->
  forall fuel min max st e,
    In e (repeat body fuel min max st) -> suffixOf st e.
Proof.
  intros Hb fuel min max st e.
  apply repeat_keeps; auto using suffixOf_refl. apply suffixOf_trans.
Qed.

Lemma ends_suffix i r : forall st e, In e (ends i r st) -> suffixOf st e.
Proof.
  induction r; intros st e H; cbn [ends] in H.
  - destruct H as [<-|[]]. apply suffixOf_refl.
  - destruct (step st) as [[x st']|] eqn:E; [|contradiction].
    destruct (canon i c =? canon i x)%N; [|contradiction].
    destruct H as [<-|[]]. eapply step_suffix, E.
  - destruct (step st) as [[x st']|] eqn:E; [|contradiction].
    destruct (xorb invert (inClass i items x)); [|contradiction].
    destruct H as [<-|[]]. eapply step_suffix, E.
  - apply in_flat_map_inv in H. destruct H as [mid [H1 H2]].
    eapply suffixOf_trans; eauto.
  - apply in_app_or in H. destruct H; auto.
  - eapply (@repeat_suffix (ends i r)); [exact IHr | exact H].
  - destruct (fst st); [contradiction|]. destruct H as [<-|[]]. apply suffixOf_refl.
  - destruct (fst st) as [c|]; [destruct (inClass i items c); [contradiction|]|];
      destruct H as [<-|[]]; apply suffixOf_refl.
  - destruct (snd st) as [|c t]; [|destruct (inClass i items c); [contradiction|]];
      destruct H as [<-|[]]; apply suffixOf_refl.
Qed.

Lemma consumed_app p m (e : state) : consumed (p, m ++ snd e) e = m.
Proof.
  unfold consumed. simpl.
  rewrite length_app, Nat.add_sub. rewrite firstn_app, Nat.sub_diag, firstn_all.
  simpl. apply app_nil_r.
Qed.

Lemma consumed_spec st e : suffixOf st e -> snd st = consumed st e ++ snd e.
Proof.
  intros [m H]. destruct st as [p s0]. simpl in H. subst s0.
  rewrite consumed_app. reflexivity.
Qed.

Lemma repeat_done (body : state -> list state) fuel min st :
  repeat body fuel min (Some 0) st = [st].
Proof. destruct fuel; reflexivity. Qed.

(** While the minimum is not reached an iteration has to match. *)
Lemma repeat_first (body : state -> list state) fuel n max st e :
  max <> Some 0 ->
  In e (repeat body fuel (S n) max st) ->
  exists mid, In mid (body st) /\
              In e (repeat body (pred fuel) n (option_map pred max) mid).
Proof.
  intros Hmax H. destruct fuel as [|fuel].
  - destruct max as [[|k]|]; simpl in H; contradiction.
  - assert (H' : In e (flat_map
                (fun st' : state =>
                   repeat body fuel n (option_map pred max) st') (body st))).
    { destruct max as [[|k]|]; [congruence| |]; exact H. }
    apply in_flat_map_inv in H'. exact H'.
Qed.

Lemma ends_class i inv items st e :
  In e (ends i (Class inv items) st) ->
  exists c, snd st = c :: snd e /\ accepts i inv items c = true /\ fst e = Some c.
Proof.
  cbn [ends]. intro H. destruct (step st) as [[x st']|] eqn:E; [|contradiction].
  unfold accepts. destruct (xorb inv (inClass i items x)) eqn:X; [|contradiction].
  destruct H as [<-|[]]. apply step_inv in E. exists x. tauto.
Qed.

Lemma ends_char i a st e :
  In e (ends i (Char a) st) ->
  exists c, snd st = c :: snd e /\ canon i a = canon i c /\ fst e = Some c.
Proof.
  cbn [ends]. intro H. destruct (step st) as [[x st']|] eqn:E; [|contradiction].
  destruct (canon i a =? canon i x)%N eqn:X; [|contradiction].
  destruct H as [<-|[]]. apply step_inv in E. apply N.eqb_eq in X.
  exists x. tauto.
Qed.

Lemma ends_seq i a b st e :
  In e (ends i (Seq a b) st) ->
  exists mid, In mid (ends i a st) /\ In e (ends i b mid).
Proof. cbn [ends]. apply in_flat_map_inv. Qed.

Lemma ends_disj i a b st e :
  In e (ends i (Disj a b) st) -> In e (ends i a st) \/ In e (ends i b st).
Proof. cbn [ends]. apply in_app_or. Qed.

Lemma ends_empty i st e : In e (ends i Empty st) -> e = st.
Proof. cbn [ends]. intros [<-|[]]. reflexivity. Qed.

(** r{2} for a class: exactly two code units of the class. *)
Lemma ends_two i inv items st e :
  In e (ends i (times 2 (Class inv items)) st) ->
  exists c1 c2, snd st = c1 :: c2 :: snd e
                /\ accepts i inv items c1 = true /\ accepts i inv items c2 = true.
Proof.
  unfold times. cbn [ends]. intro H.
  apply repeat_first in H; [|discriminate]. destruct H as [m1 [H1 H]].
  apply repeat_first in H; [|discriminate]. destruct H as [m2 [H2 H]].
  simpl option_map in H. rewrite repeat_done in H. destruct H as [<-|[]].
  apply ends_class in H1. destruct H1 as [c1 [E1 [A1 _]]].
  apply ends_class in H2. destruct H2 as [c2 [E2 [A2 _]]].
  exists c1, c2. rewrite E1, E2. auto.
Qed.

(** A quantifier with a positive minimum over a class starts with a code
    unit of the class. *)
Lemma ends_some i inv items n max st e :
  max <> Some 0 ->
  In e (ends i (Quant (S n) max (Class inv items)) st) ->
  exists c m, snd st = c :: m ++ snd e /\ accepts i inv items c = true.
Proof.
  intros Hmax H. cbn [ends] in H. apply repeat_first in H; [|exact Hmax].
  destruct H as [mid [H1 H]].
  apply ends_class in H1. destruct H1 as [c [E1 [A1 _]]].
  apply (@repeat_suffix (ends i (Class inv items))
           (@ends_suffix i (Class inv items))) in H.
  destruct H as [m Hm]. exists c, m. rewrite E1, Hm. auto.
Qed.

Lemma canon_false c : canon false c = c.
Proof. reflexivity. Qed.

(** ** The fuel of a quantifier is never exhausted *)

(** Above [min] plus the length left, more fuel changes nothing: the
    result of [ends] on a quantifier is that of an unbounded loop. *)
Lemma repeat_fuel (body : state -> list state) :
  (forall st e, In e (body st) -> suffixOf st e) ->
  forall f1 f2 min max st,
    min + length (snd st) < f1 -> min + length (snd st) < f2 ->
    repeat body f1 min max st = repeat body f2 min max st.
Proof.
  intro Hb. induction f1 as [|f1 IH]; intros f2 min max st H1 H2; [lia|].
  destruct f2 as [|f2]; [lia|].
  assert (Hagain :
    flat_map (fun st' : state =>
                if (min =? 0) && (length (snd st') =? length (snd st))
                then []
                else repeat body f1 (pred min) (option_map pred max) st')
             (body st)
    = flat_map (fun st' : state =>
                if (min =? 0) && (length (snd st') =? length (snd st))
                then []
                else repeat body f2 (pred min) (option_map pred max) st')
             (body st)).
  { apply flat_map_same. intros st' Hin.
    pose proof (suffixOf_length _ _ (Hb _ _ Hin)) as Hlen.
    destruct (min =? 0) eqn:Em; cbn [andb].
    - destruct (length (snd st') =? length (snd st)) eqn:El; [reflexivity|].
      apply Nat.eqb_eq in Em. apply Nat.eqb_neq in El.
      apply IH; unfold state, jsstring, char in *; lia.
    - apply Nat.eqb_neq in Em.
      apply IH; unfold state, jsstring, char in *; lia. }
  destruct max as [[|k]|]; cbn [repeat]; [reflexivity| |];
    (destruct (min =? 0); [f_equal|]; exact Hagain).
Qed.

Lemma ends_quant_fuel i min max a st extra :
  ends i (Quant min max a) st
  = repeat (ends i a) (S (min + length (snd st)) + extra) min max st.
Proof.
  cbn [ends]. apply repeat_fuel; [apply ends_suffix | |];
    unfold state, jsstring, char in *; lia.
Qed.

(** ** The code units a pattern can consume *)

Lemma spans_refl P st : spans P st st.
Proof. exists []. split; [reflexivity | constructor]. Qed.

Lemma spans_trans P a b c : spans P a b -> spans P b c -> spans P a c.
Proof.
  intros [m1 [H1 F1]] [m2 [H2 F2]]. exists (m1 ++ m2). split.
  - rewrite H1, H2, app_assoc. reflexivity.
  - apply Forall_app. auto.
Qed.

Lemma ends_spans i P r : alphabet i r P ->
  forall st e, In e (ends i r st) -> spans P st e.
Proof.
  induction r; intros A st e H.
  - apply ends_empty in H. subst. apply spans_refl.
  - apply ends_char in H. destruct H as [x [E [C _]]].
    exists [x]. split; [exact E|]. constructor; [apply A, C | constructor].
  - apply ends_class in H. destruct H as [x [E [C _]]].
    exists [x]. split; [exact E|]. constructor; [apply A, C | constructor].
  - apply ends_seq in H. destruct H as [mid [H1 H2]]. destruct A as [A1 A2].
    eapply spans_trans; eauto.
  - apply ends_disj in H. destruct A as [A1 A2]. destruct H; auto.
  - cbn [ends] in H. revert H.
    apply (@repeat_keeps (ends i r) (spans P)); auto using spans_refl.
    apply spans_trans.
  - cbn [ends] in H. destruct (fst st); [contradiction|].
    destruct H as [<-|[]]. apply spans_refl.
  - cbn [ends] in H.
    destruct (fst st) as [c|]; [destruct (inClass i items c); [contradiction|]|];
      destruct H as [<-|[]]; apply spans_refl.
  - cbn [ends] in H.
    destruct (snd st) as [|c t]; [|destruct (inClass i items c); [contradiction|]];
      destruct H as [<-|[]]; apply spans_refl.
Qed.

(** ** Searches *)

(** A successful search splits the subject around a match of the pattern. *)
Lemma search_sound rx : forall s0 prev p m a,
  search rx prev s0 = Some (p, m, a) ->
  s0 = p ++ m ++ a /\
  exists st e, In e (ends (ignoreCase rx) (pattern rx) st)
               /\ snd st = m ++ a /\ snd e = a.
Proof.
  induction s0 as [|c t IH]; intros prev p m a H; cbn [search] in H.
  - destruct (ends _ _ _) as [|e l] eqn:E;
      [discriminate|].
    injection H as <- <- <-.
    pose proof (in_eq e l) as Hin. rewrite <- E in Hin.
    pose proof (consumed_spec _ _ (ends_suffix _ _ _ _ Hin)) as Hc.
    split; [exact Hc|]. exists (prev, []), e. auto.
  - destruct (ends _ _ _) as [|e l] eqn:E.
    + destruct (search rx (Some c) t) as [[[p' m'] a']|] eqn:S; [|discriminate].
      injection H as <- <- <-. apply IH in S. destruct S as [-> S].
      split; [reflexivity | exact S].
    + injection H as <- <- <-.
      pose proof (in_eq e l) as Hin. rewrite <- E in Hin.
      pose proof (consumed_spec _ _ (ends_suffix _ _ _ _ Hin)) as Hc.
      split; [exact Hc|]. exists (prev, c :: t), e. auto.
Qed.

(** A search reports the leftmost match, and there the first one in the
    order of backtracking. *)
Lemma search_leftmost rx : forall s0 prev p m a,
  search rx prev s0 = Some (p, m, a) ->
  (exists e rest,
      ends (ignoreCase rx) (pattern rx) (lastOr prev p, m ++ a) = e :: rest
      /\ snd e = a)
  /\ (forall p1 p2, p = p1 ++ p2 -> p2 <> [] ->
        ends (ignoreCase rx) (pattern rx) (lastOr prev p1, p2 ++ m ++ a) = []).
Proof.
  induction s0 as [|c t IH]; intros prev p m a H;
    pose proof (search_sound rx _ _ _ _ _ H) as [Hs _]; cbn [search] in H.
  - destruct (ends _ _ _) as [|e l] eqn:E; [discriminate|].
    injection H as <- <- <-. cbn [app] in Hs. rewrite <- Hs. cbn [lastOr]. split.
    + exists e, l. split; [exact E | reflexivity].
    + intros p1 p2 Hp Hne. destruct p1; destruct p2; try discriminate.
      congruence.
  - destruct (ends _ _ _) as [|e l] eqn:E.
    + destruct (search rx (Some c) t) as [[[p' m'] a']|] eqn:S; [|discriminate].
      injection H as <- <- <-. destruct (IH _ _ _ _ S) as [Hfirst Hleft].
      split; [exact Hfirst|].
      intros p1 p2 Hp Hne. destruct p1 as [|x p1]; cbn [app] in Hp.
      * subst p2. cbn [lastOr]. rewrite <- Hs. exact E.
      * injection Hp as <- Hp. cbn [lastOr]. apply Hleft; assumption.
    + injection H as <- <- <-. cbn [lastOr]. cbn [app] in Hs. rewrite <- Hs. split.
      * exists e, l. split; [exact E | reflexivity].
      * intros p1 p2 Hp Hne. destruct p1; destruct p2; try discriminate.
        congruence.
Qed.

Lemma match0_sound rx s0 m :
  match0 s0 rx = Some m ->
  exists st e, In e (ends (ignoreCase rx) (pattern rx) st)
               /\ snd st = m ++ snd e.
Proof.
  unfold match0, exec. intro H.
  destruct (search rx None s0) as [[[p m'] a]|] eqn:S; [|discriminate].
  injection H as ->. apply search_sound in S.
  destruct S as [_ [st [e [H1 [H2 H3]]]]]. exists st, e. subst a. auto.
Qed.

Lemma match0_first s0 rx m :
  match0 s0 rx = Some m -> exists p a, firstMatch rx s0 p m a.
Proof.
  unfold match0, exec. intro H.
  destruct (search rx None s0) as [[[p m'] a]|] eqn:S; [|discriminate].
  injection H as ->. exists p, a. split; [apply (search_sound rx _ _ _ _ _ S)|].
  apply (search_leftmost rx _ _ _ _ _ S).
Qed.

(** Every element of a global match is a match of the pattern. *)
Lemma scan_sound rx : forall s0 skip prev m,
  In m (scan rx prev s0 skip) ->
  exists st e, In e (ends (ignoreCase rx) (pattern rx) st)
               /\ snd st = m ++ snd e.
Proof.
  induction s0 as [|c t IH]; intros skip prev m H.
  - destruct skip; cbn [scan] in H; [|contradiction].
    destruct (ends _ _ _) as [|e l] eqn:E;
      [contradiction|].
    destruct H as [<-|[]].
    pose proof (in_eq e l) as Hin. rewrite <- E in Hin.
    exists (prev, []), e. split; [exact Hin|].
    apply (consumed_spec _ _ (ends_suffix _ _ _ _ Hin)).
  - destruct skip; cbn [scan] in H; [|eapply IH, H].
    destruct (ends _ _ _) as [|e l] eqn:E;
      [eapply IH, H|].
    destruct H as [<-|H]; [|eapply IH, H].
    pose proof (in_eq e l) as Hin. rewrite <- E in Hin.
    exists (prev, c :: t), e. split; [exact Hin|].
    apply (consumed_spec _ _ (ends_suffix _ _ _ _ Hin)).
Qed.

Lemma matchAll_sound rx s0 ms m :
  matchAll s0 rx = Some ms -> In m ms ->
  exists st e, In e (ends (ignoreCase rx) (pattern rx) st)
               /\ snd st = m ++ snd e.
Proof.
  unfold matchAll. intros H Hin. apply scan_sound with (s0 := s0) (skip := 0) (prev := None).
  destruct (scan rx None s0 0); [discriminate|]. injection H as <-. exact Hin.
Qed.

(** ** Patterns of one code unit *)

Lemma singleUnit_class inv items :
  singleUnit {| pattern := Class inv items; ignoreCase := false |}
             (accepts false inv items).
Proof. intros [prev [|c t]]; reflexivity. Qed.

Lemma singleUnit_char a :
  singleUnit {| pattern := Char a; ignoreCase := false |} (fun c => (a =? c)%N).
Proof. intros [prev [|c t]]; reflexivity. Qed.

Lemma search_single rx f : singleUnit rx f ->
  forall s0 prev,
    match search rx prev s0 with Some _ => true | None => false end
    = existsb f s0.
Proof.
  intro Hs. induction s0 as [|c t IH]; intro prev; cbn [search existsb];
    rewrite Hs; cbn [snd].
  - reflexivity.
  - destruct (f c); [reflexivity|].
    cbn [orb]. rewrite <- (IH (Some c)).
    destruct (search rx (Some c) t) as [[[? ?] ?]|]; reflexivity.
Qed.

Lemma test_single rx f s0 : singleUnit rx f -> test rx s0 = existsb f s0.
Proof.
  intro Hs. unfold test, exec. apply (search_single rx f Hs s0 None).
Qed.

Lemma replaceScan_single rx f by_ : singleUnit rx f ->
  forall s0 prev,
    replaceScan rx by_ prev s0 0 = flat_map (fun c => if f c then by_ else [c]) s0.
Proof.
  intro Hs. induction s0 as [|c t IH]; intro prev; cbn [replaceScan flat_map];
    rewrite Hs; cbn [snd].
  - reflexivity.
  - destruct (f c).
    + unfold consumed. cbn [snd length].
      replace (S (length t) - length t) with 1 by lia.
      cbn [firstn length Nat.eqb pred app]. rewrite IH. reflexivity.
    + rewrite IH. reflexivity.
Qed.

Lemma replaceAll_single rx f by_ s0 : singleUnit rx f ->
  replaceAll s0 rx by_ = flat_map (fun c => if f c then by_ else [c]) s0.
Proof. intro Hs. apply replaceScan_single, Hs. Qed.

(** ** trim *)

Lemma trimStart_keeps pre c tail :
  isSpace c = false ->
  exists pre', trimStart (pre ++ c :: tail) = pre' ++ c :: tail.
Proof.
  intro Hc. induction pre as [|x pre IH]; simpl.
  - rewrite Hc. exists []. reflexivity.
  - destruct (isSpace x); [exact IH|]. exists (x :: pre). reflexivity.
Qed.

Lemma trimEnd_last m c : isSpace c = false -> trimEnd (m ++ [c]) = m ++ [c].
Proof.
  intro Hc. unfold trimEnd. rewrite rev_app_distr. simpl. rewrite Hc.
  simpl. rewrite rev_involutive. reflexivity.
Qed.



Lemma digit_not_space c : isDigit c = true -> isSpace c = false.
Proof.
  unfold isDigit, isSpace, between. intro H.
  apply andb_true_iff in H. destruct H as [H1 H2].
  apply N.leb_le in H1. apply N.leb_le in H2.
  repeat (apply orb_false_iff; split);
    try (apply N.eqb_neq; lia);
    apply andb_false_iff; rewrite !N.leb_gt; lia.
Qed.

(** Trimming keeps a tail that starts with a digit and ends with one. *)
Lemma trim_keeps pre c m d2 :
  isDigit c = true -> isDigit d2 = true ->
  exists pre', trim (pre ++ c :: m ++ [d2]) = pre' ++ c :: m ++ [d2].
Proof.
  intros Hc Hd. unfold trim.
  destruct (@trimStart_keeps pre c (m ++ [d2]) (digit_not_space _ Hc)) as [pre' E].
  exists pre'. rewrite E.
  replace (pre' ++ c :: m ++ [d2]) with ((pre' ++ c :: m) ++ [d2])
    by (rewrite <- app_assoc; reflexivity).
  apply trimEnd_last, digit_not_space, Hd.
Qed.

Lemma trimStart_blank s0 : Forall (fun c => isSpace c = true) s0 -> trimStart s0 = [].
Proof.
  induction 1 as [|c t Hc _ IH]; simpl; [reflexivity|]. rewrite Hc. exact IH.
Qed.

Lemma trim_blank s0 : Forall (fun c => isSpace c = true) s0 -> trim s0 = [].
Proof. intro H. unfold trim. rewrite (trimStart_blank _ H). reflexivity. Qed.

(** ** Shapes of amounts *)

Lemma accepts_digit09 c : accepts false false [Range (cu "0") (cu "9")] c = isDigit c.
Proof.
  unfold accepts, inClass, inItem, isDigit. simpl.
  rewrite !orb_false_r. reflexivity.
Qed.

(** The shape of a match of [amount]: a digit first, and a point and two
    digits last. *)
Lemma ends_amount st e :
  In e (ends false amount st) ->
  exists c m d1 d2,
    snd st = c :: m ++ [DOT; d1; d2] ++ snd e
    /\ isDigit c = true /\ isDigit d1 = true /\ isDigit d2 = true.
Proof.
  unfold amount, alts, seqs, plus. cbn [fold_right]. intro H.
  apply ends_disj in H. destruct H as [H|H].
  - apply ends_seq in H. destruct H as [m1 [H1 H]].
    apply ends_seq in H. destruct H as [m2 [H2 H]].
    apply ends_seq in H. destruct H as [m3 [H3 H]].
    apply ends_empty in H. subst m3.
    apply ends_some in H1; [|discriminate]. destruct H1 as [c [x [E1 A1]]].
    apply ends_suffix in H2. destruct H2 as [y E2].
    apply ends_seq in H3. destruct H3 as [m4 [H3 H4]].
    apply ends_char in H3. destruct H3 as [p [E3 [C3 _]]].
    apply ends_two in H4. destruct H4 as [d1 [d2 [E4 [A4 A5]]]].
    rewrite accepts_digit09 in *. rewrite !canon_false in C3. subst p.
    exists c, (x ++ y), d1, d2. rewrite E1, E2, E3, E4.
    rewrite <- app_assoc. auto.
  - apply ends_seq in H. destruct H as [m1 [H1 H]].
    apply ends_seq in H. destruct H as [m2 [H2 H]].
    apply ends_seq in H. destruct H as [m3 [H3 H]].
    apply ends_empty in H. subst m3.
    apply ends_some in H1; [|discriminate]. destruct H1 as [c [x [E1 A1]]].
    apply ends_char in H2. destruct H2 as [p [E2 [C2 _]]].
    apply ends_two in H3. destruct H3 as [d1 [d2 [E4 [A4 A5]]]].
    rewrite accepts_digit09 in *. rewrite !canon_false in C2. subst p.
    exists c, x, d1, d2. rewrite E1, E2, E4. auto.
Qed.

Lemma amountShaped_cents t : amountShaped t -> endsWithCents t.
Proof.
  intros [c [m [d1 [d2 [-> [_ [H1 H2]]]]]]]. exists (c :: m), d1, d2. auto.
Qed.

Lemma amount_match_shaped st e m :
  In e (ends false amount st) -> snd st = m ++ snd e -> amountShaped m.
Proof.
  intros H E. apply ends_amount in H.
  destruct H as [c [x [d1 [d2 [E' [Hc [H1 H2]]]]]]].
  exists c, x, d1, d2. repeat split; auto.
  rewrite E' in E.
  assert (X : c :: x ++ [DOT; d1; d2] ++ snd e = (c :: x ++ [DOT; d1; d2]) ++ snd e)
    by (simpl; rewrite <- app_assoc; reflexivity).
  rewrite X in E. apply app_inv_tail in E. auto.
Qed.

Lemma amountsOf_shaped lines c : In c (amountsOf lines) -> amountShaped c.
Proof.
  unfold amountsOf. intro H. apply in_flat_map_inv in H.
  destruct H as [l [_ H]].
  destruct (matchAll l amountG) as [ms|] eqn:M; [|contradiction].
  destruct (matchAll_sound _ _ _ _ M H) as [st [e [H1 H2]]].
  eapply amount_match_shaped; eauto.
Qed.

(** ** The total found on a keyword line *)

Lemma search_leadingJunk_inside : forall s0 c, search leadingJunk (Some c) s0 = None.
Proof.
  induction s0 as [|x t IH]; intro c; cbn [search]; [reflexivity|].
  rewrite IH. reflexivity.
Qed.

(** Removing the leading junk removes a prefix without a digit. *)
Lemma replace_leadingJunk m1 :
  exists j t, m1 = j ++ t /\ replace m1 leadingJunk [] = t
              /\ Forall (fun c => isDigit c = false) j.
Proof.
  unfold replace, exec.
  destruct (search leadingJunk None m1) as [[[p m] a]|] eqn:S.
  - destruct m1 as [|x t]; cbn [search] in S.
    + discriminate.
    + destruct (ends _ _ _) as [|e l] eqn:E;
        [rewrite search_leadingJunk_inside in S; discriminate|].
      injection S as <- <- <-.
      pose proof (in_eq e l) as Hin. rewrite <- E in Hin.
      apply (@ends_spans false (fun c => isDigit c = false)) in Hin.
      * destruct Hin as [m [Hm F]]. exists m, (snd e). simpl in Hm. auto.
      * simpl. split; [exact I|]. intros c A.
        unfold accepts, inClass, inItem in A. simpl in A.
        unfold isDigit. destruct (between 48 57 c); [discriminate|reflexivity].
  - exists [], m1. repeat split. constructor.
Qed.

Lemma prefix_before_digit (j t pre tail : jsstring) c :
  j ++ t = pre ++ c :: tail ->
  Forall (fun x => isDigit x = false) j -> isDigit c = true ->
  exists pre', t = pre' ++ c :: tail.
Proof.
  revert pre. induction j as [|x j IH]; intros pre E F Hc.
  - exists pre. exact E.
  - inversion F as [|? ? Hx F']; subst.
    destruct pre as [|y pre]; simpl in E; injection E as -> E.
    + congruence.
    + eapply IH; eauto.
Qed.

(** The total taken from a currency-anchored match still holds the whole
    amount. *)
Lemma currency_total_shape l m1 :
  match0 l currencyAmount = Some m1 ->
  endsWithCents (trim (replace m1 leadingJunk [])).
Proof.
  intro H. apply match0_sound in H. destruct H as [st [e [H E]]].
  unfold currencyAmount, seqs in H. cbn [fold_right pattern ignoreCase] in H.
  apply ends_seq in H. destruct H as [m2 [H2 H]].
  apply ends_seq in H. destruct H as [m3 [H3 H]].
  apply ends_seq in H. destruct H as [m4 [H4 H]].
  apply ends_empty in H. subst m4.
  apply ends_suffix in H2. destruct H2 as [x Ex].
  apply ends_suffix in H3. destruct H3 as [y Ey].
  apply ends_amount in H4. destruct H4 as [c [z [d1 [d2 [Ez [Hc [H1 Hd]]]]]]].
  assert (Em : m1 = (x ++ y) ++ c :: z ++ [DOT; d1; d2]).
  { rewrite Ex, Ey, Ez in E. apply (app_inv_tail (snd e)).
    rewrite <- E. repeat (rewrite <- app_assoc; simpl). reflexivity. }
  destruct (replace_leadingJunk m1) as [j [t [Ej [-> F]]]].
  rewrite Em in Ej. symmetry in Ej.
  destruct (@prefix_before_digit j t (x ++ y) (z ++ [DOT; d1; d2]) c Ej F Hc)
    as [pre' ->].
  replace (z ++ [DOT; d1; d2]) with ((z ++ [DOT; d1]) ++ [d2])
    by (rewrite <- app_assoc; reflexivity).
  destruct (@trim_keeps pre' c (z ++ [DOT; d1]) d2 Hc Hd) as [p' ->].
  exists (p' ++ c :: z), d1, d2. repeat split; auto.
  repeat (rewrite <- app_assoc; simpl). reflexivity.
Qed.

Lemma bare_total_shape l m2 :
  match0 l amountOnly = Some m2 -> amountShaped m2.
Proof.
  intro H. apply match0_sound in H. destruct H as [st [e [H E]]].
  unfold amountOnly, seqs in H. cbn [fold_right pattern ignoreCase] in H.
  apply ends_seq in H. destruct H as [m1 [H1 H]].
  apply ends_seq in H. destruct H as [m3 [H3 H]].
  apply ends_seq in H. destruct H as [m4 [H4 H]].
  apply ends_empty in H. subst m4.
  assert (m1 = st).
  { cbn [ends] in H1. destruct (fst st) as [c|];
      [destruct (inClass false letters c); [contradiction|]|];
      destruct H1 as [<-|[]]; reflexivity. }
  assert (e = m3).
  { cbn [ends] in H4. destruct (snd m3) as [|c ?];
      [|destruct (inClass false letters c); [contradiction|]];
      destruct H4 as [<-|[]]; reflexivity. }
  subst. eapply amount_match_shaped; eauto.
Qed.

Lemma totalLoop_shape lines : forall n t,
  totalLoop lines n = Normal t -> t = [] \/ endsWithCents t.
Proof.
  induction n as [|i IH]; intros t H; cbn [totalLoop] in H.
  - injection H as <-. left. reflexivity.
  - destruct (test totalKeyword (toString (nth_error lines i))); [|auto].
    destruct (nth_error lines i) as [l|]; [|discriminate].
    destruct (match0 l currencyAmount) as [m1|] eqn:M1.
    + injection H as <-. right. eapply currency_total_shape, M1.
    + destruct (match0 l amountOnly) as [m2|] eqn:M2; [|auto].
      injection H as <-. right. eapply amountShaped_cents, bare_total_shape, M2.
Qed.

Lemma yields_not_empty l a : yields l a -> a <> [].
Proof.
  intros [_ [[m1 [H1 ->]]|[_ H2]]].
  - apply currency_total_shape in H1. destruct H1 as [m [d1 [d2 [-> _]]]].
    destruct m; discriminate.
  - apply bare_total_shape in H2. destruct H2 as [c [m [d1 [d2 [-> _]]]]].
    discriminate.
Qed.

(** ** The keyword scan, from the last line up *)

Lemma totalLoop_app l1 l2 : forall n,
  n <= length l1 -> totalLoop (l1 ++ l2) n = totalLoop l1 n.
Proof.
  induction n as [|i IH]; intro Hn; cbn [totalLoop]; [reflexivity|].
  rewrite nth_error_app1 by lia. rewrite IH by lia. reflexivity.
Qed.

Lemma totalLoop_last_skipped l1 x :
  yieldsNothing x ->
  totalLoop (l1 ++ [x]) (S (length l1)) = totalLoop l1 (length l1).
Proof.
  intro H. cbn [totalLoop].
  rewrite nth_error_app2, Nat.sub_diag by lia. cbn [nth_error toString].
  rewrite (totalLoop_app l1 [x] (length l1) (le_n _)).
  destruct H as [H|[H1 H2]].
  - rewrite H. reflexivity.
  - rewrite H1, H2. destruct (test totalKeyword x); reflexivity.
Qed.

Lemma totalLoop_last_yields l1 l a :
  yields l a -> totalLoop (l1 ++ [l]) (S (length l1)) = Normal a.
Proof.
  intros [Hk H]. cbn [totalLoop].
  rewrite nth_error_app2, Nat.sub_diag by lia. cbn [nth_error toString].
  rewrite Hk. destruct H as [[m1 [H1 ->]]|[H1 H2]].
  - rewrite H1. reflexivity.
  - rewrite H1, H2. reflexivity.
Qed.

Lemma totalLoop_bottom_up above l a : forall below,
  yields l a -> Forall yieldsNothing below ->
  totalLoop (above ++ l :: below) (length (above ++ l :: below)) = Normal a.
Proof.
  intros below Hy. induction below as [|x b IH] using rev_ind; intro Hb.
  - rewrite length_app, Nat.add_comm. cbn [length Nat.add].
    apply totalLoop_last_yields, Hy.
  - apply Forall_app in Hb. destruct Hb as [Hb Hx].
    inversion Hx as [|? ? Hx' _]; subst.
    replace (above ++ l :: b ++ [x]) with ((above ++ l :: b) ++ [x])
      by (rewrite <- app_assoc; reflexivity).
    rewrite length_app, Nat.add_comm. cbn [length Nat.add].
    rewrite totalLoop_last_skipped by exact Hx'. apply IH, Hb.
Qed.

(** The keyword scan leaves the total empty when no line gives one. *)
Lemma totalLoop_nothing lines :
  Forall yieldsNothing lines -> totalLoop lines (length lines) = Normal [].
Proof.
  induction lines as [|x b IH] using rev_ind; intro H; [reflexivity|].
  apply Forall_app in H. destruct H as [Hb Hx].
  inversion Hx as [|? ? Hx' _]; subst.
  rewrite length_app, Nat.add_comm. cbn [length Nat.add].
  rewrite totalLoop_last_skipped by exact Hx'. apply IH, Hb.
Qed.

(** ** Comparisons of Numbers *)

Lemma gt_key a b :
  isNaN a = false -> isNaN b = false -> gt a b = (key b <? key a)%Z.
Proof.
  unfold gt, lt, key.
  destruct a as [|ka|[|]], b as [|kb|[|]]; simpl; intros; try discriminate;
    reflexivity.
Qed.

Lemma gt_NaN_l b : gt NaN b = false.
Proof. unfold gt, lt. destruct (ext b); reflexivity. Qed.






(** ** The fallback scan *)

Lemma maxLine_fold lines : forall acc,
  fold_left maxLine lines acc = fold_left maxStep (amountsOf lines) acc.
Proof.
  induction lines as [|l ls IH]; intro acc; [reflexivity|].
  unfold amountsOf. cbn [fold_left flat_map]. fold (amountsOf ls).
  rewrite fold_left_app, IH. unfold maxLine.
  destruct (matchAll l amountG); reflexivity.
Qed.

Lemma maxStep_fold cands : forall v0 s0,
  isNaN v0 = false ->
  let r := fold_left maxStep cands (v0, s0) in
  isNaN (fst r) = false
  /\ gt v0 (fst r) = false
  /\ (forall c, In c cands -> gt (valueOf c) (fst r) = false)
  /\ (r = (v0, s0)
      \/ (In (snd r) cands /\ fst r = valueOf (snd r) /\ gt (fst r) v0 = true)).
Proof.
  induction cands as [|c cs IH]; intros v0 s0 N0; cbn zeta.
  - simpl. repeat split; auto.
    + rewrite gt_key by assumption. apply Z.ltb_irrefl.
    + intros c [].
  - cbn [fold_left].
    assert (Hstep : maxStep (v0, s0) c =
                    if negb (isNaN (valueOf c)) && gt (valueOf c) v0
                    then (valueOf c, c) else (v0, s0)) by reflexivity.
    rewrite Hstep. clear Hstep.
    destruct (negb (isNaN (valueOf c)) && gt (valueOf c) v0) eqn:U.
    + apply andb_true_iff in U. destruct U as [Nc G].
      apply negb_true_iff in Nc.
      destruct (IH (valueOf c) c Nc) as [N1 [G1 [A1 D1]]].
      set (r := fold_left maxStep cs (valueOf c, c)) in *.
      rewrite gt_key in G, G1 by assumption.
      apply Z.ltb_lt in G. apply Z.ltb_ge in G1.
      split; [exact N1|]. split; [|split].
      * rewrite gt_key by assumption. apply Z.ltb_ge. lia.
      * intros c' [<-|Hin]; [|auto]. rewrite gt_key by assumption.
        apply Z.ltb_ge. lia.
      * right. destruct D1 as [D1|[Hin [Ev G2]]].
        { rewrite D1. simpl. repeat split; auto. rewrite gt_key by assumption.
          apply Z.ltb_lt. lia. }
        { split; [right; exact Hin|]. split; [exact Ev|].
          rewrite gt_key in G2 |- * by assumption.
          apply Z.ltb_lt. apply Z.ltb_lt in G2. lia. }
    + destruct (IH v0 s0 N0) as [N1 [G1 [A1 D1]]].
      set (r := fold_left maxStep cs (v0, s0)) in *.
      split; [exact N1|]. split; [exact G1|]. split.
      * intros c' [<-|Hin]; [|auto].
        destruct (isNaN (valueOf c)) eqn:Nc.
        { destruct (valueOf c); try discriminate. apply gt_NaN_l. }
        simpl in U. rewrite gt_key in U, G1 |- * by assumption.
        apply Z.ltb_ge. apply Z.ltb_ge in U, G1. lia.
      * destruct D1 as [D1|[Hin [Ev G2]]]; [left; exact D1|].
        right. split; [right; exact Hin|]. auto.
Qed.



Lemma maxTotal_shape lines : maxTotal lines = [] \/ amountShaped (maxTotal lines).
Proof.
  unfold maxTotal. rewrite maxLine_fold.
  pose proof (@maxStep_fold (amountsOf lines) minusOne [] eq_refl) as P.
  cbn zeta in P.
  destruct (fold_left maxStep (amountsOf lines) _) as [maxVal maxStr].
  destruct P as [_ [_ [_ D1]]].
  cbn [fst snd] in *. destruct (gt maxVal zero); [|left; reflexivity].
  destruct D1 as [D1|[Hm _]].
  - injection D1 as -> ->. left. reflexivity.
  - right. eapply amountsOf_shaped, Hm.
Qed.

(** ** The loops stay inside the array *)

Lemma totalLoop_normal lines : forall n,
  n <= length lines -> exists t, totalLoop lines n = Normal t.
Proof.
  induction n as [|i IH]; intro Hn; cbn [totalLoop].
  - eexists. reflexivity.
  - destruct (nth_error lines i) as [l|] eqn:E.
    + destruct (test totalKeyword (toString (Some l))); [|apply IH; lia].
      destruct (match0 l currencyAmount); [eexists; reflexivity|].
      destruct (match0 l amountOnly); [eexists; reflexivity|].
      apply IH. lia.
    + apply nth_error_None in E. lia.
Qed.

Lemma merchantLoop_normal lines : forall k i found,
  i + k <= length lines -> exists m, merchantLoop lines i k found = Normal m.
Proof.
  induction k as [|k IH]; intros i found Hk; cbn [merchantLoop].
  - eexists. reflexivity.
  - destruct (nth_error lines i) as [l|] eqn:E.
    + assert (Hnext : forall f, exists m, merchantLoop lines (S i) k f = Normal m)
        by (intro f; apply IH; lia).
      destruct (lt _ _); [apply Hnext|].
      destruct (test skipKeywords l); [apply Hnext|].
      destruct (length l <? 2); [apply Hnext|].
      destruct (truthy _); [eexists; reflexivity | apply Hnext].
    + apply nth_error_None in E. lia.
Qed.

(** parseReceiptText returns, and its fields are those of the three scans. *)
Lemma parse_normal text :
  exists t m,
    totalLoop (linesOf text) (length (linesOf text)) = Normal t
    /\ merchantLoop (linesOf text) 0 (Nat.min (length (linesOf text)) 12) [] = Normal m
    /\ parseReceiptText text =
       Normal {| date := dateLoop datePatterns (join (linesOf text) separator);
                 merchant := m;
                 total := if truthy t then t else maxTotal (linesOf text);
                 raw := text |}.
Proof.
  destruct (@totalLoop_normal (linesOf text) (length (linesOf text)) (le_n _)) as [t Ht].
  destruct (@merchantLoop_normal (linesOf text) (Nat.min (length (linesOf text)) 12) 0 [])
    as [m Hm]; [lia|].
  exists t, m. split; [exact Ht|]. split; [exact Hm|].
  unfold parseReceiptText. rewrite Ht. cbn [bind]. rewrite Hm. reflexivity.
Qed.

(** ** Blank input *)

Lemma splitLoop_pieces (P : char -> Prop) rx : forall s0 prev skip cur,
  Forall P s0 -> Forall P cur ->
  Forall (Forall P) (splitLoop rx prev s0 skip cur).
Proof.
  induction s0 as [|c t IH]; intros prev skip cur Hs Hcur; cbn [splitLoop].
  - constructor; [apply Forall_rev, Hcur | constructor].
  - inversion Hs as [|? ? Hc Ht]; subst.
    destruct skip; [|apply IH; auto].
    destruct (ends _ _ _) as [|e l]; [apply IH; auto|].
    destruct (length _).
    + destruct cur; [apply IH; auto|].
      constructor; [apply Forall_rev, Hcur | apply IH; auto].
    + constructor; [apply Forall_rev, Hcur | apply IH; auto].
Qed.

Lemma split_pieces (P : char -> Prop) rx s0 :
  Forall P s0 -> Forall (Forall P) (split s0 rx).
Proof.
  intro H. unfold split. destruct s0 as [|c t].
  - destruct (ends _ _ _); repeat constructor.
  - apply splitLoop_pieces; auto.
Qed.

Lemma linesOf_blank text :
  Forall (fun c => isSpace c = true) text -> linesOf text = [].
Proof.
  intro H. unfold linesOf.
  pose proof (split_pieces _ lineBreak _ H) as Hp.
  induction Hp as [|p ps Hp _ IH]; [reflexivity|].
  cbn [map filter]. rewrite (trim_blank _ Hp). exact IH.
Qed.

(** ** The loop over the date patterns *)

(** The loop over the patterns returns the match of the first pattern, in
    the order of the list, that matches. *)
Lemma dateLoop_first fullText : forall patterns i rx m,
  nth_error patterns i = Some rx ->
  match0 fullText rx = Some m ->
  (forall j rx', j < i -> nth_error patterns j = Some rx' ->
                 match0 fullText rx' = None) ->
  dateLoop patterns fullText = m.
Proof.
  induction patterns as [|p ps IH]; intros i rx m Hi Hm Hbefore.
  - destruct i; discriminate.
  - cbn [dateLoop]. destruct i as [|i].
    + injection Hi as ->. rewrite Hm. reflexivity.
    + rewrite (Hbefore 0 p) by (try lia; reflexivity).
      apply (IH i rx m Hi Hm). intros j rx' Hj Hn.
      apply (Hbefore (S j) rx'); [lia | exact Hn].
Qed.

Lemma dateLoop_none fullText : forall patterns,
  (forall rx, In rx patterns -> match0 fullText rx = None) ->
  dateLoop patterns fullText = [].
Proof.
  induction patterns as [|p ps IH]; intro H; cbn [dateLoop]; [reflexivity|].
  rewrite (H p) by (left; reflexivity). apply IH. intros rx Hin.
  apply H. right. exact Hin.
Qed.

Lemma dateLoop_match fullText : forall patterns,
  dateLoop patterns fullText = []
  \/ exists rx, In rx patterns
                /\ match0 fullText rx = Some (dateLoop patterns fullText).
Proof.
  induction patterns as [|p ps IH]; cbn [dateLoop]; [left; reflexivity|].
  destruct (match0 fullText p) as [m0|] eqn:M.
  - right. exists p. split; [left; reflexivity | exact M].
  - destruct IH as [IH|[rx [Hin Hm]]]; [left; exact IH|].
    right. exists rx. split; [right; exact Hin | exact Hm].
Qed.

Lemma separator_backslash : In BACKSLASH separator.
Proof. right. left. reflexivity. Qed.

Lemma datePatterns_alphabet rx :
  In rx datePatterns ->
  alphabet (ignoreCase rx) (pattern rx) (fun c => c <> BACKSLASH).
Proof.
  intros [<-|[<-|[<-|[<-|[]]]]]; alphabet_without.
Qed.

(** The date never holds a backslash, so it never holds the separator of
    two lines: every date found lies inside one line. *)
Lemma date_without_backslash (text : jsstring) (r : ExtractionResult) :
  parseReceiptText text = Normal r -> ~ In BACKSLASH (date r).
Proof.
  intro H. destruct (parse_normal text) as [t [m0 [Ht [Hm Hp]]]].
  assert (Hd : date r = dateLoop datePatterns (join (linesOf text) separator))
    by (rewrite Hp in H; injection H as <-; reflexivity).
  rewrite Hd. clear Hd.
  destruct (dateLoop_match (join (linesOf text) separator) datePatterns)
    as [->|[rx [Hin Hmatch]]]; [intros []|].
  apply match0_sound in Hmatch. destruct Hmatch as [st [e [He Hs]]].
  apply (ends_spans _ _ _ (datePatterns_alphabet rx Hin)) in He.
  destruct He as [m [Hs' F]]. rewrite Hs' in Hs. apply app_inv_tail in Hs.
  rewrite <- Hs. intro Hb. rewrite Forall_forall in F.
  exact (F _ Hb eq_refl).
Qed.

(** In 2024, written with slashes: every day above 12 that does not end
    in 0 loses its first digit, for every month; the days 20 and 30 are
    found whole by the third pattern, because no month starts with 0
    alone. *)
Lemma day_first_dates_2024 :
  (forall dd mm, In dd daysAbove12 -> In mm monthsWritten ->
     dateOf (dd ++ str "/" ++ mm ++ str "/2024")
     = tl (dd ++ str "/" ++ mm ++ str "/2024"))
  /\ dateOf (str "20/12/2024") = str "20/12/2024"
  /\ dateOf (str "30/12/2024") = str "30/12/2024".
Proof.
  split; [|split; vm_compute; reflexivity].
  assert (H : forallb (fun dd => forallb (fun mm =>
                eqs (dateOf (dd ++ str "/" ++ mm ++ str "/2024"))
                    (tl (dd ++ str "/" ++ mm ++ str "/2024")))
              monthsWritten) daysAbove12 = true) by (vm_compute; reflexivity).
  intros dd mm Hd Hm. rewrite forallb_forall in H.
  pose proof (H dd Hd) as H'. rewrite forallb_forall in H'.
  pose proof (H' mm Hm) as E. unfold eqs in E.
  destruct (list_eq_dec N.eq_dec _ _) as [E'|]; [exact E' | discriminate].
Qed.

(** ** Reading back what escapeCsv writes *)

Lemma test_csvSpecial v : test csvSpecial v = existsb isCsvSpecial v.
Proof.
  rewrite (test_single csvSpecial _ v (singleUnit_class false _)).
  apply existsb_same. intro c. unfold accepts, inClass, inItem, isCsvSpecial.
  cbn [existsb xorb]. rewrite !canon_false, orb_false_r.
  rewrite (N.eqb_sym DQUOTE), (N.eqb_sym COMMA), (N.eqb_sym LF), orb_assoc.
  reflexivity.
Qed.

Lemma replaceAll_quoteG v :
  replaceAll v quoteG [DQUOTE; DQUOTE] = doubleQuotes v.
Proof.
  rewrite (replaceAll_single quoteG _ _ v (singleUnit_char DQUOTE)).
  unfold doubleQuotes. apply flat_map_ext. intro c.
  rewrite (N.eqb_sym DQUOTE). reflexivity.
Qed.

Lemma csvRead_plain_end mode cur rest :
  mode = Unquoted \/ mode = QuoteSeen \/ mode = FieldStart ->
  fieldEnd rest -> csvRead mode cur rest = closeField (rev cur) rest.
Proof.
  intros Hm He. destruct rest as [|c t]; [reflexivity|].
  cbn [csvRead closeField].
  assert (Hq : (c =? DQUOTE)%N = false)
    by (destruct He as [->| ->]; reflexivity).
  assert (Hp : (if (c =? COMMA)%N
                then consField (rev cur) (csvRead FieldStart [] t)
                else if (c =? LF)%N then [rev cur] :: csvRead FieldStart [] t
                     else if (c =? CR)%N then [rev cur] :: csvRead AfterCR [] t
                          else csvRead Unquoted (c :: cur) t)
               = if (c =? COMMA)%N then consField (rev cur) (csvParse t)
                 else [rev cur] :: csvParse t).
  { destruct He as [->| ->]; reflexivity. }
  destruct Hm as [->|[->| ->]]; rewrite ?Hq; exact Hp.
Qed.

Lemma not_special c :
  isCsvSpecial c = false ->
  (c =? DQUOTE)%N = false /\ (c =? COMMA)%N = false /\ (c =? LF)%N = false.
Proof.
  unfold isCsvSpecial. intro H. apply orb_false_iff in H. destruct H as [H Hl].
  apply orb_false_iff in H. destruct H as [Hq Hc]. auto.
Qed.

(** An unquoted field without a carriage return is read to its end. *)
Lemma csvRead_unquoted v : forall cur rest,
  existsb isCsvSpecial v = false -> ~ In CR v ->
  csvRead Unquoted cur (v ++ rest) = csvRead Unquoted (rev v ++ cur) rest.
Proof.
  induction v as [|c t IH]; intros cur rest H Hr; [reflexivity|].
  cbn [existsb] in H. apply orb_false_iff in H. destruct H as [Hc Ht].
  apply not_special in Hc. destruct Hc as (Hq & Hc & Hl).
  assert (Hn : (c =? CR)%N = false).
  { apply N.eqb_neq. intros ->. apply Hr. left. reflexivity. }
  cbn [app csvRead]. rewrite Hc, Hl, Hn.
  rewrite IH; [|exact Ht|intro Hi; apply Hr; right; exact Hi].
  cbn [rev]. rewrite <- app_assoc. reflexivity.
Qed.

(** An unquoted field is read up to its first carriage return, where the
    record ends. *)
Lemma csvRead_unquoted_cr v : forall cur rest,
  existsb isCsvSpecial v = false -> ~ In CR v ->
  csvRead Unquoted cur (v ++ CR :: rest)
  = [rev cur ++ v] :: csvRead AfterCR [] rest.
Proof.
  intros cur rest H Hr. rewrite csvRead_unquoted by assumption.
  cbn [csvRead]. change (CR =? COMMA)%N with false.
  change (CR =? LF)%N with false. change (CR =? CR)%N with true.
  cbv iota. rewrite rev_app_distr, rev_involutive. reflexivity.
Qed.

Lemma csvRead_start_unquoted c t cur :
  (c =? DQUOTE)%N = false ->
  csvRead FieldStart cur (c :: t) = csvRead Unquoted cur (c :: t).
Proof. intro E. cbn [csvRead]. rewrite E. reflexivity. Qed.

Lemma csvRead_quoted_pair cur t :
  csvRead Quoted cur (DQUOTE :: DQUOTE :: t) = csvRead Quoted (DQUOTE :: cur) t.
Proof. reflexivity. Qed.

Lemma csvRead_quoted_close cur t :
  csvRead Quoted cur (DQUOTE :: t) = csvRead QuoteSeen cur t.
Proof. reflexivity. Qed.

Lemma csvRead_quoted_other cur c t :
  (c =? DQUOTE)%N = false ->
  csvRead Quoted cur (c :: t) = csvRead Quoted (c :: cur) t.
Proof. intro E. cbn [csvRead]. rewrite E. reflexivity. Qed.

Lemma csvRead_quoted v : forall cur rest,
  csvRead Quoted cur (doubleQuotes v ++ DQUOTE :: rest)
  = csvRead QuoteSeen (rev v ++ cur) rest.
Proof.
  induction v as [|c t IH]; intros cur rest.
  - apply csvRead_quoted_close.
  - unfold doubleQuotes. cbn [flat_map]. fold (doubleQuotes t).
    cbn [rev]. rewrite <- (app_assoc (rev t) [c] cur). cbn [app].
    destruct (c =? DQUOTE)%N eqn:E.
    + apply N.eqb_eq in E. subst c. cbn [app].
      rewrite csvRead_quoted_pair. apply IH.
    + cbn [app]. rewrite csvRead_quoted_other by exact E. apply IH.
Qed.

Lemma escapeCsv_spec v : escapeCsv (Str v) = quoteWhen isCsvSpecial v.
Proof.
  unfold escapeCsv, quoteWhen. cbn [stringOrEmpty].
  rewrite test_csvSpecial, replaceAll_quoteG. reflexivity.
Qed.

(** Reading a field in double quotes gives the field back, whatever it
    holds and whatever follows it. *)
Lemma csvRead_wrapped v rest :
  fieldEnd rest ->
  csvRead FieldStart [] ([DQUOTE] ++ doubleQuotes v ++ [DQUOTE] ++ rest)
  = closeField v rest.
Proof.
  intro He. cbn [app].
  change (csvRead FieldStart [] (DQUOTE :: ?x)) with (csvRead Quoted [] x).
  rewrite csvRead_quoted, app_nil_r.
  rewrite csvRead_plain_end by auto. rewrite rev_involutive. reflexivity.
Qed.

(** Reading a field written as it is gives the field back when it holds
    none of the code units that end a field or a record. *)
Lemma csvRead_bare v rest :
  existsb isCsvSpecial v = false -> ~ In CR v -> fieldEnd rest ->
  csvRead FieldStart [] (v ++ rest) = closeField v rest.
Proof.
  intros S Hr He. destruct v as [|c t].
  - cbn [app]. rewrite csvRead_plain_end by auto. reflexivity.
  - assert (Hq : (c =? DQUOTE)%N = false).
    { cbn [existsb] in S. apply orb_false_iff in S. destruct S as [Hc _].
      apply not_special in Hc. apply Hc. }
    cbn [app]. rewrite csvRead_start_unquoted by exact Hq.
    change (c :: t ++ rest) with ((c :: t) ++ rest).
    rewrite csvRead_unquoted by assumption. rewrite app_nil_r.
    rewrite csvRead_plain_end by auto. rewrite rev_involutive. reflexivity.
Qed.

(** Reading an escaped field gives the field back, whatever follows it,
    when escapeCsv has quoted it or it holds no carriage return. *)
Lemma csvRead_escaped v rest :
  readBack v -> fieldEnd rest ->
  csvRead FieldStart [] (escapeCsv (Str v) ++ rest) = closeField v rest.
Proof.
  intros Hv He. rewrite escapeCsv_spec. unfold quoteWhen.
  destruct (existsb isCsvSpecial v) eqn:S.
  - rewrite <- !app_assoc. apply csvRead_wrapped. exact He.
  - destruct Hv as [Hv|Hv]; [congruence|]. apply csvRead_bare; assumption.
Qed.

Lemma csvParse_field_comma v rest :
  readBack v ->
  csvParse (escapeCsv (Str v) ++ COMMA :: rest) = consField v (csvParse rest).
Proof.
  intro Hv. unfold csvParse at 1.
  rewrite csvRead_escaped by first [exact Hv | left; reflexivity].
  reflexivity.
Qed.

Lemma csvParse_field_line v rest :
  readBack v ->
  csvParse (escapeCsv (Str v) ++ LF :: rest) = [v] :: csvParse rest.
Proof.
  intro Hv. unfold csvParse at 1.
  rewrite csvRead_escaped by first [exact Hv | right; reflexivity].
  reflexivity.
Qed.

Lemma csvParse_field_last v : readBack v -> csvParse (escapeCsv (Str v)) = [[v]].
Proof.
  intro Hv. unfold csvParse. rewrite <- (app_nil_r (escapeCsv (Str v))).
  rewrite csvRead_escaped by first [exact Hv | exact I]. reflexivity.
Qed.

(** The reader always gives a record. *)
Lemma csvRead_some_record text : forall mode cur, csvRead mode cur text <> [].
Proof.
  induction text as [|c t IH]; intros mode cur; [discriminate|].
  assert (Hc : forall f, consField f (csvRead FieldStart [] t) <> []).
  { intro f. destruct (csvRead FieldStart [] t); discriminate. }
  cbn [csvRead].
  destruct mode, (c =? DQUOTE)%N, (c =? COMMA)%N, (c =? LF)%N, (c =? CR)%N;
    solve [apply IH | apply Hc | discriminate].
Qed.

(** The first carriage return of a text. *)
Lemma first_cr v :
  In CR v -> exists a b, v = a ++ CR :: b /\ ~ In CR a.
Proof.
  induction v as [|c t IH]; intro H; [destruct H|].
  destruct (N.eq_dec c CR) as [->|Hn].
  - exists [], t. split; [reflexivity|]. intros [].
  - destruct H as [H|H]; [congruence|]. destruct (IH H) as (a & b & -> & Ha).
    exists (c :: a), b. split; [reflexivity|].
    intros [E|E]; [congruence|exact (Ha E)].
Qed.

Lemma existsb_app_false (A : Type) (f : A -> bool) (a b : list A) :
  existsb f (a ++ b) = false -> existsb f a = false.
Proof. rewrite existsb_app. intro H. apply orb_false_iff in H. apply H. Qed.

(** A field written as it is with a carriage return in it is read as more
    than one record. *)
Lemma csvParse_bare_cr v :
  existsb isCsvSpecial v = false -> In CR v ->
  exists f records, csvParse v = [f] :: records /\ records <> [].
Proof.
  intros S H. destruct (first_cr v H) as (a & b & -> & Ha).
  pose proof (existsb_app_false _ _ _ _ S) as Sa.
  exists a, (csvRead AfterCR [] b). split; [|apply csvRead_some_record].
  unfold csvParse. destruct a as [|c t]; [reflexivity|].
  assert (Hq : (c =? DQUOTE)%N = false).
  { cbn [existsb] in Sa. apply orb_false_iff in Sa. destruct Sa as [Hc _].
    apply not_special in Hc. apply Hc. }
  cbn [app]. rewrite csvRead_start_unquoted by exact Hq.
  change (c :: t ++ CR :: b) with ((c :: t) ++ CR :: b).
  rewrite csvRead_unquoted_cr by assumption. reflexivity.
Qed.

Lemma readBack_dec v : {readBack v} + {existsb isCsvSpecial v = false /\ In CR v}.
Proof.
  unfold readBack. destruct (existsb isCsvSpecial v); [left; left; reflexivity|].
  destruct (in_dec N.eq_dec CR v) as [H|H]; [right; auto|left; right; exact H].
Qed.

Lemma csvUnescape_escapeCsv v :
  csvUnescape (escapeCsv (Str v)) = Some v <-> readBack v.
Proof.
  split.
  - intro H. destruct (readBack_dec v) as [Hv|[S Hc]]; [exact Hv|].
    exfalso. rewrite escapeCsv_spec in H. unfold quoteWhen in H. rewrite S in H.
    destruct (csvParse_bare_cr v S Hc) as (f & records & E & Hn).
    unfold csvUnescape in H. rewrite E in H.
    destruct records; [apply Hn; reflexivity|discriminate].
  - intro Hv. unfold csvUnescape. rewrite csvParse_field_last by exact Hv.
    reflexivity.
Qed.

Lemma existsb_lineSpecial v :
  existsb isLineSpecial v = false ->
  existsb isCsvSpecial v = false /\ ~ In CR v.
Proof.
  induction v as [|c t IH]; intro H; [split; [reflexivity|intros []]|].
  cbn [existsb] in H. apply orb_false_iff in H. destruct H as [Hc Ht].
  unfold isLineSpecial in Hc. apply orb_false_iff in Hc. destruct Hc as [Hs Hr].
  destruct (IH Ht) as [S Hn]. split.
  - cbn [existsb]. rewrite Hs, S. reflexivity.
  - intros [E|E]; [|exact (Hn E)]. subst c. discriminate.
Qed.

(** With the carriage return among the code units that call for the double
    quotes, every field is read back. *)
Lemma csvUnescape_quoteWhen v :
  csvUnescape (quoteWhen isLineSpecial v) = Some v.
Proof.
  unfold csvUnescape, csvParse, quoteWhen.
  destruct (existsb isLineSpecial v) eqn:S.
  - rewrite <- (app_nil_r (doubleQuotes v ++ [DQUOTE])), <- app_assoc.
    rewrite csvRead_wrapped by exact I. reflexivity.
  - destruct (existsb_lineSpecial v S) as [S' Hn].
    rewrite <- (app_nil_r v) at 1. rewrite csvRead_bare by first [assumption | exact I].
    reflexivity.
Qed.

(** ** Properties of the extraction *)

(** C1, as stated, fails: on the four header lines the merchant is the
    empty string, because the line Fresh Foods Market holds the keyword
    market of the deny-list. *)
Lemma merchant_header_counterexample :
  linesOf headerText = headerLines
  /\ test skipKeywords (str "Fresh Foods Market") = true
  /\ exists r, parseReceiptText headerText = Normal r
               /\ merchant r = []
               /\ merchant r <> str "Fresh Foods Market".
Proof.
  split; [vm_compute; reflexivity|]. split; [vm_compute; reflexivity|].
  eexists. split; [vm_compute; reflexivity|]. split; [reflexivity|discriminate].
Qed.

(** C1, amended: when the lines begin with the four header lines, none of
    them becomes the merchant: the boilerplate line and the line Fresh
    Foods Market are skipped by the deny-list, the numeric line and the
    date line by the ratio of letters (the date line is on the deny-list
    too); the merchant is what the scan finds from the fifth line to the
    twelfth, and the empty string when no line follows. *)
Theorem merchant_header_skipped (text : jsstring) (rest : list jsstring) :
  linesOf text = headerLines ++ rest ->
  (lt (alphaRatio (str "*** RECEIPT ***")) threeTenths = false
   /\ test skipKeywords (str "*** RECEIPT ***") = true)
  /\ lt (alphaRatio (str "12345")) threeTenths = true
  /\ (lt (alphaRatio (str "Fresh Foods Market")) threeTenths = false
      /\ test skipKeywords (str "Fresh Foods Market") = true)
  /\ (lt (alphaRatio (str "Date: 2024-01-01")) threeTenths = true
      /\ test skipKeywords (str "Date: 2024-01-01") = true)
  /\ exists r, parseReceiptText text = Normal r
               /\ merchantLoop (headerLines ++ rest) 4 (Nat.min (length rest) 8) []
                  = Normal (merchant r)
               /\ (rest = [] -> merchant r = []).
Proof.
  intro Hl.
  assert (A1 : lt (alphaRatio (str "*** RECEIPT ***")) threeTenths = false)
    by (vm_compute; reflexivity).
  assert (K1 : test skipKeywords (str "*** RECEIPT ***") = true)
    by (vm_compute; reflexivity).
  assert (A2 : lt (alphaRatio (str "12345")) threeTenths = true)
    by (vm_compute; reflexivity).
  assert (A3 : lt (alphaRatio (str "Fresh Foods Market")) threeTenths = false)
    by (vm_compute; reflexivity).
  assert (K3 : test skipKeywords (str "Fresh Foods Market") = true)
    by (vm_compute; reflexivity).
  assert (A4 : lt (alphaRatio (str "Date: 2024-01-01")) threeTenths = true)
    by (vm_compute; reflexivity).
  assert (K4 : test skipKeywords (str "Date: 2024-01-01") = true)
    by (vm_compute; reflexivity).
  repeat (split; [assumption|]).
  split; [split; assumption|]. split; [assumption|].
  split; [split; assumption|]. split; [split; assumption|].
  destruct (parse_normal text) as [t [m [Ht [Hm Hp]]]].
  eexists. split; [exact Hp|]. cbn [merchant].
  rewrite Hl in Hm.
  assert (Hmin : Nat.min (length (headerLines ++ rest)) 12
                 = S (S (S (S (Nat.min (length rest) 8))))).
  { rewrite length_app. cbn [headerLines length]. lia. }
  rewrite Hmin in Hm. unfold headerLines in Hm |- *.
  cbn [merchantLoop nth_error app] in Hm.
  rewrite A1, K1, A2, A3, K3, A4 in Hm.
  split; [exact Hm|].
  intros ->. cbn in Hm. injection Hm as <-. reflexivity.
Qed.

Lemma merchant_header_skipped_witness :
  linesOf headerText = headerLines ++ []
  /\ exists r, parseReceiptText headerText = Normal r /\ merchant r = [].
Proof.
  assert (H : linesOf headerText = headerLines ++ []) by (vm_compute; reflexivity).
  split; [exact H|].
  destruct (merchant_header_skipped headerText [] H)
    as [_ [_ [_ [_ [r [Hp [_ He]]]]]]].
  exists r. split; [exact Hp | exact (He eq_refl)].
Defined.

(** C2: a date whose parts stand on two adjacent lines is not found: the
    separator of the joined text holds a backslash and the letter n, which
    no date pattern crosses.  With a line feed in that place the fourth
    pattern matches. *)
Theorem date_across_lines_not_found :
  linesOf (str ("Paid 12 Jan" ++ NL ++ "2024 09:30"))
  = [str "Paid 12 Jan"; str "2024 09:30"]
  /\ join [str "Paid 12 Jan"; str "2024 09:30"] separator
     = str "Paid 12 Jan \n 2024 09:30"
  /\ (exists r, parseReceiptText (str ("Paid 12 Jan" ++ NL ++ "2024 09:30")) = Normal r
                /\ date r = [])
  /\ match0 (str ("Paid 12 Jan " ++ NL ++ " 2024 09:30")) Date.dMonthY
     = Some (str ("12 Jan " ++ NL ++ " 2024")).
Proof.
  repeat split; try (vm_compute; reflexivity).
  eexists. split; vm_compute; reflexivity.
Qed.

(** C3: the keyword scan goes from the last line to the first; lines that
    have no keyword, or a keyword and no amount, are passed over, and the
    first keyword line that gives a currency-anchored amount or else a bare
    amount fixes the total, whatever stands above it. *)
Theorem total_keyword_bottom_up (text : jsstring) (above below : list jsstring)
        (l a : jsstring) :
  linesOf text = above ++ l :: below ->
  Forall yieldsNothing below ->
  yields l a ->
  exists r, parseReceiptText text = Normal r /\ total r = a.
Proof.
  intros Hl Hb Hy. destruct (parse_normal text) as [t [m [Ht [Hm Hp]]]].
  eexists. split; [exact Hp|]. cbn [total].
  rewrite Hl, (totalLoop_bottom_up above l a below Hy Hb) in Ht.
  injection Ht as <-. pose proof (yields_not_empty l a Hy) as Hne.
  destruct a; [congruence | reflexivity].
Qed.

Lemma total_keyword_bottom_up_witness :
  linesOf totalsText = [str "Subtotal $10.00"; str "Tax $1.00"] ++ str "Total $11.00" :: []
  /\ yields (str "Total $11.00") (str "$11.00")
  /\ exists r, parseReceiptText totalsText = Normal r /\ total r = str "$11.00".
Proof.
  assert (Hl : linesOf totalsText
               = [str "Subtotal $10.00"; str "Tax $1.00"] ++ str "Total $11.00" :: [])
    by (vm_compute; reflexivity).
  assert (Hy : yields (str "Total $11.00") (str "$11.00")).
  { split; [vm_compute; reflexivity|]. left. eexists.
    split; vm_compute; reflexivity. }
  split; [exact Hl|]. split; [exact Hy|].
  exact (total_keyword_bottom_up totalsText _ [] _ _ Hl (Forall_nil _) Hy).
Defined.

(** A keyword line without an amount is passed over. *)
Example total_keyword_line_without_amount :
  exists r, parseReceiptText
              (str ("Total $11.00" ++ NL ++ "Total Items: 3" ++ NL ++ "Thank you"))
            = Normal r /\ total r = str "$11.00".
Proof. eexists. split; vm_compute; reflexivity. Qed.



(** Amounts that are all zero give no total: the greatest value is not
    positive. *)
Example total_fallback_zero :
  amountsOf (linesOf zeroText) = [str "0.00"; str "0.00"]
  /\ exists r, parseReceiptText zeroText = Normal r /\ total r = [].
Proof.
  split; [vm_compute; reflexivity|]. eexists. split; vm_compute; reflexivity.
Qed.

(** C5: the date is the match of the first of the four patterns, in the
    order YYYY-MM-DD, MM-DD-YYYY, DD-MM-YYYY, day month-name year, that
    matches somewhere in the joined text: the leftmost match of that
    pattern, a substring of the text.  It is the empty string when no
    pattern matches, and MM-DD-YYYY wins over DD-MM-YYYY whenever it
    matches. *)
Theorem date_priority (text : jsstring) (r : ExtractionResult) :
  parseReceiptText text = Normal r ->
  let fullText := join (linesOf text) separator in
  datePatterns = [Date.ymd; Date.mdy; Date.dmy; Date.dMonthY]
  /\ (forall i rx m,
        nth_error datePatterns i = Some rx ->
        match0 fullText rx = Some m ->
        (forall j rx', j < i -> nth_error datePatterns j = Some rx' ->
                       match0 fullText rx' = None) ->
        date r = m /\ exists p a, firstMatch rx fullText p m a)
  /\ ((forall rx, In rx datePatterns -> match0 fullText rx = None) ->
      date r = [])
  /\ (forall m, match0 fullText Date.ymd = None ->
                match0 fullText Date.mdy = Some m ->
                date r = m).
Proof.
  intros H fullText. destruct (parse_normal text) as [t [m0 [Ht [Hm Hp]]]].
  assert (Hd : date r = dateLoop datePatterns fullText)
    by (rewrite Hp in H; injection H as <-; reflexivity).
  rewrite Hd. clear Hd.
  split; [reflexivity|]. split; [|split].
  - intros i rx m Hi Hmatch Hbefore. split.
    + eapply dateLoop_first; eauto.
    + eapply match0_first; eauto.
  - apply dateLoop_none.
  - intros m H1 H2. apply (dateLoop_first fullText datePatterns 1 Date.mdy m).
    + reflexivity.
    + exact H2.
    + intros j rx' Hj Hn. destruct j; [|lia]. injection Hn as <-. exact H1.
Qed.

Lemma date_priority_witness :
  exists r, parseReceiptText (str "25/12/2024") = Normal r
            /\ match0 (str "25/12/2024") Date.ymd = None
            /\ match0 (str "25/12/2024") Date.mdy = Some (str "5/12/2024")
            /\ match0 (str "25/12/2024") Date.dmy = Some (str "25/12/2024")
            /\ date r = str "5/12/2024".
Proof.
  eexists. split; [vm_compute; reflexivity|].
  assert (H1 : match0 (str "25/12/2024") Date.ymd = None) by (vm_compute; reflexivity).
  assert (H2 : match0 (str "25/12/2024") Date.mdy = Some (str "5/12/2024"))
    by (vm_compute; reflexivity).
  split; [exact H1|]. split; [exact H2|]. split; [vm_compute; reflexivity|].
  refine (proj2 (proj2 (proj2 (date_priority (str "25/12/2024") _ _))) _ H1 H2).
  vm_compute. reflexivity.
Defined.

(** C6: for every string, parseReceiptText returns a record (it never
    throws), the field raw is the input, and for an empty or
    whitespace-only input date, merchant and total are the empty string. *)
Theorem parseReceiptText_total (text : jsstring) :
  exists r, parseReceiptText text = Normal r
            /\ raw r = text
            /\ (blank text -> date r = [] /\ merchant r = [] /\ total r = []).
Proof.
  destruct (parse_normal text) as [t [m [Ht [Hm Hp]]]].
  eexists. split; [exact Hp|]. split; [reflexivity|].
  intro Hb. cbn [date merchant total].
  rewrite (linesOf_blank _ Hb) in *.
  cbn in Ht, Hm. injection Ht as <-. injection Hm as <-.
  repeat split; vm_compute; reflexivity.
Qed.

Lemma parseReceiptText_total_witness :
  blank (str (" " ++ TAB ++ NL ++ "  "))
  /\ exists r, parseReceiptText (str (" " ++ TAB ++ NL ++ "  ")) = Normal r
               /\ date r = [] /\ merchant r = [] /\ total r = [].
Proof.
  assert (B : blank (str (" " ++ TAB ++ NL ++ "  ")))
    by (repeat constructor).
  split; [exact B|].
  destruct (parseReceiptText_total (str (" " ++ TAB ++ NL ++ "  ")))
    as [r [H [_ E]]].
  exists r. split; [exact H | exact (E B)].
Defined.

(** C8: escapeCsv leaves a field as it is unless it holds a comma, a double
    quote or a line feed, and then wraps it in double quotes with each
    inner double quote doubled.  Reading the escaped field back gives the
    field exactly when escapeCsv has quoted it or it holds no carriage
    return: the date 12 Jan<CR>2024, which parseReceiptText finds in the
    text of that form, is written as it is and read back as two records.
    With the carriage return added to the three code units of the test,
    every string is read back. *)
Theorem escapeCsv_carriage_return :
  (forall v, escapeCsv (Str v) = quoteWhen isCsvSpecial v)
  /\ (forall v, csvUnescape (escapeCsv (Str v)) = Some v <-> readBack v)
  /\ (let v := str "12 Jan" ++ [CR] ++ str "2024" in
      (exists r, parseReceiptText v = Normal r /\ date r = v)
      /\ escapeCsv (Str v) = v
      /\ csvParse (escapeCsv (Str v)) = [[str "12 Jan"]; [str "2024"]]
      /\ csvUnescape (escapeCsv (Str v)) = None
      /\ csvParse (downloadCSV v [] [])
         = [[str "Date"; str "Merchant"; str "Total"];
            [str "12 Jan"]; [str "2024"; []; []]])
  /\ (forall v, csvUnescape (quoteWhen isLineSpecial v) = Some v).
Proof.
  split; [exact escapeCsv_spec|]. split; [exact csvUnescape_escapeCsv|].
  split; [|exact csvUnescape_quoteWhen].
  split; [eexists; split; vm_compute; reflexivity|].
  repeat split; vm_compute; reflexivity.
Qed.

(** C10: a total that is not empty ends with a point and two digits, on
    each of the three paths; an amount without cents, such as $11, is
    never the total. *)
Theorem total_has_cents (text : jsstring) (r : ExtractionResult) :
  parseReceiptText text = Normal r ->
  (total r <> [] -> endsWithCents (total r)) /\ total r <> str "$11".
Proof.
  intro H. destruct (parse_normal text) as [t [m [Ht [Hm Hp]]]].
  rewrite Hp in H. injection H as <-. cbn [total].
  assert (Hc : (if truthy t then t else maxTotal (linesOf text)) <> [] ->
               endsWithCents (if truthy t then t else maxTotal (linesOf text))).
  { intro Hne. destruct (totalLoop_shape _ _ _ Ht) as [->|Hs].
    - cbn [truthy] in *. destruct (maxTotal_shape (linesOf text)) as [E|E].
      + congruence.
      + apply amountShaped_cents, E.
    - destruct t; [cbn [truthy] in Hne |- *|exact Hs].
      destruct (maxTotal_shape (linesOf text)) as [E|E]; [congruence|].
      apply amountShaped_cents, E. }
  split; [exact Hc|]. intro E.
  assert (Hne : (if truthy t then t else maxTotal (linesOf text)) <> [])
    by (rewrite E; discriminate).
  apply Hc in Hne. rewrite E in Hne.
  destruct Hne as [x [d1 [d2 [Ex _]]]].
  apply (f_equal (@rev char)) in Ex. rewrite rev_app_distr in Ex.
  vm_compute in Ex. discriminate.
Qed.

(** A keyword line whose amount has no cents gives no total. *)
Example total_without_cents :
  match0 (str "Total $11") currencyAmount = None
  /\ match0 (str "Total $11") amountOnly = None
  /\ exists r, parseReceiptText (str "Total $11") = Normal r /\ total r = [].
Proof.
  split; [vm_compute; reflexivity|]. split; [vm_compute; reflexivity|].
  eexists. split; vm_compute; reflexivity.
Qed.

Lemma total_has_cents_witness :
  exists r, parseReceiptText (str "Total $11.00") = Normal r
            /\ total r = str "$11.00" /\ endsWithCents (total r).
Proof.
  eexists. split; [vm_compute; reflexivity|].
  split; [reflexivity|].
  refine (proj1 (total_has_cents (str "Total $11.00") _ _) _).
  - vm_compute. reflexivity.
  - discriminate.
Defined.

(** ** The lines of a text *)

Lemma list_ind2 (A : Type) (P : list A -> Prop) :
  P [] -> (forall a, P [a]) ->
  (forall a b t, P t -> P (b :: t) -> P (a :: b :: t)) ->
  forall l, P l.
Proof.
  intros H0 H1 H2 l.
  assert (H : P l /\ forall a, P (a :: l)).
  { induction l as [|b t [IH1 IH2]]; split; auto. }
  apply H.
Qed.

Lemma eqb_succ_false n : (n =? S n) = false.
Proof. apply Nat.eqb_neq. lia. Qed.

Lemma ends_opt_char a prev s0 :
  ends false (opt (Char a)) (prev, s0)
  = match s0 with
    | c :: t => if (a =? c)%N then [(Some c, t); (prev, s0)] else [(prev, s0)]
    | [] => [(prev, s0)]
    end.
Proof.
  unfold opt. destruct s0 as [|c t].
  - reflexivity.
  - cbn [ends snd length Nat.add repeat step flat_map Nat.eqb andb].
    rewrite !canon_false. destruct (a =? c)%N.
    + cbn [flat_map snd length app andb Nat.eqb option_map pred].
      rewrite eqb_succ_false. reflexivity.
    + reflexivity.
Qed.

(** Where the pattern of a line end matches: at a line feed, and at a
    carriage return that a line feed follows. *)
Lemma ends_lineBreak prev s0 :
  ends false (pattern lineBreak) (prev, s0)
  = match s0 with
    | c :: t =>
      if (c =? LF)%N then [(Some LF, t)]
      else if (c =? CR)%N then
        match t with
        | c2 :: t2 => if (c2 =? LF)%N then [(Some LF, t2)] else []
        | [] => []
        end
      else []
    | [] => []
    end.
Proof.
  change (pattern lineBreak) with (Seq (opt (Char CR)) (Char LF)).
  cbn [ends]. fold (ends false (opt (Char CR))). rewrite ends_opt_char.
  destruct s0 as [|c t]; [reflexivity|].
  rewrite (N.eqb_sym CR c).
  destruct (N.eqb_spec c LF) as [->|Hlf].
  - reflexivity.
  - destruct (N.eqb_spec c CR) as [->|Hcr].
    + cbn [flat_map step snd app]. rewrite !canon_false.
      change (LF =? CR)%N with false. cbn [app].
      destruct t as [|c2 t2]; [reflexivity|].
      cbn [step snd]. rewrite !canon_false, (N.eqb_sym LF c2), app_nil_r.
      destruct (N.eqb_spec c2 LF) as [->|H2]; reflexivity.
    + cbn [flat_map step snd app]. rewrite !canon_false, app_nil_r.
      rewrite (N.eqb_sym LF c). apply N.eqb_neq in Hlf. rewrite Hlf. reflexivity.
Qed.

Lemma consumed_one prev c t p :
  length (consumed (prev, c :: t) (p, t)) = 1.
Proof.
  unfold consumed. cbn [snd length].
  replace (S (length t) - length t) with 1 by lia. reflexivity.
Qed.

Lemma consumed_two prev c c2 t p :
  length (consumed (prev, c :: c2 :: t) (p, t)) = 2.
Proof.
  unfold consumed. cbn [snd length].
  replace (S (S (length t)) - length t) with 2 by lia. reflexivity.
Qed.

Lemma splitLoop_step rx prev c t cur :
  splitLoop rx prev (c :: t) 0 cur
  = match ends (ignoreCase rx) (pattern rx) (prev, c :: t) with
    | [] => splitLoop rx (Some c) t 0 (c :: cur)
    | e :: _ =>
      match length (consumed (prev, c :: t) e) with
      | 0 =>
        match cur with
        | [] => splitLoop rx (Some c) t 0 [c]
        | _ => rev cur :: splitLoop rx (Some c) t 0 [c]
        end
      | S k => rev cur :: splitLoop rx (Some c) t k []
      end
    end.
Proof. reflexivity. Qed.

Lemma splitLoop_skip rx prev c t k cur :
  splitLoop rx prev (c :: t) (S k) cur = splitLoop rx (Some c) t k cur.
Proof. reflexivity. Qed.

Lemma lineSplit_step cur c t :
  lineSplit cur (c :: t)
  = if (c =? LF)%N then rev cur :: lineSplit [] t
    else if (c =? CR)%N then
      match t with
      | c2 :: t2 =>
        if (c2 =? LF)%N then rev cur :: lineSplit [] t2
        else lineSplit (c :: cur) t
      | [] => lineSplit (c :: cur) t
      end
    else lineSplit (c :: cur) t.
Proof. reflexivity. Qed.

(** split with the pattern of a line end is [lineSplit]. *)
Lemma splitLoop_lineSplit : forall s0 prev cur,
  splitLoop lineBreak prev s0 0 cur = lineSplit cur s0.
Proof.
  induction s0 as [|c|c c2 t IHt IHc2] using list_ind2; intros prev cur.
  - reflexivity.
  - rewrite splitLoop_step, lineSplit_step. change (ignoreCase lineBreak) with false.
    rewrite ends_lineBreak.
    destruct (c =? LF)%N; [rewrite consumed_one; reflexivity|].
    destruct (c =? CR)%N; reflexivity.
  - rewrite splitLoop_step, lineSplit_step. change (ignoreCase lineBreak) with false.
    rewrite ends_lineBreak.
    destruct (c =? LF)%N.
    + rewrite consumed_one. f_equal. apply IHc2.
    + destruct (c =? CR)%N; [|apply IHc2].
      destruct (c2 =? LF)%N eqn:E2; [|apply IHc2].
      rewrite consumed_two. f_equal. rewrite splitLoop_skip. apply IHt.
Qed.

Lemma split_lineSplit text : split text lineBreak = lineSplit [] text.
Proof.
  destruct text as [|c t]; [reflexivity|]. apply splitLoop_lineSplit.
Qed.

(** ** More about trim *)

Lemma trimStart_head s0 c t : trimStart s0 = c :: t -> isSpace c = false.
Proof.
  induction s0 as [|x s0 IH]; cbn [trimStart]; [discriminate|].
  destruct (isSpace x) eqn:E; [exact IH|]. intro H. injection H as <- _. exact E.
Qed.

Lemma trimStart_snoc y c :
  isSpace c = false -> trimStart (y ++ [c]) = trimStart y ++ [c].
Proof.
  intro Hc. induction y as [|x y IH]; cbn [app trimStart].
  - rewrite Hc. reflexivity.
  - destruct (isSpace x); [exact IH | reflexivity].
Qed.

Lemma trimEnd_cons c t : isSpace c = false -> trimEnd (c :: t) = c :: trimEnd t.
Proof.
  intro Hc. unfold trimEnd. cbn [rev]. rewrite trimStart_snoc by exact Hc.
  rewrite rev_app_distr. reflexivity.
Qed.

Lemma trimEnd_last_unit s0 t c : trimEnd s0 = t ++ [c] -> isSpace c = false.
Proof.
  unfold trimEnd. intro H. apply (f_equal (@rev char)) in H.
  rewrite rev_involutive, rev_app_distr in H. cbn [rev app] in H.
  eapply trimStart_head, H.
Qed.

Lemma trim_head s0 c t : trim s0 = c :: t -> isSpace c = false.
Proof.
  unfold trim. destruct (trimStart s0) as [|x y] eqn:E; [discriminate|].
  pose proof (trimStart_head _ _ _ E) as Hx.
  rewrite trimEnd_cons by exact Hx. intro H. injection H as <- _. exact Hx.
Qed.

Lemma trim_last s0 t c : trim s0 = t ++ [c] -> isSpace c = false.
Proof. unfold trim. apply trimEnd_last_unit. Qed.

Lemma trimStart_suffix s0 : exists p, s0 = p ++ trimStart s0.
Proof.
  induction s0 as [|x s0 [p IH]]; [exists []; reflexivity|].
  cbn [trimStart]. destruct (isSpace x).
  - exists (x :: p). cbn [app]. rewrite <- IH. reflexivity.
  - exists []. reflexivity.
Qed.

Lemma trimEnd_prefix s0 : exists a, s0 = trimEnd s0 ++ a.
Proof.
  unfold trimEnd. destruct (trimStart_suffix (rev s0)) as [p E].
  exists (rev p). rewrite <- rev_app_distr, <- E, rev_involutive. reflexivity.
Qed.

(** What trim returns occurs in its argument. *)
Lemma trim_occurs s0 : occursIn (trim s0) s0.
Proof.
  unfold trim. destruct (trimStart_suffix s0) as [p E].
  destruct (trimEnd_prefix (trimStart s0)) as [a Ea].
  exists p, a. rewrite <- Ea. exact E.
Qed.

Lemma occursIn_Forall (P : char -> Prop) m l :
  occursIn m l -> Forall P l -> Forall P m.
Proof.
  intros [p [a ->]] H. apply Forall_app in H. destruct H as [_ H].
  apply Forall_app in H. apply H.
Qed.

Lemma occursIn_trans a b c : occursIn a b -> occursIn b c -> occursIn a c.
Proof.
  intros [p1 [a1 ->]] [p2 [a2 ->]]. exists (p2 ++ p1), (a1 ++ a2).
  repeat rewrite <- app_assoc. reflexivity.
Qed.

Lemma occursIn_refl a : occursIn a a.
Proof. exists [], []. rewrite app_nil_r. reflexivity. Qed.

Lemma trimStart_snoc_space x c :
  isSpace c = true ->
  trimStart (x ++ [c])
  = match trimStart x with [] => [] | y => y ++ [c] end.
Proof.
  intro Hc. induction x as [|a x IH]; cbn [app trimStart].
  - rewrite Hc. reflexivity.
  - destruct (isSpace a); [exact IH | reflexivity].
Qed.

Lemma trimEnd_snoc_space y c : isSpace c = true -> trimEnd (y ++ [c]) = trimEnd y.
Proof.
  intro Hc. unfold trimEnd. rewrite rev_app_distr. cbn [rev app trimStart].
  rewrite Hc. reflexivity.
Qed.

(** A white space at the end changes nothing. *)
Lemma trim_snoc_space x c : isSpace c = true -> trim (x ++ [c]) = trim x.
Proof.
  intro Hc. unfold trim. rewrite trimStart_snoc_space by exact Hc.
  destruct (trimStart x) as [|a y]; [reflexivity|].
  apply (trimEnd_snoc_space (a :: y)), Hc.
Qed.

(** ** The pieces of [lineSplit] *)

Lemma lineSplit_pieces (P : char -> Prop) :
  forall s0 cur, Forall P s0 -> Forall P cur ->
                 Forall (Forall P) (lineSplit cur s0).
Proof.
  intros s0 cur Hs. rewrite <- splitLoop_lineSplit with (prev := None).
  apply splitLoop_pieces, Hs.
Qed.

(** No piece holds a line feed. *)
Lemma lineSplit_no_LF : forall s0 cur,
  ~ In LF cur -> Forall (fun p => ~ In LF p) (lineSplit cur s0).
Proof.
  induction s0 as [|c|c c2 t IHt IHc2] using list_ind2; intros cur Hcur.
  - constructor; [|constructor]. rewrite <- in_rev. exact Hcur.
  - rewrite lineSplit_step.
    assert (Hrev : ~ In LF (rev cur)) by (rewrite <- in_rev; exact Hcur).
    destruct (N.eqb_spec c LF) as [->|Hc].
    + constructor; [exact Hrev|]. constructor; [intros []|constructor].
    + assert (Hpush : Forall (fun p => ~ In LF p) (lineSplit (c :: cur) [])).
      { constructor; [|constructor]. cbn [lineSplit rev].
        intro H. apply in_app_or in H. destruct H as [H|[H|[]]]; [auto|].
        congruence. }
      destruct (c =? CR)%N; exact Hpush.
  - rewrite lineSplit_step.
    assert (Hrev : ~ In LF (rev cur)) by (rewrite <- in_rev; exact Hcur).
    assert (Hnil : ~ In LF (@nil char)) by (intros []).
    destruct (N.eqb_spec c LF) as [->|Hc].
    + constructor; [exact Hrev | apply IHc2, Hnil].
    + assert (Hpush : ~ In LF (c :: cur))
        by (intros [H|H]; [congruence | auto]).
      destruct (c =? CR)%N; [|apply IHc2, Hpush].
      destruct (c2 =? LF)%N; [|apply IHc2, Hpush].
      constructor; [exact Hrev | apply IHt, Hnil].
Qed.

(** Every piece occurs in the text. *)
Lemma lineSplit_occurs : forall s0 cur p,
  In p (lineSplit cur s0) -> occursIn p (rev cur ++ s0).
Proof.
  induction s0 as [|c|c c2 t IHt IHc2] using list_ind2; intros cur p.
  - intros [<-|[]]. rewrite app_nil_r. apply occursIn_refl.
  - rewrite lineSplit_step.
    assert (Hpush : In p (lineSplit (c :: cur) []) -> occursIn p (rev cur ++ [c])).
    { intros [<-|[]]. apply occursIn_refl. }
    assert (Hhere : occursIn (rev cur) (rev cur ++ [c]))
      by (exists [], [c]; reflexivity).
    destruct (c =? LF)%N.
    + intros [<-|[<-|[]]]; [exact Hhere|].
      exists (rev cur ++ [c]), []. rewrite app_nil_r. reflexivity.
    + destruct (c =? CR)%N; exact Hpush.
  - rewrite lineSplit_step.
    assert (Hpush : In p (lineSplit (c :: cur) (c2 :: t)) ->
                    occursIn p (rev cur ++ c :: c2 :: t)).
    { intro H. apply IHc2 in H. cbn [rev] in H. rewrite <- app_assoc in H.
      exact H. }
    assert (Hhere : occursIn (rev cur) (rev cur ++ c :: c2 :: t))
      by (exists [], (c :: c2 :: t); reflexivity).
    destruct (c =? LF)%N.
    + intros [<-|H]; [exact Hhere|]. apply IHc2 in H. cbn [rev app] in H.
      eapply occursIn_trans; [exact H|].
      exists (rev cur ++ [c]), []. rewrite app_nil_r, <- app_assoc. reflexivity.
    + destruct (c =? CR)%N; [|exact Hpush].
      destruct (c2 =? LF)%N; [|exact Hpush].
      intros [<-|H]; [exact Hhere|]. apply IHt in H. cbn [rev app] in H.
      eapply occursIn_trans; [exact H|].
      exists (rev cur ++ [c; c2]), []. rewrite app_nil_r, <- app_assoc. reflexivity.
Qed.

Lemma linesOf_inv text l :
  In l (linesOf text) ->
  l <> [] /\ exists p, In p (lineSplit [] text) /\ l = trim p.
Proof.
  unfold linesOf. intro H. apply filter_In in H. destruct H as [H Hlen].
  apply in_map_iff in H. destruct H as [p [<- Hp]].
  rewrite split_lineSplit in Hp. split.
  - intro E. rewrite E in Hlen. discriminate.
  - exists p. auto.
Qed.

(** X1: every line that the extraction works on is a non-empty run of
    code units of the text, holds no line feed, and neither starts nor ends
    with white space. *)
Theorem lines_are_trimmed (text l : jsstring) :
  In l (linesOf text) ->
  l <> []
  /\ occursIn l text
  /\ ~ In LF l
  /\ (forall c t, l = c :: t -> isSpace c = false)
  /\ (forall t c, l = t ++ [c] -> isSpace c = false).
Proof.
  intro H. apply linesOf_inv in H. destruct H as [Hne [p [Hp ->]]].
  split; [exact Hne|]. split; [|split; [|split]].
  - eapply occursIn_trans; [apply trim_occurs|].
    apply (lineSplit_occurs text [] p Hp).
  - pose proof (lineSplit_no_LF text [] (fun H => H)) as F.
    rewrite Forall_forall in F. specialize (F p Hp).
    intro Hin. apply F.
    destruct (trim_occurs p) as [x [y E]]. rewrite E.
    apply in_or_app. right. apply in_or_app. left. exact Hin.
  - intros c t. apply trim_head.
  - intros t c. apply trim_last.
Qed.

Lemma lines_are_trimmed_witness :
  In (str "b c") (linesOf (str ("  a " ++ String (ascii_of_nat 13) NL ++ NL ++ TAB ++ "b c")))
  /\ occursIn (str "b c") (str ("  a " ++ String (ascii_of_nat 13) NL ++ NL ++ TAB ++ "b c"))
  /\ ~ In LF (str "b c").
Proof.
  assert (H : In (str "b c")
                 (linesOf (str ("  a " ++ String (ascii_of_nat 13) NL ++ NL ++ TAB ++ "b c"))))
    by (vm_compute; auto).
  split; [exact H|].
  destruct (lines_are_trimmed _ _ H) as [_ [Ho [Hn _]]]. auto.
Defined.

(** ** Line ends *)

Lemma linesOf_kept text : linesOf text = keptPieces (lineSplit [] text).
Proof. unfold linesOf, keptPieces. rewrite split_lineSplit. reflexivity. Qed.

Lemma keptPieces_app x y : keptPieces (x ++ y) = keptPieces x ++ keptPieces y.
Proof. unfold keptPieces. rewrite map_app, filter_app. reflexivity. Qed.

Lemma keptPieces_cons p l : keptPieces (p :: l) = keptPieces [p] ++ keptPieces l.
Proof. apply (keptPieces_app [p] l). Qed.

Lemma keptPieces_nil_piece : keptPieces [[]] = [].
Proof. reflexivity. Qed.

Lemma keptPieces_snoc_space x c :
  isSpace c = true -> keptPieces [x ++ [c]] = keptPieces [x].
Proof.
  intro Hc. unfold keptPieces. cbn [map]. rewrite trim_snoc_space by exact Hc.
  reflexivity.
Qed.

Lemma lineSplit_at_LF cur b : lineSplit cur (LF :: b) = rev cur :: lineSplit [] b.
Proof. reflexivity. Qed.

Lemma lineSplit_at_CRLF cur b :
  lineSplit cur (CR :: LF :: b) = rev cur :: lineSplit [] b.
Proof. reflexivity. Qed.

Lemma lineSplit_last cur c :
  lineSplit cur [c] = if (c =? LF)%N then [rev cur; []] else [rev (c :: cur)].
Proof.
  rewrite lineSplit_step. destruct (c =? LF)%N; [reflexivity|].
  destruct (c =? CR)%N; reflexivity.
Qed.

(** The pieces kept from a text with a line feed in it are those of the
    part before it and those of the part after it. *)
Lemma kept_around_LF b : forall a cur,
  keptPieces (lineSplit cur (a ++ LF :: b))
  = keptPieces (lineSplit cur a) ++ keptPieces (lineSplit [] b).
Proof.
  induction a as [|c|c c2 t IHt IHc2] using list_ind2; intro cur.
  - cbn [app]. rewrite lineSplit_at_LF. apply keptPieces_cons.
  - cbn [app]. rewrite lineSplit_last, lineSplit_step.
    destruct (N.eqb_spec c LF) as [->|Hc].
    + rewrite lineSplit_at_LF.
      apply (keptPieces_app [rev cur; []] (lineSplit [] b)).
    + destruct (N.eqb_spec c CR) as [->|Hr].
      * change (LF =? LF)%N with true. cbv iota.
        rewrite keptPieces_cons. f_equal. cbn [rev].
        symmetry. apply keptPieces_snoc_space. reflexivity.
      * rewrite lineSplit_at_LF. apply keptPieces_cons.
  - change ((c :: c2 :: t) ++ LF :: b) with (c :: (c2 :: t) ++ LF :: b).
    rewrite (lineSplit_step cur c ((c2 :: t) ++ LF :: b)).
    rewrite (lineSplit_step cur c (c2 :: t)).
    destruct (c =? LF)%N.
    + rewrite keptPieces_cons, IHc2, app_assoc, <- keptPieces_cons. reflexivity.
    + destruct (c =? CR)%N; [|apply IHc2].
      cbn [app]. destruct (c2 =? LF)%N; [|apply (IHc2 (c :: cur))].
      rewrite keptPieces_cons, IHt, app_assoc, <- keptPieces_cons. reflexivity.
Qed.

(** A carriage return at the end of a text adds no line. *)
Lemma kept_before_CR : forall a cur,
  keptPieces (lineSplit cur (a ++ [CR])) = keptPieces (lineSplit cur a).
Proof.
  induction a as [|c|c c2 t IHt IHc2] using list_ind2; intro cur.
  - cbn [app lineSplit]. change (CR =? LF)%N with false.
    change (CR =? CR)%N with true. cbv iota. cbn [lineSplit rev].
    apply keptPieces_snoc_space. reflexivity.
  - cbn [app]. rewrite lineSplit_last, lineSplit_step.
    destruct (N.eqb_spec c LF) as [->|Hc].
    + transitivity (keptPieces [rev cur] ++ []).
      * apply (keptPieces_app [rev cur] (lineSplit [] [CR])).
      * symmetry. apply (keptPieces_app [rev cur] [[]]).
    + change (CR =? LF)%N with false. cbv iota.
      assert (E : lineSplit (c :: cur) [CR] = [rev (c :: cur) ++ [CR]])
        by reflexivity.
      rewrite E. destruct (c =? CR)%N; apply keptPieces_snoc_space; reflexivity.
  - change ((c :: c2 :: t) ++ [CR]) with (c :: (c2 :: t) ++ [CR]).
    rewrite (lineSplit_step cur c ((c2 :: t) ++ [CR])).
    rewrite (lineSplit_step cur c (c2 :: t)).
    destruct (c =? LF)%N.
    + rewrite keptPieces_cons, IHc2, <- keptPieces_cons. reflexivity.
    + destruct (c =? CR)%N; [|apply IHc2].
      cbn [app]. destruct (c2 =? LF)%N; [|apply (IHc2 (c :: cur))].
      rewrite keptPieces_cons, IHt, <- keptPieces_cons. reflexivity.
Qed.

(** X2: the lines of a text with a line end in it, a line feed alone or
    after a carriage return, are the lines of what stands before the line
    end followed by the lines of what stands after it. *)
Theorem lines_around_line_end (a b : jsstring) :
  linesOf (a ++ LF :: b) = linesOf a ++ linesOf b
  /\ linesOf (a ++ CR :: LF :: b) = linesOf a ++ linesOf b.
Proof.
  rewrite !linesOf_kept. split; [apply kept_around_LF|].
  replace (a ++ CR :: LF :: b) with ((a ++ [CR]) ++ LF :: b)
    by (rewrite <- app_assoc; reflexivity).
  rewrite kept_around_LF, kept_before_CR. reflexivity.
Qed.

(** ** The merchant scan *)

Lemma existsb_app_bool (A : Type) (f : A -> bool) (l1 l2 : list A) :
  existsb f (l1 ++ l2) = existsb f l1 || existsb f l2.
Proof. apply existsb_app. Qed.

Lemma replaceAll_class inv items s0 by_ :
  replaceAll s0 {| pattern := Class inv items; ignoreCase := false |} by_
  = flat_map (fun c => if accepts false inv items c then by_ else [c]) s0.
Proof. apply replaceAll_single, singleUnit_class. Qed.

Lemma flat_map_drop_all (f : char -> bool) (l : jsstring) :
  (forall c, In c l -> f c = true) ->
  flat_map (fun c => if f c then [] else [c]) l = [].
Proof.
  induction l as [|x l IH]; intro H; [reflexivity|].
  cbn [flat_map]. rewrite (H x) by (left; reflexivity).
  apply IH. intros c Hc. apply H. right. exact Hc.
Qed.

Lemma flat_map_keeps (f : char -> bool) (l : jsstring) c :
  In c l -> f c = false -> In c (flat_map (fun c => if f c then [] else [c]) l).
Proof.
  intros Hin Hf. apply in_flat_map. exists c. split; [exact Hin|].
  rewrite Hf. left. reflexivity.
Qed.

Lemma flat_map_kept (f : char -> bool) (l : jsstring) :
  Forall (fun c => f c = false) (flat_map (fun c => if f c then [] else [c]) l).
Proof.
  apply Forall_forall. intros c H. apply in_flat_map in H.
  destruct H as [x [_ H]]. destruct (f x) eqn:E; [contradiction|].
  destruct H as [<-|[]]. exact E.
Qed.

Lemma letters_accepts inv c : accepts false inv letters c = xorb inv (isAlpha c).
Proof.
  unfold accepts, inClass, letters, inItem. cbn [existsb andb].
  rewrite !orb_false_r. reflexivity.
Qed.

(** A line whose ratio of letters is not below 0.3 holds a letter. *)
Lemma alphaRatio_letter line :
  lt (alphaRatio line) threeTenths = false -> line <> [] ->
  exists c, In c line /\ isAlpha c = true.
Proof.
  intros Hr Hne.
  destruct (existsb isAlpha line) eqn:E.
  - apply existsb_exists in E. exact E.
  - exfalso. unfold alphaRatio, nonLetterG in Hr. rewrite replaceAll_class in Hr.
    rewrite flat_map_drop_all in Hr.
    + destruct line as [|x t]; [congruence|]. cbn [length divNat] in Hr.
      change (binary64 (Z.of_nat 0) (Z.of_nat (S (length t)))) with (Fin 0) in Hr.
      vm_compute in Hr. discriminate.
    + intros c Hc. rewrite letters_accepts.
      assert (Hf : isAlpha c = false).
      { destruct (isAlpha c) eqn:A; [|reflexivity].
        assert (existsb isAlpha line = true)
          by (apply existsb_exists; exists c; auto).
        congruence. }
      rewrite Hf. reflexivity.
Qed.

Lemma alpha_not_space c : isAlpha c = true -> isSpace c = false.
Proof.
  unfold isAlpha, isUpper, isLower, isSpace, between. intro H.
  apply orb_true_iff in H.
  assert (R : (65 <= c <= 122)%N).
  { destruct H as [H|H]; apply andb_true_iff in H; destruct H as [H1 H2];
      apply N.leb_le in H1; apply N.leb_le in H2; lia. }
  repeat (apply orb_false_iff; split);
    try (apply N.eqb_neq; lia);
    apply andb_false_iff; rewrite !N.leb_gt; lia.
Qed.

(** The class of the characters removed from a name is the complement of
    [allowedInName]. *)
Lemma disallowed_accepts c :
  accepts false true (letters ++
                      [Range (cu "0") (cu "9"); One (cu " "); One (cu ".");
                       One (cu ","); One (cu "&"); One (cu "'"); One (cu "-")]) c
  = negb (allowedInName c).
Proof.
  unfold accepts, allowedInName, inClass, letters, inItem, isAlpha, isUpper,
    isLower, isDigit.
  cbn [app existsb xorb andb]. rewrite !canon_false, !orb_false_r.
  rewrite (N.eqb_sym (cu " ")), (N.eqb_sym (cu ".")), (N.eqb_sym (cu ",")),
    (N.eqb_sym (cu "&")), (N.eqb_sym (cu "'")), (N.eqb_sym (cu "-")).
  rewrite !orb_assoc. reflexivity.
Qed.

Lemma replaceAll_disallowed line :
  replaceAll line disallowedG []
  = flat_map (fun c => if negb (allowedInName c) then [] else [c]) line.
Proof.
  unfold disallowedG. rewrite replaceAll_class. apply flat_map_ext.
  intro c. rewrite disallowed_accepts. reflexivity.
Qed.

Lemma spacesG_alphabet :
  alphabet (ignoreCase spacesG) (pattern spacesG) (fun c => isSpace c = true).
Proof.
  cbn. intros c H. unfold accepts, inClass, inItem in H. cbn in H.
  rewrite orb_false_r in H. exact H.
Qed.

(** What a match of the pattern of white spaces covers is white space. *)
Lemma spacesG_consumed prev x t e l :
  ends (ignoreCase spacesG) (pattern spacesG) (prev, x :: t) = e :: l ->
  exists m, x :: t = m ++ snd e
            /\ consumed (prev, x :: t) e = m
            /\ Forall (fun c => isSpace c = true) m.
Proof.
  intro E. pose proof (in_eq e l) as Hin. rewrite <- E in Hin.
  pose proof (ends_spans _ _ _ spacesG_alphabet _ _ Hin) as [m [Hm F]].
  cbn [snd] in Hm. exists m. split; [exact Hm|]. split; [|exact F].
  pose proof (consumed_spec _ _ (ends_suffix _ _ _ _ Hin)) as Hc.
  cbn [snd] in Hc. rewrite Hm in Hc at 1. apply app_inv_tail in Hc. auto.
Qed.

(** Replacing the runs of white space keeps what is not white space. *)
Lemma replaceScan_spaces_keeps by_ c :
  isSpace c = false ->
  forall s0 prev skip,
    Forall (fun x => isSpace x = true) (firstn skip s0) ->
    In c s0 -> In c (replaceScan spacesG by_ prev s0 skip).
Proof.
  intro Hc. induction s0 as [|x t IH]; intros prev skip Hskip Hin; [destruct Hin|].
  destruct skip as [|k].
  - cbn [replaceScan].
    destruct (ends _ _ _) as [|e l] eqn:E.
    + destruct Hin as [->|Hin]; [left; reflexivity|].
      right. apply IH; [constructor | exact Hin].
    + destruct (spacesG_consumed _ _ _ _ _ E) as [m [Hm [Hk F]]].
      unfold jsstring in *. rewrite Hk. apply in_or_app. right.
      destruct m as [|y m'].
      * cbn [length Nat.eqb pred]. destruct Hin as [->|Hin]; [left; reflexivity|].
        right. apply IH; [constructor | exact Hin].
      * injection Hm as <- Hm. inversion F as [|? ? Hx F']; subst.
        cbn [length Nat.eqb pred app].
        destruct Hin as [->|Hin]; [congruence|].
        apply IH; [|exact Hin].
        rewrite firstn_app, Nat.sub_diag, firstn_all. cbn [firstn].
        rewrite app_nil_r. exact F'.
  - cbn [replaceScan]. cbn [firstn] in Hskip.
    inversion Hskip as [|? ? Hx Hk]; subst.
    destruct Hin as [->|Hin]; [congruence|]. apply IH; assumption.
Qed.

Lemma replaceScan_Forall (P : char -> Prop) rx by_ :
  Forall P by_ ->
  forall s0 prev skip, Forall P s0 -> Forall P (replaceScan rx by_ prev s0 skip).
Proof.
  intro Hby. induction s0 as [|x t IH]; intros prev skip Hs.
  - destruct skip; cbn [replaceScan]; [|constructor].
    destruct (ends _ _ _); [constructor|]. rewrite app_nil_r. exact Hby.
  - inversion Hs as [|? ? Hx Ht]; subst. destruct skip; cbn [replaceScan].
    + destruct (ends _ _ _) as [|e l].
      * constructor; [exact Hx | apply IH, Ht].
      * apply Forall_app. split; [exact Hby|]. apply Forall_app. split.
        { destruct (_ =? 0); [constructor; [exact Hx | constructor] | constructor]. }
        apply IH, Ht.
    + apply IH, Ht.
Qed.

Lemma trimStart_keeps_unit s0 c :
  In c s0 -> isSpace c = false -> In c (trimStart s0).
Proof.
  intros Hin Hc. induction s0 as [|x t IH]; [destruct Hin|].
  cbn [trimStart]. destruct (isSpace x) eqn:E; [|exact Hin].
  destruct Hin as [->|Hin]; [congruence | apply IH, Hin].
Qed.

Lemma trim_keeps_unit s0 c : In c s0 -> isSpace c = false -> In c (trim s0).
Proof.
  intros Hin Hc. unfold trim, trimEnd. rewrite <- in_rev.
  apply trimStart_keeps_unit; [|exact Hc]. rewrite <- in_rev.
  apply trimStart_keeps_unit; assumption.
Qed.

(** A letter of the line is a letter of the name made from it. *)
Lemma sanitize_keeps_letter line c :
  In c line -> isAlpha c = true -> In c (sanitize line).
Proof.
  intros Hin Ha. pose proof (alpha_not_space c Ha) as Hs.
  unfold sanitize. apply trim_keeps_unit; [|exact Hs].
  unfold replaceAll at 1. apply replaceScan_spaces_keeps; [exact Hs | constructor |].
  rewrite replaceAll_disallowed. apply flat_map_keeps; [exact Hin|].
  unfold allowedInName. rewrite Ha. reflexivity.
Qed.

(** A line that passes the three tests gives a name that is not empty: the
    test of the name after it is made never fails. *)
Lemma passesFilters_name line :
  passesFilters line = true -> truthy (sanitize line) = true.
Proof.
  unfold passesFilters. intro H.
  apply andb_true_iff in H. destruct H as [H Hlen].
  apply andb_true_iff in H. destruct H as [Hr _].
  apply negb_true_iff in Hr. apply negb_true_iff in Hlen.
  assert (Hne : line <> []) by (intros ->; discriminate).
  destruct (alphaRatio_letter line Hr Hne) as [c [Hin Ha]].
  pose proof (sanitize_keeps_letter line c Hin Ha) as Hs.
  destruct (sanitize line); [destruct Hs | reflexivity].
Qed.

(** One turn of the loop on a line that fails one of the three tests. *)
Lemma merchantLoop_skip_line lines i k found line :
  nth_error lines i = Some line -> passesFilters line = false ->
  merchantLoop lines i (S k) found = merchantLoop lines (S i) k found.
Proof.
  intros Hn Hp. cbn [merchantLoop]. rewrite Hn. unfold passesFilters in Hp.
  destruct (lt _ _); [reflexivity|].
  destruct (test skipKeywords line); [reflexivity|].
  destruct (length line <? 2); [reflexivity | discriminate].
Qed.

(** One turn of the loop on a line that passes them. *)
Lemma merchantLoop_take_line lines i k found line :
  nth_error lines i = Some line -> passesFilters line = true ->
  merchantLoop lines i (S k) found = Normal (sanitize line).
Proof.
  intros Hn Hp. cbn [merchantLoop]. rewrite Hn.
  rewrite (passesFilters_name line Hp). unfold passesFilters in Hp.
  destruct (lt _ _); [discriminate|].
  destruct (test skipKeywords line); [discriminate|].
  destruct (length line <? 2); [discriminate | reflexivity].
Qed.

Lemma merchantLoop_first below l found : forall above pre k,
  Forall (fun x => passesFilters x = false) above ->
  passesFilters l = true ->
  length above < k ->
  merchantLoop (pre ++ above ++ l :: below) (length pre) k found
  = Normal (sanitize l).
Proof.
  induction above as [|a above IH]; intros pre k Ha Hl Hk;
    (destruct k as [|k]; [inversion Hk|]).
  - apply merchantLoop_take_line; [|exact Hl].
    cbn [app]. rewrite nth_error_app2, Nat.sub_diag; [reflexivity | lia].
  - inversion Ha as [|? ? Hx Ha']; subst.
    rewrite (merchantLoop_skip_line _ _ _ _ a);
      [| cbn [app]; rewrite nth_error_app2, Nat.sub_diag; [reflexivity | lia] | exact Hx].
    pose proof (IH (pre ++ [a]) k Ha' Hl) as H.
    rewrite <- app_assoc in H. cbn [app] in H.
    rewrite length_app in H. cbn [length] in H.
    rewrite Nat.add_1_r in H. apply H. cbn [length] in Hk. lia.
Qed.

Lemma merchantLoop_none found : forall above pre below k,
  Forall (fun x => passesFilters x = false) above ->
  k <= length above ->
  merchantLoop (pre ++ above ++ below) (length pre) k found = Normal found.
Proof.
  induction above as [|a above IH]; intros pre below k Ha Hk;
    (destruct k as [|k]; [reflexivity|]); [cbn [length] in Hk; lia|].
  inversion Ha as [|? ? Hx Ha']; subst.
  rewrite (merchantLoop_skip_line _ _ _ _ a);
    [| cbn [app]; rewrite nth_error_app2, Nat.sub_diag; [reflexivity | lia] | exact Hx].
  pose proof (IH (pre ++ [a]) below k Ha') as H.
  rewrite <- app_assoc in H. cbn [app] in H.
  rewrite length_app in H. cbn [length] in H.
  rewrite Nat.add_1_r in H. apply H. cbn [length] in Hk. lia.
Qed.

(** X3: the merchant is the name made from the first line, among the first
    twelve, that passes the three tests (letters at least three tenths of
    the line, no keyword of the deny-list, two code units or more), and that
    name is never empty: the lines above it are passed over and the lines
    below it are not read. *)
Theorem merchant_first_name_line (text : jsstring) (above : list jsstring)
        (l : jsstring) (below : list jsstring) :
  linesOf text = above ++ l :: below ->
  length above < 12 ->
  Forall (fun x => passesFilters x = false) above ->
  passesFilters l = true ->
  exists r, parseReceiptText text = Normal r
            /\ merchant r = sanitize l /\ merchant r <> [].
Proof.
  intros Hl Hk Ha Hp.
  destruct (parse_normal text) as [t [m [_ [Hm Hr]]]].
  eexists. split; [exact Hr|]. cbn [merchant].
  rewrite Hl in Hm.
  rewrite (merchantLoop_first below l [] above [] _ Ha Hp) in Hm.
  - injection Hm as <-. split; [reflexivity|].
    pose proof (passesFilters_name l Hp) as Ht.
    intro E. rewrite E in Ht. discriminate.
  - rewrite length_app. cbn [length]. lia.
Qed.

Lemma merchant_first_name_line_witness :
  linesOf (str ("12345" ++ NL ++ "Joe's  Diner #4" ++ NL ++ "Total 5.00"))
  = [str "12345"] ++ str "Joe's  Diner #4" :: [str "Total 5.00"]
  /\ exists r, parseReceiptText
                 (str ("12345" ++ NL ++ "Joe's  Diner #4" ++ NL ++ "Total 5.00"))
               = Normal r
               /\ merchant r = sanitize (str "Joe's  Diner #4")
               /\ merchant r <> [].
Proof.
  assert (Hl : linesOf (str ("12345" ++ NL ++ "Joe's  Diner #4" ++ NL ++ "Total 5.00"))
               = [str "12345"] ++ str "Joe's  Diner #4" :: [str "Total 5.00"])
    by (vm_compute; reflexivity).
  split; [exact Hl|].
  apply (merchant_first_name_line _ _ _ _ Hl).
  - cbn [length]. lia.
  - constructor; [vm_compute; reflexivity | constructor].
  - vm_compute. reflexivity.
Defined.

Example merchant_name_made :
  sanitize (str "Joe's  Diner #4") = str "Joe's Diner 4".
Proof. vm_compute. reflexivity. Qed.

Lemma firstn_split_app {A} (n : nat) (l : list A) :
  l = firstn n l ++ skipn n l.
Proof. symmetry. apply firstn_skipn. Qed.

(** X4: the merchant is empty exactly when none of the first twelve lines
    passes the three tests; the lines after the twelfth are never read. *)
Theorem merchant_empty_iff (text : jsstring) :
  exists r, parseReceiptText text = Normal r
            /\ (merchant r = [] <->
                forallb (fun x => negb (passesFilters x))
                        (firstn 12 (linesOf text)) = true).
Proof.
  destruct (parse_normal text) as [t [m [_ [Hm Hr]]]].
  eexists. split; [exact Hr|]. cbn [merchant].
  set (lines := linesOf text) in *.
  destruct (forallb _ _) eqn:E.
  - split; [reflexivity | intros _].
    rewrite forallb_forall in E. 
    assert (F : Forall (fun x => passesFilters x = false) (firstn 12 lines)).
    { apply Forall_forall. intros x Hx. apply negb_true_iff, E, Hx. }
    rewrite (firstn_split_app 12 lines) in Hm at 1.
    rewrite (merchantLoop_none [] (firstn 12 lines) [] (skipn 12 lines)) in Hm.
    + injection Hm as <-. reflexivity.
    + exact F.
    + rewrite length_firstn. lia.
  - split; [|discriminate]. intro Em. exfalso.
    assert (Hex : exists above l below,
               firstn 12 lines = above ++ l :: below
               /\ Forall (fun x => passesFilters x = false) above
               /\ passesFilters l = true).
    { clear Hm Hr. induction (firstn 12 lines) as [|a rest IH]; [discriminate|].
      cbn [forallb] in E. destruct (passesFilters a) eqn:Ea.
      - exists [], a, rest. split; [reflexivity|]. split; [apply Forall_nil | exact Ea].
      - cbn [negb andb] in E. destruct (IH E) as [ab [l [bl [H1 [H2 H3]]]]].
        exists (a :: ab), l, bl. rewrite H1. split; [reflexivity|].
        split; [constructor; assumption | exact H3]. }
    destruct Hex as [above [l [below [H1 [H2 H3]]]]].
    assert (Hlen : length above < 12).
    { pose proof (length_firstn 12 lines) as Hf. rewrite H1, length_app in Hf.
      cbn [length] in Hf. lia. }
    rewrite (firstn_split_app 12 lines) in Hm at 1.
    rewrite H1, <- app_assoc in Hm. cbn [app] in Hm.
    rewrite (merchantLoop_first (below ++ skipn 12 lines) l [] above [] _ H2 H3) in Hm.
    + injection Hm as <-. pose proof (passesFilters_name l H3) as Ht.
      rewrite Em in Ht. discriminate.
    + pose proof (length_firstn 12 lines) as Hf. rewrite H1, length_app in Hf.
      cbn [length] in Hf.
      assert (length lines = length (firstn 12 lines) + length (skipn 12 lines))
        by (rewrite <- length_app, firstn_skipn; reflexivity).
      rewrite H1, length_app in H. cbn [length] in H. lia.
Qed.

(** ** Greedy runs of a class *)

Lemma skipClass_run f : forall s0 prev,
  exists r, s0 = r ++ snd (skipClass f prev s0)
            /\ Forall (fun c => f c = true) r.
Proof.
  induction s0 as [|c t IH]; intro prev; cbn [skipClass].
  - exists []. split; [reflexivity | constructor].
  - destruct (f c) eqn:E.
    + destruct (IH (Some c)) as [r [Hr F]]. exists (c :: r).
      split; [cbn [app]; rewrite <- Hr; reflexivity | constructor; assumption].
    + exists []. split; [reflexivity | constructor].
Qed.

Lemma skipClass_stops f : forall s0 prev c t,
  snd (skipClass f prev s0) = c :: t -> f c = false.
Proof.
  induction s0 as [|x s0 IH]; intros prev c t; cbn [skipClass].
  - discriminate.
  - destruct (f x) eqn:E; [apply IH|].
    cbn [snd]. intro H. injection H as <- _. exact E.
Qed.

Lemma ends_class_step i inv items prev c t :
  ends i (Class inv items) (prev, c :: t)
  = if accepts i inv items c then [(Some c, t)] else [].
Proof. reflexivity. Qed.

Lemma ends_class_nil i inv items prev : ends i (Class inv items) (prev, []) = [].
Proof. reflexivity. Qed.

(** A starred class first tries the longest run. *)
Lemma repeat_class_star i inv items : forall fuel s0 prev,
  length s0 < fuel ->
  exists rest,
    repeat (ends i (Class inv items)) fuel 0 None (prev, s0)
    = skipClass (accepts i inv items) prev s0 :: rest.
Proof.
  induction fuel as [|fuel IH]; intros s0 prev Hf; [inversion Hf|].
  cbn [repeat Nat.eqb andb]. destruct s0 as [|c t].
  - rewrite ends_class_nil. exists []. reflexivity.
  - rewrite ends_class_step. cbn [skipClass].
    destruct (accepts i inv items c).
    + cbn [flat_map snd length]. rewrite eqb_succ_false.
      destruct (IH t (Some c)) as [rest Hr]; [cbn [length] in Hf; lia|].
      cbn [pred option_map]. rewrite Hr. eexists. cbn [app]. reflexivity.
    + exists []. reflexivity.
Qed.

(** One more iteration that is required. *)
Lemma repeat_class_more i inv items fuel n prev s0 :
  repeat (ends i (Class inv items)) (S fuel) (S n) None (prev, s0)
  = match s0 with
    | c :: t =>
      if accepts i inv items c
      then repeat (ends i (Class inv items)) fuel n None (Some c, t)
      else []
    | [] => []
    end.
Proof.
  cbn [repeat Nat.eqb andb pred option_map]. destruct s0 as [|c t].
  - rewrite ends_class_nil. reflexivity.
  - rewrite ends_class_step. destruct (accepts i inv items c); [|reflexivity].
    cbn [flat_map]. apply app_nil_r.
Qed.

Lemma ends_quant i min max a st :
  ends i (Quant min max a) st
  = repeat (ends i a) (S (min + length (snd st))) min max st.
Proof. reflexivity. Qed.

Lemma space_accepts c : accepts false false [ClsSpace] c = isSpace c.
Proof. unfold accepts, inClass, inItem. cbn [existsb xorb]. apply orb_false_r. Qed.

(** The pattern of two or more white spaces matches where two white spaces
    stand, and then up to the end of the run. *)
Lemma ends_spacesG prev s0 :
  match s0 with
  | c1 :: c2 :: t =>
    if isSpace c1 && isSpace c2
    then exists rest,
        ends (ignoreCase spacesG) (pattern spacesG) (prev, s0)
        = skipClass isSpace (Some c2) t :: rest
    else ends (ignoreCase spacesG) (pattern spacesG) (prev, s0) = []
  | _ => ends (ignoreCase spacesG) (pattern spacesG) (prev, s0) = []
  end.
Proof.
  cbn [spacesG pattern ignoreCase]. unfold space. rewrite ends_quant. cbn [snd].
  destruct s0 as [|c1 [|c2 t]].
  - cbn [length Nat.add]. rewrite repeat_class_more. reflexivity.
  - cbn [length Nat.add]. rewrite !repeat_class_more, space_accepts.
    destruct (isSpace c1); reflexivity.
  - cbn [length Nat.add]. rewrite !repeat_class_more, !space_accepts.
    destruct (isSpace c1); [|reflexivity].
    destruct (isSpace c2); [|reflexivity]. cbn [andb].
    destruct (repeat_class_star false false [ClsSpace] (S (S (S (length t)))) t (Some c2))
      as [rest Hr]; [lia|].
    exists rest. rewrite Hr. f_equal.
    clear. generalize (Some c2). induction t as [|x t IH]; intro o; cbn [skipClass].
    + reflexivity.
    + rewrite space_accepts. destruct (isSpace x); [apply IH | reflexivity].
Qed.

Lemma replaceScan_skipped rx by_ x : forall r prev,
  exists prev', replaceScan rx by_ prev (r ++ x) (length r)
                = replaceScan rx by_ prev' x 0.
Proof.
  induction r as [|a r IH]; intro prev.
  - exists prev. reflexivity.
  - cbn [app length replaceScan]. apply IH.
Qed.

Lemma singleSpaced_cons a s0 :
  (isSpace a = true -> forall b q, s0 = b :: q -> isSpace b = false) ->
  singleSpaced s0 -> singleSpaced (a :: s0).
Proof.
  intros Ha Hs p a' b q E Hsp. destruct p as [|x p]; cbn [app] in E.
  - injection E as -> ->. apply (Ha Hsp b q). reflexivity.
  - injection E as -> E. apply (Hs p a' b q E Hsp).
Qed.

Lemma singleSpaced_nil : singleSpaced [].
Proof. intros p a b q E. destruct p; discriminate. Qed.

Lemma singleSpaced_occurs m l : occursIn m l -> singleSpaced l -> singleSpaced m.
Proof.
  intros [p0 [a0 ->]] H p a b q -> Hsp.
  apply (H (p0 ++ p) a b (q ++ a0)); [|exact Hsp].
  repeat (rewrite <- app_assoc; cbn [app]). reflexivity.
Qed.

(** After the runs of two or more white spaces are replaced by one space,
    no white space is followed by another, and a text that does not start
    with a white space still does not. *)
Lemma replaceScan_spaces_single : forall n s0 prev,
  length s0 <= n ->
  singleSpaced (replaceScan spacesG (str " ") prev s0 0)
  /\ ((forall c t, s0 = c :: t -> isSpace c = false) ->
      forall b q, replaceScan spacesG (str " ") prev s0 0 = b :: q ->
                  isSpace b = false).
Proof.
  induction n as [|n IH]; intros s0 prev Hn.
  - destruct s0; [|inversion Hn]. cbn [replaceScan]. unfold jsstring in *.
    pose proof (ends_spacesG prev []) as E. cbn beta iota in E. rewrite E.
    split; [apply singleSpaced_nil | discriminate].
  - pose proof (ends_spacesG prev s0) as E.
    destruct s0 as [|c1 t1].
    { cbn [replaceScan]. unfold jsstring in *. rewrite E.
      split; [apply singleSpaced_nil | discriminate]. }
    assert (Hno : ends (ignoreCase spacesG) (pattern spacesG) (prev, c1 :: t1) = [] ->
                  (isSpace c1 = true -> forall c t, t1 = c :: t -> isSpace c = false) ->
                  singleSpaced (replaceScan spacesG (str " ") prev (c1 :: t1) 0)
                  /\ ((forall c t, c1 :: t1 = c :: t -> isSpace c = false) ->
                      forall b q,
                        replaceScan spacesG (str " ") prev (c1 :: t1) 0 = b :: q ->
                        isSpace b = false)).
    { intros E0 Hnext. cbn [replaceScan]. unfold jsstring in *. rewrite E0.
      destruct (IH t1 (Some c1)) as [Hs Hh]; [cbn [length] in Hn; lia|].
      split.
      - apply singleSpaced_cons; [|exact Hs].
        intros Hc b q Hb. apply (Hh (Hnext Hc) b q Hb).
      - intros Hc b q Hb. injection Hb as <- _. apply (Hc c1 t1). reflexivity. }
    destruct t1 as [|c2 t].
    { apply Hno; [exact E | discriminate]. }
    destruct (isSpace c1) eqn:E1; cbn [andb] in E.
    + destruct (isSpace c2) eqn:E2.
      * destruct E as [rest E]. cbn [replaceScan]. unfold jsstring in *. rewrite E.
        destruct (skipClass_run isSpace t (Some c2)) as [r [Hr F]].
        pose proof (skipClass_stops isSpace t (Some c2)) as Hstop.
        destruct (skipClass isSpace (Some c2) t) as [pe x] eqn:Ee.
        cbn [snd] in Hr, Hstop.
        assert (Hk : consumed (prev, c1 :: c2 :: t) (pe, x) = c1 :: c2 :: r).
        { rewrite Hr. apply (consumed_app prev (c1 :: c2 :: r) (pe, x)). }
        unfold jsstring in *. rewrite Hk. cbn [length Nat.eqb pred app replaceScan].
        destruct (replaceScan_skipped spacesG (str " ") x r (Some c2))
          as [prev' Hp].
        rewrite Hr, Hp.
        destruct (IH x prev') as [Hs Hh].
        { apply (f_equal (@length _)) in Hr. rewrite length_app in Hr.
          cbn [length] in Hn. lia. }
        split.
        -- apply singleSpaced_cons; [|exact Hs].
           intros _ b q Hb. apply (Hh Hstop b q Hb).
        -- intros Hc. specialize (Hc c1 _ eq_refl). congruence.
      * apply Hno; [exact E|]. intros _ c t0 Hc. injection Hc as <- _. exact E2.
    + apply Hno; [exact E | discriminate].
Qed.

Lemma sanitize_singleSpaced line : singleSpaced (sanitize line).
Proof.
  unfold sanitize. apply (singleSpaced_occurs _ _ (trim_occurs _)).
  unfold replaceAll at 1.
  apply (replaceScan_spaces_single _ _ None (le_n _)).
Qed.

Lemma sanitize_allowed line : Forall (fun c => allowedInName c = true) (sanitize line).
Proof.
  unfold sanitize. apply (occursIn_Forall _ _ _ (trim_occurs _)).
  unfold replaceAll at 1. apply replaceScan_Forall.
  - constructor; [reflexivity | constructor].
  - rewrite replaceAll_disallowed.
    pose proof (flat_map_kept (fun c => negb (allowedInName c)) line) as H.
    eapply Forall_impl; [|exact H]. intros c Hc. cbn beta in Hc.
    apply negb_false_iff in Hc. exact Hc.
Qed.

(** What the merchant scan returns is the value it starts with or the
    name made from a line. *)
Lemma merchantLoop_result lines : forall k i found m,
  merchantLoop lines i k found = Normal m ->
  m = found \/ exists line, In line lines /\ m = sanitize line.
Proof.
  induction k as [|k IH]; intros i found m H; cbn [merchantLoop] in H.
  - injection H as <-. left. reflexivity.
  - destruct (nth_error lines i) as [line|] eqn:E; [|discriminate].
    destruct (lt _ _); [apply (IH _ _ _ H)|].
    destruct (test skipKeywords line); [apply (IH _ _ _ H)|].
    destruct (length line <? 2); [apply (IH _ _ _ H)|].
    destruct (truthy (sanitize line)).
    + injection H as <-. right. exists line.
      split; [apply (nth_error_In _ _ E) | reflexivity].
    + destruct (IH _ _ _ H) as [->|Hx]; [|right; exact Hx].
      right. exists line. split; [apply (nth_error_In _ _ E) | reflexivity].
Qed.

(** X5: the merchant holds only letters, digits and the code units space,
    point, comma, ampersand, apostrophe and hyphen; it neither starts nor
    ends with a space, and no space in it is followed by another. *)
Theorem merchant_is_clean (text : jsstring) :
  exists r, parseReceiptText text = Normal r
    /\ Forall (fun c => allowedInName c = true) (merchant r)
    /\ (forall c t, merchant r = c :: t -> isSpace c = false)
    /\ (forall t c, merchant r = t ++ [c] -> isSpace c = false)
    /\ singleSpaced (merchant r).
Proof.
  destruct (parse_normal text) as [t [m [_ [Hm Hr]]]].
  eexists. split; [exact Hr|]. cbn [merchant].
  destruct (merchantLoop_result _ _ _ _ _ Hm) as [->|[line [_ ->]]].
  - split; [constructor|]. split; [discriminate|].
    split; [intros [|? ?] ?; discriminate | apply singleSpaced_nil].
  - split; [apply sanitize_allowed|].
    split; [intros c t0; apply trim_head|].
    split; [intros t0 c; apply trim_last | apply sanitize_singleSpaced].
Qed.

(** ** Where the total comes from *)

Lemma junk_accepts c :
  accepts false true [Range (cu "0") (cu "9"); One (cu "$"); One EURO; One POUND] c
  = negb (amountStart c).
Proof.
  unfold accepts, amountStart, inClass, inItem, isDigit.
  cbn [existsb xorb andb]. rewrite !canon_false, !orb_false_r.
  rewrite (N.eqb_sym (cu "$")), (N.eqb_sym EURO), (N.eqb_sym POUND).
  rewrite !orb_assoc. reflexivity.
Qed.

Lemma search_cons rx prev c t :
  search rx prev (c :: t)
  = match ends (ignoreCase rx) (pattern rx) (prev, c :: t) with
    | e :: _ => Some ([], consumed (prev, c :: t) e, snd e)
    | [] =>
      match search rx (Some c) t with
      | Some (p, m, a) => Some (c :: p, m, a)
      | None => None
      end
    end.
Proof. reflexivity. Qed.

Lemma ends_leadingJunk c t :
  ends (ignoreCase leadingJunk) (pattern leadingJunk) (None, c :: t)
  = if amountStart c then []
    else repeat (ends false (Class true [Range (cu "0") (cu "9"); One (cu "$");
                                         One EURO; One POUND]))
                (S (length (c :: t))) 0 None (Some c, t).
Proof.
  transitivity
    (repeat (ends false (Class true [Range (cu "0") (cu "9"); One (cu "$");
                                     One EURO; One POUND]))
            (S (S (length (c :: t)))) 1 None (None, c :: t)).
  - cbn [leadingJunk pattern ignoreCase ends fst flat_map]. rewrite app_nil_r.
    reflexivity.
  - rewrite repeat_class_more, junk_accepts.
    destruct (amountStart c); reflexivity.
Qed.

(** Removing the leading junk leaves the text from its first digit or
    currency sign on. *)
Lemma replace_leadingJunk_skip m1 :
  replace m1 leadingJunk []
  = snd (skipClass (fun c => negb (amountStart c)) None m1).
Proof.
  unfold replace, exec. destruct m1 as [|c t]; [reflexivity|].
  rewrite search_cons, ends_leadingJunk. cbn [skipClass].
  destruct (amountStart c) eqn:Ec; cbn [negb].
  - rewrite search_leadingJunk_inside. reflexivity.
  - destruct (repeat_class_star false true
                [Range (cu "0") (cu "9"); One (cu "$"); One EURO; One POUND]
                (S (length (c :: t))) t (Some c)) as [rest Hr];
      [cbn [length]; lia|].
    rewrite Hr. cbn [app]. f_equal.
    clear. generalize (Some c). induction t as [|x t IH]; intro o; cbn [skipClass].
    + reflexivity.
    + rewrite junk_accepts. destruct (amountStart x); cbn [negb];
        [reflexivity | apply IH].
Qed.

Lemma occursIn_cons c m t : occursIn m t -> occursIn m (c :: t).
Proof. intros [p [a ->]]. exists (c :: p), a. reflexivity. Qed.

Lemma occursIn_firstn n (s0 : jsstring) : occursIn (firstn n s0) s0.
Proof.
  exists [], (skipn n s0). cbn [app]. symmetry. apply firstn_skipn.
Qed.

Lemma match0_occurs s0 rx m : match0 s0 rx = Some m -> occursIn m s0.
Proof.
  intro H. destruct (match0_first _ _ _ H) as [p [a [E _]]].
  exists p, a. exact E.
Qed.

(** Every match of a scan is a part of the text scanned. *)
Lemma scan_occurs rx m : forall s0 skip prev,
  In m (scan rx prev s0 skip) -> occursIn m s0.
Proof.
  induction s0 as [|c t IH]; intros skip prev H.
  - destruct skip; cbn [scan] in H; [|destruct H].
    destruct (ends _ _ _) as [|e l]; [destruct H|].
    destruct H as [<-|[]]. apply (occursIn_firstn _ []).
  - destruct skip; cbn [scan] in H.
    + destruct (ends _ _ _) as [|e l].
      * apply occursIn_cons, (IH _ _ H).
      * destruct H as [<-|H]; [apply (occursIn_firstn _ (c :: t))|].
        apply occursIn_cons, (IH _ _ H).
    + apply occursIn_cons, (IH _ _ H).
Qed.

Lemma amountsOf_occurs lines c :
  In c (amountsOf lines) -> exists l, In l lines /\ occursIn c l.
Proof.
  unfold amountsOf. intro H. apply in_flat_map in H.
  destruct H as [l [Hl H]]. exists l. split; [exact Hl|].
  unfold matchAll in H.
  destruct (scan amountG None l 0) as [|x y] eqn:E; [destruct H|].
  rewrite <- E in H. apply (scan_occurs _ _ _ _ _ H).
Qed.

Lemma amountStart_not_space c : amountStart c = true -> isSpace c = false.
Proof.
  unfold amountStart. intro H.
  destruct (isDigit c) eqn:Ed; [apply digit_not_space, Ed|].
  cbn [orb] in H.
  destruct (N.eqb_spec c (cu "$")) as [->|_]; [reflexivity|].
  destruct (N.eqb_spec c EURO) as [->|_]; [reflexivity|].
  destruct (N.eqb_spec c POUND) as [->|_]; [reflexivity | discriminate].
Qed.

(** The total of a currency-anchored match is a part of the match that
    starts with a digit or a currency sign. *)
Lemma currency_total_start l m1 :
  match0 l currencyAmount = Some m1 ->
  occursIn (trim (replace m1 leadingJunk [])) l
  /\ headIs amountStart (trim (replace m1 leadingJunk [])).
Proof.
  intro H. pose proof (currency_total_shape _ _ H) as [m [d1 [d2 [E _]]]].
  pose proof (match0_occurs _ _ _ H) as Ho.
  rewrite replace_leadingJunk_skip in *.
  destruct (skipClass_run (fun c => negb (amountStart c)) m1 None) as [r [Hr _]].
  pose proof (skipClass_stops (fun c => negb (amountStart c)) m1 None) as Hs.
  destruct (snd (skipClass (fun c => negb (amountStart c)) None m1)) as [|c t].
  - destruct m; discriminate.
  - split.
    + apply (occursIn_trans _ _ _ (trim_occurs _)).
      apply (occursIn_trans _ m1); [|exact Ho].
      exists r, []. rewrite app_nil_r. exact Hr.
    + specialize (Hs c t eq_refl). apply negb_false_iff in Hs.
      exists c, (trimEnd t). split; [|exact Hs].
      unfold trim. cbn [trimStart].
      rewrite (amountStart_not_space _ Hs). apply trimEnd_cons.
      apply amountStart_not_space, Hs.
Qed.

Lemma amountShaped_start t : amountShaped t -> headIs amountStart t.
Proof.
  intros [c [m [d1 [d2 [-> [Hc _]]]]]]. exists c, (m ++ [DOT; d1; d2]).
  split; [reflexivity|]. unfold amountStart. rewrite Hc. reflexivity.
Qed.

Lemma totalLoop_source lines : forall n t,
  totalLoop lines n = Normal t ->
  t = [] \/ ((exists l, In l lines /\ occursIn t l) /\ headIs amountStart t).
Proof.
  induction n as [|i IH]; intros t H; cbn [totalLoop] in H.
  - injection H as <-. left. reflexivity.
  - destruct (test totalKeyword (toString (nth_error lines i))); [|auto].
    destruct (nth_error lines i) as [l|] eqn:El; [|discriminate].
    pose proof (nth_error_In _ _ El) as Hin.
    destruct (match0 l currencyAmount) as [m1|] eqn:E1.
    + injection H as <-. right.
      destruct (currency_total_start _ _ E1) as [Ho Hh].
      split; [exists l; split; assumption | exact Hh].
    + destruct (match0 l amountOnly) as [m2|] eqn:E2; [|auto].
      injection H as <-. right. split.
      * exists l. split; [exact Hin | apply (match0_occurs _ _ _ E2)].
      * apply amountShaped_start, (bare_total_shape _ _ E2).
Qed.

Lemma maxTotal_source lines :
  maxTotal lines = []
  \/ ((exists l, In l lines /\ occursIn (maxTotal lines) l)
      /\ headIs amountStart (maxTotal lines)).
Proof.
  unfold maxTotal. rewrite maxLine_fold.
  pose proof (maxStep_fold (amountsOf lines) minusOne [] eq_refl) as P.
  cbn zeta in P.
  destruct (fold_left maxStep (amountsOf lines) _) as [maxVal maxStr].
  destruct P as [_ [_ [_ D1]]].
  cbn [fst snd] in *. destruct (gt maxVal zero); [|left; reflexivity].
  destruct D1 as [D1|[Hm _]].
  - injection D1 as -> ->. left. reflexivity.
  - right. split; [apply amountsOf_occurs, Hm|].
    apply amountShaped_start, (amountsOf_shaped _ _ Hm).
Qed.

(** X6: a total that is not empty is a part of one of the lines of the
    text, copied as it stands there, and it starts with a digit or with the
    sign of the dollar, the euro or the pound: the letters of a currency
    code before the amount are never part of it. *)
Theorem total_from_a_line (text : jsstring) :
  exists r, parseReceiptText text = Normal r
    /\ (total r = []
        \/ ((exists l, In l (linesOf text) /\ occursIn (total r) l)
            /\ headIs amountStart (total r))).
Proof.
  destruct (parse_normal text) as [t [m [Ht [_ Hr]]]].
  eexists. split; [exact Hr|]. cbn [total].
  destruct (truthy t) eqn:E.
  - destruct (totalLoop_source _ _ _ Ht) as [->|H]; [discriminate | right; exact H].
  - apply maxTotal_source.
Qed.

(** ** The first and the last code unit of a match *)

Lemma mustStart_sound i P r : mustStart i r P ->
  forall st e, In e (ends i r st) ->
  exists c m, snd st = c :: m ++ snd e /\ P c.
Proof.
  induction r; intros A st e H; cbn [mustStart] in A; try contradiction.
  - apply ends_char in H. destruct H as [x [E [C _]]].
    exists x, []. split; [exact E | apply A, C].
  - apply ends_class in H. destruct H as [x [E [C _]]].
    exists x, []. split; [exact E | apply A, C].
  - apply ends_seq in H. destruct H as [mid [H1 H2]]. destruct A as [A|[A1 A2]].
    + destruct (IHr1 A _ _ H1) as [c [m [E Pc]]].
      destruct (ends_suffix _ _ _ _ H2) as [m2 E2].
      exists c, (m ++ m2). split; [|exact Pc].
      rewrite E, E2, <- app_assoc. reflexivity.
    + destruct (ends_spans _ _ _ A1 _ _ H1) as [m1 [E1 F]].
      destruct (IHr2 A2 _ _ H2) as [c [m [E Pc]]].
      destruct m1 as [|x m1].
      * exists c, m. split; [rewrite E1; exact E | exact Pc].
      * inversion F as [|? ? Px _]; subst. exists x, (m1 ++ c :: m).
        split; [|exact Px]. rewrite E1, E. cbn [app]. rewrite <- app_assoc.
        reflexivity.
  - apply ends_disj in H. destruct A as [A1 A2]. destruct H; auto.
  - destruct min as [|n]; [contradiction|]. destruct A as [Hmax A].
    rewrite ends_quant in H. apply (repeat_first _ _ _ _ _ _ Hmax) in H.
    destruct H as [mid [H1 H2]].
    destruct (IHr A _ _ H1) as [c [m [E Pc]]].
    apply (repeat_suffix _ (ends_suffix i r)) in H2. destruct H2 as [m2 E2].
    exists c, (m ++ m2). split; [|exact Pc].
    rewrite E, E2, <- app_assoc. reflexivity.
Qed.

Lemma endsOn_after P a b c : suffixOf a b -> endsOn P b c -> endsOn P a c.
Proof.
  intros [m1 E1] [m [x [E Px]]]. exists (m1 ++ m), x.
  split; [|exact Px]. rewrite E1, E, <- app_assoc. reflexivity.
Qed.

Lemma repeat_endsOn P (body : state -> list state) :
  (forall st e, In e (body st) -> suffixOf st e) ->
  (forall st e, In e (body st) -> endsOn P st e) ->
  forall fuel min max st e,
    In e (repeat body fuel min max st) -> e = st \/ endsOn P st e.
Proof.
  intros Hs Hb fuel min max st e.
  apply (repeat_keeps body (fun a b => b = a \/ endsOn P a b)).
  - intro a. left. reflexivity.
  - intros a b c [->|Hab] [->|Hbc]; auto.
    right. apply (endsOn_after P a b c); [|exact Hbc].
    destruct Hab as [m [x [E _]]]. exists (m ++ [x]).
    rewrite E, <- app_assoc. reflexivity.
  - intros a b Hin. right. apply Hb, Hin.
Qed.

Lemma mustEnd_sound i P r : mustEnd i r P ->
  forall st e, In e (ends i r st) -> endsOn P st e.
Proof.
  induction r; intros A st e H; cbn [mustEnd] in A; try contradiction.
  - apply ends_char in H. destruct H as [x [E [C _]]].
    exists [], x. split; [exact E | apply A, C].
  - apply ends_class in H. destruct H as [x [E [C _]]].
    exists [], x. split; [exact E | apply A, C].
  - apply ends_seq in H. destruct H as [mid [H1 H2]]. destruct A as [A|[A1 A2]].
    + apply (endsOn_after P st mid e); [apply (ends_suffix _ _ _ _ H1)|].
      apply (IHr2 A _ _ H2).
    + destruct (ends_spans _ _ _ A1 _ _ H2) as [m2 [E2 F]].
      destruct (IHr1 A2 _ _ H1) as [m [c [E Pc]]].
      revert E2 F. induction m2 as [|x y _] using rev_ind; intros E2 F.
      * cbn [app] in E2. exists m, c. split; [rewrite E, E2; reflexivity | exact Pc].
      * apply Forall_app in F. destruct F as [_ F].
        inversion F as [|? ? Px _]; subst.
        exists (m ++ c :: y), x. split; [|exact Px].
        rewrite E, E2. repeat (rewrite <- app_assoc; cbn [app]). reflexivity.
  - apply ends_disj in H. destruct A as [A1 A2]. destruct H; auto.
  - destruct min as [|n]; [contradiction|]. destruct A as [Hmax A].
    rewrite ends_quant in H. apply (repeat_first _ _ _ _ _ _ Hmax) in H.
    destruct H as [mid [H1 H2]].
    pose proof (IHr A _ _ H1) as Hfirst.
    apply (repeat_endsOn P _ (ends_suffix i r) (IHr A)) in H2.
    destruct H2 as [->|H2]; [exact Hfirst|].
    apply (endsOn_after P st mid e); [apply (ends_suffix _ _ _ _ H1) | exact H2].
Qed.

Ltac bounds :=
  repeat match goal with
         | H : (_ && _) = true |- _ => apply andb_true_iff in H; destruct H
         | H : (_ <=? _)%N = true |- _ => apply N.leb_le in H
         | H : (_ <=? _)%N = false |- _ => apply N.leb_gt in H
         | H : (_ =? _)%N = true |- _ => apply N.eqb_eq in H
         end.

Lemma canon_digit i a c :
  isDigit a = true -> canon i a = canon i c -> isDigit c = true.
Proof.
  unfold canon, isLower, isDigit, between. intros Ha E.
  assert (Hl : ((97 <=? a) && (a <=? 122))%N = false).
  { bounds. apply andb_false_iff. left. apply N.leb_gt. lia. }
  rewrite Hl, andb_false_r in E.
  destruct (i && ((97 <=? c) && (c <=? 122))%N) eqn:Ec.
  - apply andb_true_iff in Ec. destruct Ec as [_ Ec]. bounds. lia.
  - rewrite <- E. exact Ha.
Qed.

Lemma swapCase_digit c : isDigit (swapCase c) = true -> isDigit c = true.
Proof.
  unfold swapCase, isLower, isUpper, isDigit, between.
  destruct ((97 <=? c) && (c <=? 122))%N eqn:El.
  - intro H. bounds. lia.
  - destruct ((65 <=? c) && (c <=? 90))%N eqn:Eu; [|auto].
    intro H. bounds. lia.
Qed.

Lemma inItem_digit i it c :
  digitItem it = true -> inItem i it c = true -> isDigit c = true.
Proof.
  destruct it as [a|lo hi| | |]; cbn [digitItem inItem]; intros Hd H;
    try discriminate.
  - apply N.eqb_eq in H. apply (canon_digit i a c Hd H).
  - assert (Hr : forall x, between lo hi x = true -> isDigit x = true).
    { intros x Hx. unfold between, isDigit in *. bounds.
      apply andb_true_iff. split; apply N.leb_le; lia. }
    apply orb_true_iff in H. destruct H as [H|H]; [apply Hr, H|].
    apply andb_true_iff in H. destruct H as [_ H].
    apply swapCase_digit, Hr, H.
  - exact H.
Qed.

Lemma class_digit i items :
  forallb digitItem items = true ->
  forall c, accepts i false items c = true -> isDigit c = true.
Proof.
  intros Hd c H. unfold accepts, inClass in H. cbn [xorb] in H.
  apply existsb_exists in H. destruct H as [it [Hin H]].
  rewrite forallb_forall in Hd. apply (inItem_digit i it c (Hd it Hin) H).
Qed.

Ltac edges :=
  cbn [pattern ignoreCase fold_right list_ascii_of_string mustStart mustEnd alphabet];
  lazymatch goal with
  | |- _ /\ _ => split; edges
  | |- _ \/ _ => solve [left; edges] || solve [right; edges]
  | |- forall c, canon _ _ = canon _ c -> @?Q c =>
    let c := fresh "c" in
    let Hc := fresh "Hc" in
    intros c Hc; eapply canon_digit; [|exact Hc]; reflexivity
  | |- forall c, accepts _ false _ c = true -> @?Q c => apply class_digit; reflexivity
  | |- _ <> Some 0 => discriminate
  | |- True => exact I
  end.

(** Every date pattern starts with a digit and ends with one. *)
Lemma datePatterns_digits rx :
  In rx datePatterns ->
  mustStart (ignoreCase rx) (pattern rx) (fun c => isDigit c = true)
  /\ mustEnd (ignoreCase rx) (pattern rx) (fun c => isDigit c = true).
Proof.
  intros [<-|[<-|[<-|[<-|[]]]]];
    unfold Date.ymd, Date.mdy, Date.dmy, Date.dMonthY, Date.year, Date.month,
      Date.day, seqs, alts, lit, times, opt, plus, star, digit;
    edges.
Qed.

(** ** The date lies inside one line *)

Lemma occursIn_nil_inv (m : jsstring) : occursIn m [] -> m = [].
Proof.
  intros [p [a E]]. symmetry in E. apply app_eq_nil in E. destruct E as [_ E].
  apply app_eq_nil in E. apply E.
Qed.

Lemma occursIn_split_at m A c B :
  occursIn m (A ++ c :: B) -> ~ In c m -> occursIn m A \/ occursIn m B.
Proof.
  intros [p [a E]] Hc. apply app_eq_app in E. destruct E as [l [[E1 E2]|[E1 E2]]].
  - apply app_eq_app in E2.
    destruct E2 as [l2 [[E3 E4]|[E3 E4]]].
    + destruct l2 as [|x l2].
      * left. exists p, []. rewrite E1, E3, !app_nil_r. reflexivity.
      * cbn [app] in E4. injection E4 as <- _. exfalso. apply Hc.
        rewrite E3. apply in_or_app. right. left. reflexivity.
    + left. exists p, l2. rewrite E1, E3. reflexivity.
  - destruct l as [|x l]; cbn [app] in E2.
    + destruct m as [|y m]; [left; exists [], A; reflexivity|].
      cbn [app] in E2. injection E2 as <- _. exfalso. apply Hc. left. reflexivity.
    + injection E2 as _ E2. right. exists l, a. exact E2.
Qed.

Lemma occursIn_before_last m A c :
  occursIn m (A ++ [c]) -> (forall t x, m = t ++ [x] -> x <> c) -> m <> [] ->
  occursIn m A.
Proof.
  intros [p [a E]] Hl Hm. induction a as [|y a' _] using rev_ind.
  - rewrite app_nil_r in E. induction m as [|x t _] using rev_ind; [congruence|].
    rewrite app_assoc in E. apply app_inj_tail in E. destruct E as [_ <-].
    exfalso. apply (Hl t c eq_refl eq_refl).
  - rewrite !app_assoc in E. apply app_inj_tail in E. destruct E as [E _].
    exists p, a'. rewrite E, app_assoc. reflexivity.
Qed.

Lemma occursIn_after_first m c B :
  occursIn m (c :: B) -> (forall x t, m = x :: t -> x <> c) -> m <> [] ->
  occursIn m B.
Proof.
  intros [p [a E]] Hf Hm. destruct p as [|x p]; cbn [app] in E.
  - destruct m as [|y m]; [congruence|]. cbn [app] in E. injection E as <- _.
    exfalso. apply (Hf c m eq_refl eq_refl).
  - injection E as _ E. exists p, a. exact E.
Qed.

Lemma join_two x y rest sep :
  join (x :: y :: rest) sep = x ++ sep ++ join (y :: rest) sep.
Proof. reflexivity. Qed.

(** A run of code units without a backslash that starts with a digit and
    ends with one, if it occurs in the lines joined by the separator,
    occurs in one of the lines. *)
Lemma join_occurs m :
  m <> [] -> ~ In BACKSLASH m ->
  (forall x t, m = x :: t -> isDigit x = true) ->
  (forall t x, m = t ++ [x] -> isDigit x = true) ->
  forall lines, occursIn m (join lines separator) ->
                exists l, In l lines /\ occursIn m l.
Proof.
  intros Hm Hb Hf Hl. induction lines as [|x|x y rest _ IH] using list_ind2; intro H.
  - apply occursIn_nil_inv in H. congruence.
  - exists x. split; [left; reflexivity | exact H].
  - rewrite join_two in H.
    replace (x ++ separator ++ join (y :: rest) separator)
      with ((x ++ [cu " "])
              ++ BACKSLASH :: cu "n" :: cu " " :: join (y :: rest) separator) in H
      by (rewrite <- app_assoc; reflexivity).
    apply occursIn_split_at in H; [|exact Hb]. destruct H as [H|H].
    + exists x. split; [left; reflexivity|].
      apply (occursIn_before_last m x (cu " ") H); [|exact Hm].
      intros t c E Ec. subst c. specialize (Hl _ _ E). discriminate.
    + apply occursIn_after_first in H; [|
        intros c t E Ec; subst c; specialize (Hf _ _ E); discriminate | exact Hm].
      apply occursIn_after_first in H; [|
        intros c t E Ec; subst c; specialize (Hf _ _ E); discriminate | exact Hm].
      destruct (IH H) as [l [Hin Ho]].
      exists l. split; [right; exact Hin | exact Ho].
Qed.

(** What a date pattern matches: no backslash, a digit first and a digit
    last. *)
Lemma date_match_shape fullText rx m :
  In rx datePatterns -> match0 fullText rx = Some m ->
  occursIn m fullText /\ ~ In BACKSLASH m
  /\ headIs isDigit m /\ exists t c, m = t ++ [c] /\ isDigit c = true.
Proof.
  intros Hrx H. pose proof (match0_occurs _ _ _ H) as Ho.
  split; [exact Ho|]. apply match0_sound in H. destruct H as [st [e [Hin E]]].
  destruct (datePatterns_digits rx Hrx) as [Hs He].
  split; [|split].
  - destruct (ends_spans _ _ _ (datePatterns_alphabet rx Hrx) _ _ Hin) as [m' [E' F]].
    rewrite E in E'. apply app_inv_tail in E'. subst m'.
    intro Hb. rewrite Forall_forall in F. apply (F _ Hb). reflexivity.
  - destruct (mustStart_sound _ _ _ Hs _ _ Hin) as [c [m' [E' Pc]]].
    rewrite E in E'. change (c :: m' ++ snd e) with ((c :: m') ++ snd e) in E'.
    apply app_inv_tail in E'. exists c, m'. split; assumption.
  - destruct (mustEnd_sound _ _ _ He _ _ Hin) as [m' [c [E' Pc]]].
    rewrite E in E'.
    replace (m' ++ c :: snd e) with ((m' ++ [c]) ++ snd e) in E'
      by (rewrite <- app_assoc; reflexivity).
    apply app_inv_tail in E'. exists m', c. split; assumption.
Qed.

(** The date found is empty, or a part of one line that starts with a digit
    and ends with one. *)
Lemma dateLoop_in_line lines :
  let d := dateLoop datePatterns (join lines separator) in
  d = []
  \/ ((exists l, In l lines /\ occursIn d l)
      /\ headIs isDigit d /\ exists t c, d = t ++ [c] /\ isDigit c = true).
Proof.
  cbn zeta.
  destruct (dateLoop_match (join lines separator) datePatterns)
    as [E|[rx [Hrx E]]]; [left; exact E|].
  right. destruct (date_match_shape _ _ _ Hrx E) as [Ho [Hb [Hh Hl]]].
  split; [|split; assumption].
  destruct Hh as [c [t0 [Ec Hc]]]. destruct Hl as [t1 [c1 [E1 Hc1]]].
  apply (join_occurs _) with (lines := lines); try assumption.
  - rewrite Ec. discriminate.
  - intros x t2 Ex. rewrite Ec in Ex. injection Ex as <- _. exact Hc.
  - intros t2 x Ex. rewrite E1 in Ex. apply app_inj_tail in Ex.
    destruct Ex as [_ <-]. exact Hc1.
Qed.

(** X7: a date that is not empty starts with a digit, ends with a digit
    and is a part of one of the lines of the text: the search runs over the
    joined lines, but no date reaches from one line into the next. *)
Theorem date_in_one_line (text : jsstring) :
  exists r, parseReceiptText text = Normal r
    /\ (date r = []
        \/ ((exists l, In l (linesOf text) /\ occursIn (date r) l)
            /\ headIs isDigit (date r)
            /\ exists t c, date r = t ++ [c] /\ isDigit c = true)).
Proof.
  destruct (parse_normal text) as [t [m [_ [_ Hr]]]].
  eexists. split; [exact Hr|]. cbn [date]. apply dateLoop_in_line.
Qed.

(** ** The fields of a receipt in the file *)

Lemma line_without_LF text l : In l (linesOf text) -> ~ In LF l.
Proof.
  intro H. destruct (linesOf_inv _ _ H) as [_ [p [Hp ->]]].
  pose proof (lineSplit_no_LF text [] (fun x => x)) as F.
  rewrite Forall_forall in F. specialize (F p Hp).
  intro Hin. apply F.
  destruct (trim_occurs p) as [a [b E]]. rewrite E.
  apply in_or_app. right. apply in_or_app. left. exact Hin.
Qed.

Lemma occursIn_In c m l : occursIn m l -> In c m -> In c l.
Proof.
  intros [a [b ->]] H. apply in_or_app. right. apply in_or_app. left. exact H.
Qed.

Lemma match0_alphabet rx (P : char -> Prop) s0 m :
  alphabet (ignoreCase rx) (pattern rx) P -> match0 s0 rx = Some m -> Forall P m.
Proof.
  intros A H. apply match0_sound in H. destruct H as [st [e [He Hs]]].
  apply (ends_spans _ _ _ A) in He. destruct He as [m' [Hs' F]].
  rewrite Hs' in Hs. apply app_inv_tail in Hs. subst m'. exact F.
Qed.

Lemma amountsOf_alphabet (P : char -> Prop) lines c :
  alphabet false amount P -> In c (amountsOf lines) -> Forall P c.
Proof.
  intros A H. unfold amountsOf in H. apply in_flat_map in H.
  destruct H as [l [_ H]]. destruct (matchAll l amountG) as [ms|] eqn:E; [|destruct H].
  destruct (matchAll_sound _ _ _ _ E H) as [st [e [He Hs]]].
  apply (ends_spans _ _ _ A) in He. destruct He as [m' [Hs' F]].
  rewrite Hs' in Hs. apply app_inv_tail in Hs. subst m'. exact F.
Qed.

Lemma junk_trim_occurs m1 : occursIn (trim (replace m1 leadingJunk [])) m1.
Proof.
  apply (occursIn_trans _ _ _ (trim_occurs _)).
  destruct (replace_leadingJunk m1) as [j [t [E [-> _]]]].
  exists j, []. rewrite app_nil_r. exact E.
Qed.

(** No pattern of the extraction consumes a double quote, and no date
    pattern a comma. *)
Lemma patterns_without_quote :
  (forall rx, In rx datePatterns ->
     alphabet (ignoreCase rx) (pattern rx) (fun c => c <> DQUOTE))
  /\ (forall rx, In rx datePatterns ->
        alphabet (ignoreCase rx) (pattern rx) (fun c => c <> COMMA))
  /\ alphabet false (pattern currencyAmount) (fun c => c <> DQUOTE)
  /\ alphabet false (pattern amountOnly) (fun c => c <> DQUOTE)
  /\ alphabet false amount (fun c => c <> DQUOTE).
Proof.
  split; [|split; [|split; [|split]]].
  - intros rx [<-|[<-|[<-|[<-|[]]]]]; alphabet_without.
  - intros rx [<-|[<-|[<-|[<-|[]]]]]; alphabet_without.
  - alphabet_without.
  - alphabet_without.
  - alphabet_without.
Qed.

Lemma totalLoop_without_quote lines : forall n t,
  totalLoop lines n = Normal t -> ~ In DQUOTE t.
Proof.
  destruct patterns_without_quote as [_ [_ [Ac [Ao _]]]].
  induction n as [|i IH]; intros t H; cbn [totalLoop] in H.
  - injection H as <-. intros [].
  - destruct (test totalKeyword (toString (nth_error lines i))); [|auto].
    destruct (nth_error lines i) as [l|]; [|discriminate].
    destruct (match0 l currencyAmount) as [m1|] eqn:E1.
    + injection H as <-. intro Hq.
      apply (occursIn_In _ _ _ (junk_trim_occurs m1)) in Hq.
      pose proof (match0_alphabet currencyAmount _ _ _ Ac E1) as F.
      rewrite Forall_forall in F. apply (F _ Hq). reflexivity.
    + destruct (match0 l amountOnly) as [m2|] eqn:E2; [|auto].
      injection H as <-. intro Hq.
      pose proof (match0_alphabet amountOnly _ _ _ Ao E2) as F.
      rewrite Forall_forall in F. apply (F _ Hq). reflexivity.
Qed.

Lemma maxTotal_without_quote lines : ~ In DQUOTE (maxTotal lines).
Proof.
  destruct patterns_without_quote as [_ [_ [_ [_ Aa]]]].
  unfold maxTotal. rewrite maxLine_fold.
  pose proof (maxStep_fold (amountsOf lines) minusOne [] eq_refl) as P.
  cbn zeta in P.
  destruct (fold_left maxStep (amountsOf lines) _) as [maxVal maxStr].
  destruct P as [_ [_ [_ D1]]].
  cbn [fst snd] in *. destruct (gt maxVal zero); [|intros []].
  destruct D1 as [D1|[Hm _]].
  - injection D1 as -> ->. intros [].
  - intro Hq. pose proof (amountsOf_alphabet _ _ _ Aa Hm) as F.
    rewrite Forall_forall in F. apply (F _ Hq). reflexivity.
Qed.

Lemma allowedInName_plain c :
  allowedInName c = true -> c <> DQUOTE /\ c <> LF.
Proof.
  intro H. split; intros ->; vm_compute in H; discriminate.
Qed.

(** A field without a double quote and without a line feed is quoted
    exactly when it holds a comma, and nothing in it is doubled. *)
Lemma escapeCsv_plain v :
  ~ In DQUOTE v -> ~ In LF v -> escapeCsv (Str v) = commaQuoted v.
Proof.
  intros Hq Hl. rewrite escapeCsv_spec. unfold quoteWhen, commaQuoted.
  assert (Hs : existsb isCsvSpecial v = existsb (N.eqb COMMA) v).
  { induction v as [|c t IH]; [reflexivity|]. cbn [existsb].
    rewrite IH;
      [| intro; apply Hq; right; assumption | intro; apply Hl; right; assumption].
    f_equal. unfold isCsvSpecial.
    destruct (N.eqb_spec c DQUOTE) as [->|_]; [exfalso; apply Hq; left; reflexivity|].
    destruct (N.eqb_spec c LF) as [->|_]; [exfalso; apply Hl; left; reflexivity|].
    cbn [orb]. rewrite orb_false_r. apply N.eqb_sym. }
  rewrite Hs. clear Hs. destruct (existsb (N.eqb COMMA) v); [|reflexivity].
  f_equal. f_equal. unfold doubleQuotes.
  clear Hl. induction v as [|c t IH]; [reflexivity|]. cbn [flat_map].
  destruct (N.eqb_spec c DQUOTE) as [->|_]; [exfalso; apply Hq; left; reflexivity|].
  cbn [app]. f_equal. apply IH. intro. apply Hq. right. assumption.
Qed.

Lemma dateLoop_alphabet (P : char -> Prop) fullText :
  (forall rx, In rx datePatterns -> alphabet (ignoreCase rx) (pattern rx) P) ->
  Forall P (dateLoop datePatterns fullText).
Proof.
  intro A. destruct (dateLoop_match fullText datePatterns) as [->|[rx [Hrx E]]];
    [constructor|].
  apply (match0_alphabet rx P _ _ (A rx Hrx) E).
Qed.

(** X8: no field of a receipt holds a double quote or a line feed, and the
    date holds no comma.  In the file the date is therefore written as it
    stands, and the merchant and the total are put in double quotes exactly
    when they hold a comma, with nothing doubled inside. *)
Theorem receipt_fields_in_csv (text : jsstring) :
  exists r, parseReceiptText text = Normal r
    /\ (forall f, In f [date r; merchant r; total r] ->
          ~ In DQUOTE f /\ ~ In LF f)
    /\ ~ In COMMA (date r)
    /\ downloadCSV (date r) (merchant r) (total r)
       = str "Date,Merchant,Total" ++ [LF] ++ date r ++ [COMMA]
           ++ commaQuoted (merchant r) ++ [COMMA] ++ commaQuoted (total r).
Proof.
  destruct (parse_normal text) as [t [m [Ht [Hm Hr]]]].
  eexists. split; [exact Hr|]. cbn [date merchant total].
  set (lines := linesOf text) in *.
  set (d := dateLoop datePatterns (join lines separator)).
  set (tot := if truthy t then t else maxTotal lines).
  destruct patterns_without_quote as [Aq [Ac _]].
  assert (Hd : ~ In DQUOTE d /\ ~ In LF d /\ ~ In COMMA d).
  { split; [|split].
    - intro H. pose proof (dateLoop_alphabet _ (join lines separator) Aq) as F.
      rewrite Forall_forall in F. apply (F _ H). reflexivity.
    - destruct (dateLoop_in_line lines) as [E|[[l [Hl Ho]] _]].
      + unfold d. rewrite E. intros [].
      + intro H. apply (line_without_LF text l Hl), (occursIn_In _ _ _ Ho H).
    - intro H. pose proof (dateLoop_alphabet _ (join lines separator) Ac) as F.
      rewrite Forall_forall in F. apply (F _ H). reflexivity. }
  assert (Hmer : ~ In DQUOTE m /\ ~ In LF m).
  { assert (F : Forall (fun c => allowedInName c = true) m).
    { destruct (merchantLoop_result _ _ _ _ _ Hm) as [->|[line [_ ->]]];
        [constructor | apply sanitize_allowed]. }
    rewrite Forall_forall in F.
    split; intro H; destruct (allowedInName_plain _ (F _ H)) as [H1 H2]; congruence. }
  assert (Htot : ~ In DQUOTE tot /\ ~ In LF tot).
  { unfold tot. destruct (truthy t) eqn:E.
    - split; [apply (totalLoop_without_quote _ _ _ Ht)|].
      destruct (totalLoop_source _ _ _ Ht) as [->|[[l [Hl Ho]] _]]; [intros []|].
      intro H. apply (line_without_LF text l Hl), (occursIn_In _ _ _ Ho H).
    - split; [apply maxTotal_without_quote|].
      destruct (maxTotal_source lines) as [->|[[l [Hl Ho]] _]]; [intros []|].
      intro H. apply (line_without_LF text l Hl), (occursIn_In _ _ _ Ho H). }
  split; [|split; [apply Hd|]].
  - intros f [<-|[<-|[<-|[]]]]; [split; apply Hd | exact Hmer | exact Htot].
  - unfold downloadCSV. cbn [map join].
    rewrite (escapeCsv_plain m), (escapeCsv_plain tot), (escapeCsv_plain d);
      try apply Hd; try apply Hmer; try apply Htot.
    replace (commaQuoted d) with d.
    + replace (escapeCsv (Str (str "Date"))) with (str "Date")
        by (vm_compute; reflexivity).
      replace (escapeCsv (Str (str "Merchant"))) with (str "Merchant")
        by (vm_compute; reflexivity).
      replace (escapeCsv (Str (str "Total"))) with (str "Total")
        by (vm_compute; reflexivity).
      repeat (rewrite <- app_assoc; cbn [app]). reflexivity.
    + unfold commaQuoted.
      assert (E : existsb (N.eqb COMMA) d = false).
      { destruct (existsb (N.eqb COMMA) d) eqn:E; [|reflexivity].
        apply existsb_exists in E. destruct E as [c [Hin Ec]].
        apply N.eqb_eq in Ec. subst c. destruct Hd as [_ [_ Hd]]. contradiction. }
      rewrite E. reflexivity.
Qed.

(** ** The page functions *)

Ltac page p := destruct p as [[?|] [?|] [?|] [?|] [?|] [?|] [?|] [?|]].

Lemma resetUI_idem p : resetUI (resetUI p) = resetUI p.
Proof. page p; reflexivity. Qed.

Lemma resetUI_showError m p : resetUI (showError m p) = showError m (resetUI p).
Proof. page p; reflexivity. Qed.

Lemma resetUI_clearError p : resetUI (clearError p) = clearError (resetUI p).
Proof. page p; reflexivity. Qed.

Lemma showError_clearError m p : showError m (clearError p) = showError m p.
Proof. page p; reflexivity. Qed.

(** A progress step leaves nothing behind once resetUI has run. *)
Lemma resetUI_setProgress msg pr p : resetUI (setProgress msg pr p) = resetUI p.
Proof.
  unfold setProgress. destruct pr; destruct (truthy msg); page p; reflexivity.
Qed.

Lemma resetUI_logger m p : resetUI (logger m p) = resetUI p.
Proof.
  unfold logger. destruct m as [[[| |s] pr]|]; cbn [status progress]; try reflexivity.
  destruct (truthy s); [|reflexivity].
  destruct (eqs s (str "recognizing text")), pr;
    repeat match goal with
           | |- context [if ?b then _ else _] => destruct b
           end;
    try apply resetUI_setProgress; reflexivity.
Qed.

Lemma resetUI_messages ms : forall p,
  resetUI (fold_left (fun q m => logger m q) ms p) = resetUI p.
Proof.
  induction ms as [|m ms IH]; intro p; cbn [fold_left]; [reflexivity|].
  rewrite IH. apply resetUI_logger.
Qed.

Lemma displayResults_resetUI r p :
  displayResults r (resetUI p) = runMap resetUI (displayResults r p).
Proof. page p; reflexivity. Qed.

Lemma resetUI_settle r : resetUI (settle r) = settle (runMap resetUI r).
Proof. destruct r as [q|q]; cbn [settle runMap]; [reflexivity|apply resetUI_showError]. Qed.

(** The page before the recognition settles, up to the progress area. *)
Lemma resetUI_before_settling ms p :
  resetUI (fold_left (fun q m => logger m q) ms
             (setProgress (str "Running OCR" ++ [ELLIPSIS]) (Some (binary64 5 100))
                (setProgress (str "Loading image" ++ [ELLIPSIS]) (Some zero)
                   (resetUI (clearError p)))))
  = resetUI (clearError p).
Proof.
  rewrite resetUI_messages, !resetUI_setProgress. apply resetUI_idem.
Qed.

Lemma caught_before_settling ms p :
  caught (fold_left (fun q m => logger m q) ms
            (setProgress (str "Running OCR" ++ [ELLIPSIS]) (Some (binary64 5 100))
               (setProgress (str "Loading image" ++ [ELLIPSIS]) (Some zero)
                  (resetUI (clearError p)))))
  = showError ocrFailed (resetUI p).
Proof.
  unfold caught. rewrite resetUI_showError, resetUI_before_settling.
  rewrite resetUI_clearError. apply showError_clearError.
Qed.

Lemma nonblank_unit s0 : trim s0 <> [] -> exists x, In x s0 /\ isSpace x = false.
Proof.
  induction s0 as [|c t IH]; intro H; [exfalso; apply H; reflexivity|].
  destruct (isSpace c) eqn:E.
  - unfold trim in H. cbn [trimStart] in H. rewrite E in H.
    destruct (IH H) as [x [Hin Hx]]. exists x. split; [right; exact Hin | exact Hx].
  - exists c. split; [left; reflexivity | exact E].
Qed.

(** A code unit that is not white space lies in a piece. *)
Lemma lineSplit_covers x : isSpace x = false ->
  forall s0 cur, In x (rev cur ++ s0) ->
                 exists p, In p (lineSplit cur s0) /\ In x p.
Proof.
  intro Hx.
  assert (HLF : x <> LF) by (intros ->; discriminate).
  assert (HCR : x <> CR) by (intros ->; discriminate).
  induction s0 as [|c|c c2 t IHt IHc2] using list_ind2; intros cur Hin.
  - rewrite app_nil_r in Hin. exists (rev cur). split; [left; reflexivity | exact Hin].
  - rewrite lineSplit_step.
    assert (Hpush : exists p, In p (lineSplit (c :: cur) []) /\ In x p).
    { exists (rev cur ++ [c]). split; [left; reflexivity | exact Hin]. }
    destruct (N.eqb_spec c LF) as [->|Hc].
    + exists (rev cur). split; [left; reflexivity|].
      apply in_app_or in Hin. destruct Hin as [Hin|[Hin|[]]]; [exact Hin | congruence].
    + destruct (c =? CR)%N; exact Hpush.
  - rewrite lineSplit_step.
    assert (Hpush : exists p, In p (lineSplit (c :: cur) (c2 :: t)) /\ In x p).
    { apply IHc2. cbn [rev]. rewrite <- app_assoc. exact Hin. }
    apply in_app_or in Hin.
    destruct (N.eqb_spec c LF) as [->|Hc].
    + destruct Hin as [Hin|[Hin|Hin]]; [| congruence |].
      * exists (rev cur). split; [left; reflexivity | exact Hin].
      * destruct (IHc2 [] Hin) as [p [Hp Hxp]]. exists p.
        split; [right; exact Hp | exact Hxp].
    + destruct (N.eqb_spec c CR) as [->|Hc']; [|exact Hpush].
      destruct (N.eqb_spec c2 LF) as [->|Hc2]; [|exact Hpush].
      destruct Hin as [Hin|[Hin|[Hin|Hin]]]; [| congruence | congruence |].
      * exists (rev cur). split; [left; reflexivity | exact Hin].
      * destruct (IHt [] Hin) as [p [Hp Hxp]]. exists p.
        split; [right; exact Hp | exact Hxp].
Qed.

(** A text that is not blank has a line. *)
Lemma nonblank_has_line text : trim text <> [] -> linesOf text <> [].
Proof.
  intro H. destruct (nonblank_unit _ H) as [x [Hin Hx]].
  destruct (lineSplit_covers x Hx text [] Hin) as [p [Hp Hxp]].
  pose proof (trim_keeps_unit p x Hxp Hx) as Ht.
  assert (Hl : In (trim p) (linesOf text)).
  { unfold linesOf. apply filter_In. split.
    - apply in_map. rewrite split_lineSplit. exact Hp.
    - destruct (trim p); [destruct Ht | reflexivity]. }
  intro E. rewrite E in Hl. destruct Hl.
Qed.

Lemma orNothing_id x : orNothing x = x.
Proof. destruct x; reflexivity. Qed.

Lemma readBack_plain v :
  existsb (N.eqb CR) v = false -> readBack v.
Proof.
  intro H. right. intro Hi.
  assert (E : existsb (N.eqb CR) v = true)
    by (apply existsb_exists; exists CR; split; [exact Hi | reflexivity]).
  congruence.
Qed.

(** The text of downloadCSV is read back as its two rows when each field
    is one that escapeCsv quotes or holds no carriage return. *)
Lemma csvParse_downloadCSV a v b :
  readBack a -> readBack v -> readBack b ->
  csvParse (downloadCSV a v b)
  = [[str "Date"; str "Merchant"; str "Total"]; [a; v; b]].
Proof.
  intros Ha Hv Hb. unfold downloadCSV. cbn [map join].
  repeat rewrite <- app_assoc. cbn [app].
  rewrite !csvParse_field_comma, csvParse_field_line
    by (apply readBack_plain; reflexivity).
  rewrite !csvParse_field_comma, csvParse_field_last by assumption.
  reflexivity.
Qed.

(** The page handleFile leaves, without the steps of the progress: the
    messages of the logger leave no trace. *)
Lemma handleFile_page file ocr p :
  handleFile file ocr p
  = match file with
    | None => showError noFile (resetUI p)
    | Some f =>
      if startsWith (str "image/") (type f) then
        match outcome ocr with
        | Rejected => showError ocrFailed (resetUI p)
        | Fulfilled v =>
          if truthy (trim (orEmpty v)) then
            match parseReceiptText (orEmpty v) with
            | Normal r => settle (displayResults r (resetUI (clearError p)))
            | Throw => showError ocrFailed (resetUI p)
            end
          else showError noText (resetUI p)
        end
      else showError notAnImage (resetUI p)
    end.
Proof.
  unfold handleFile. destruct file as [f|];
    [|rewrite resetUI_clearError; apply showError_clearError].
  destruct (startsWith (str "image/") (type f)); cbn [negb];
    [|rewrite resetUI_clearError; apply showError_clearError].
  destruct (outcome ocr) as [v|]; [|apply caught_before_settling].
  destruct (truthy (trim (orEmpty v))); cbn [negb].
  - set (p3 := fold_left _ _ _).
    set (p4 := setProgress _ _ p3).
    assert (E4 : resetUI p4 = resetUI (clearError p)).
    { unfold p4, p3. rewrite resetUI_setProgress. apply resetUI_before_settling. }
    destruct (parseReceiptText (orEmpty v)) as [r|].
    + transitivity (settle (runMap resetUI (displayResults r p4))).
      * destruct (displayResults r p4) as [q|q]; cbn [settle runMap];
          [reflexivity | apply resetUI_showError].
      * rewrite <- displayResults_resetUI, E4. reflexivity.
    + unfold caught. rewrite resetUI_showError, E4, resetUI_clearError.
      apply showError_clearError.
  - rewrite resetUI_showError, resetUI_before_settling, resetUI_clearError.
    apply showError_clearError.
Qed.

(** handleFile is its two parts with the messages of the logger between
    them. *)
Lemma handleFile_parts file ocr p :
  handleFile file ocr p
  = match handleFileStart file p with
    | Returned q => q
    | Awaiting q =>
      handleFileResume (outcome ocr)
                       (fold_left (fun q m => logger m q) (messages ocr) q)
    end.
Proof.
  unfold handleFile, handleFileStart. destruct file as [f|]; [|reflexivity].
  destruct (startsWith (str "image/") (type f)); reflexivity.
Qed.

(** The page the part after the await leaves, without the step of the
    progress. *)
Lemma handleFileResume_page s p :
  handleFileResume s p
  = match s with
    | Rejected => showError ocrFailed (resetUI p)
    | Fulfilled v =>
      if truthy (trim (orEmpty v)) then
        match parseReceiptText (orEmpty v) with
        | Normal r => settle (displayResults r (resetUI p))
        | Throw => showError ocrFailed (resetUI p)
        end
      else showError noText (resetUI p)
    end.
Proof.
  unfold handleFileResume. destruct s as [v|]; [|apply resetUI_showError].
  destruct (truthy (trim (orEmpty v))); cbn [negb]; [|apply resetUI_showError].
  set (p4 := setProgress _ _ p).
  assert (E4 : resetUI p4 = resetUI p) by apply resetUI_setProgress.
  destruct (parseReceiptText (orEmpty v)) as [r|].
  - transitivity (settle (runMap resetUI (displayResults r p4))).
    + destruct (displayResults r p4) as [q|q]; cbn [settle runMap];
        [reflexivity | apply resetUI_showError].
    + rewrite <- displayResults_resetUI, E4. reflexivity.
  - unfold caught. rewrite resetUI_showError, E4. reflexivity.
Qed.

(** When only the logger has run since the call, the page at the end of
    the await is the page the call found but for the progress area and the
    error box, which the call has cleared. *)
Lemma resetUI_awaited f ocr p :
  startsWith (str "image/") (type f) = true ->
  exists q, handleFileStart (Some f) p = Awaiting q
            /\ resetUI (fold_left (fun q m => logger m q) (messages ocr) q)
               = resetUI (clearError p).
Proof.
  intro Hf. unfold handleFileStart. rewrite Hf. cbn [negb].
  eexists. split; [reflexivity|]. apply resetUI_before_settling.
Qed.

(** X9: handleFile runs in two parts, before and after the await of the
    recognition, and other handlers may run on the page in between.  A
    call with no file, or with a file that is not an image, ends in its
    first part and leaves the page it found with the progress area reset
    and the message of the case in the error box.  When the recognition
    fails or gives a blank text, the second part leaves the page as it is
    when the recognition settles, with the progress area reset and the
    message of the case in the error box: the results shown and the
    entries kept with the download button at that moment stay as they
    are.  When only the logger has run since the call, this is the page
    the call found with the progress area reset and the message. *)
Theorem handleFile_stopped (p : Page) :
  handleFileStart None p = Returned (showError noFile (resetUI p))
  /\ (forall f, startsWith (str "image/") (type f) = false ->
        handleFileStart (Some f) p = Returned (showError notAnImage (resetUI p)))
  /\ handleFileResume Rejected p = showError ocrFailed (resetUI p)
  /\ (forall v, trim (orEmpty v) = [] ->
        handleFileResume (Fulfilled v) p = showError noText (resetUI p))
  /\ (forall m, dateValueEl (showError m (resetUI p)) = dateValueEl p
                /\ merchantValueEl (showError m (resetUI p)) = merchantValueEl p
                /\ totalValueEl (showError m (resetUI p)) = totalValueEl p
                /\ downloadBtn (showError m (resetUI p)) = downloadBtn p
                /\ errorBox (showError m (resetUI p))
                   = option_map (fun n => setHidden false (setText m n)) (errorBox p))
  /\ (forall f ocr m, startsWith (str "image/") (type f) = true ->
        exists q, handleFileStart (Some f) p = Awaiting q
                  /\ showError m (resetUI (fold_left (fun q m => logger m q)
                                                     (messages ocr) q))
                     = showError m (resetUI p)).
Proof.
  split; [|split; [|split; [|split; [|split]]]].
  - unfold handleFileStart. rewrite resetUI_clearError. f_equal.
    apply showError_clearError.
  - intros f Hf. unfold handleFileStart. rewrite Hf. cbn [negb].
    rewrite resetUI_clearError. f_equal. apply showError_clearError.
  - apply handleFileResume_page.
  - intros v Hb. rewrite handleFileResume_page, Hb. reflexivity.
  - intro m. page p; repeat split; reflexivity.
  - intros f ocr m Hf. destruct (resetUI_awaited f ocr p Hf) as [q [E1 E2]].
    exists q. split; [exact E1|]. rewrite E2, resetUI_clearError.
    apply showError_clearError.
Qed.

Lemma handleFile_stopped_witness :
  handleFileStart (Some {| type := str "text/plain" |}) freshPage
  = Returned (showError notAnImage (resetUI freshPage))
  /\ handleFileResume (Fulfilled (Str (str "  "))) freshPage
     = showError noText (resetUI freshPage)
  /\ exists q, handleFileStart (Some {| type := str "image/png" |}) freshPage
               = Awaiting q
               /\ showError ocrFailed
                    (resetUI (fold_left (fun q m => logger m q)
                                        (messages failedRecognition) q))
                  = showError ocrFailed (resetUI freshPage).
Proof.
  destruct (handleFile_stopped freshPage) as [_ [H2 [_ [H4 [_ H6]]]]].
  split; [|split].
  - apply H2. reflexivity.
  - apply H4. reflexivity.
  - apply H6. reflexivity.
Defined.

(** X10: when the recognition of an image gives a text that is not blank,
    parseReceiptText is called on a text with at least one line, it
    returns, and the part of handleFile after the await leaves the page as
    it is when the recognition settles, with the progress area reset and
    the results displayed; if displayResults throws, the message of a failed
    recognition is shown.  This part does not touch the error box when the
    results are displayed: what another call has put there in between
    stays.  When only the logger has run since the call, the page is the
    page the call found with the error cleared, the progress area reset and
    the results displayed. *)
Theorem handleFile_displays (v : value) (p : Page) :
  trim (orEmpty v) <> [] ->
  linesOf (orEmpty v) <> []
  /\ exists r,
      parseReceiptText (orEmpty v) = Normal r
      /\ handleFileResume (Fulfilled v) p = settle (displayResults r (resetUI p))
      /\ (forall q, displayResults r (resetUI p) = Done q -> errorBox q = errorBox p)
      /\ (forall f ocr p0, startsWith (str "image/") (type f) = true ->
            exists q, handleFileStart (Some f) p0 = Awaiting q
                      /\ handleFileResume (Fulfilled v)
                           (fold_left (fun q m => logger m q) (messages ocr) q)
                         = settle (displayResults r (resetUI (clearError p0)))).
Proof.
  intro Hb. split; [apply nonblank_has_line, Hb|].
  destruct (parse_normal (orEmpty v)) as [t [m [_ [_ Hr]]]].
  destruct (parseReceiptText (orEmpty v)) as [r|] eqn:Er; [|discriminate].
  clear Hr t m.
  assert (Hp : forall p', handleFileResume (Fulfilled v) p'
                          = settle (displayResults r (resetUI p'))).
  { intro p'. rewrite handleFileResume_page, Er.
    destruct (trim (orEmpty v)); [congruence | reflexivity]. }
  exists r. split; [reflexivity|]. split; [apply Hp|]. split.
  - intros q Hq. unfold displayResults in Hq.
    page p; cbn in Hq; try discriminate; injection Hq as <-; reflexivity.
  - intros f ocr p0 Hf. destruct (resetUI_awaited f ocr p0 Hf) as [q [E1 E2]].
    exists q. split; [exact E1|]. rewrite Hp, E2. reflexivity.
Qed.

Lemma handleFile_displays_witness :
  exists r,
    parseReceiptText (str ("Joe's Diner" ++ NL ++ "2024-03-05" ++ NL ++ "Total $1,234.50"))
    = Normal r
    /\ handleFileResume
         (Fulfilled (Str (str ("Joe's Diner" ++ NL ++ "2024-03-05" ++ NL
                                 ++ "Total $1,234.50")))) freshPage
       = settle (displayResults r (resetUI freshPage)).
Proof.
  destruct (handleFile_displays
              (Str (str ("Joe's Diner" ++ NL ++ "2024-03-05" ++ NL ++ "Total $1,234.50")))
              freshPage) as [_ [r [H1 [H2 _]]]].
  - vm_compute. discriminate.
  - exists r. split; [exact H1 | exact H2].
Defined.

(** A file that is not an image, chosen while the recognition of a receipt
    is awaited: the results of the receipt are displayed beside the message
    about the other file. *)
Example second_file_while_awaiting :
  let q := runTasks [Call (Some {| type := str "image/png" |});
                     Log (Some {| status := Str (str "recognizing text");
                                  progress := Some (binary64 1 2) |});
                     Call (Some {| type := str "text/plain" |});
                     Settle (outcome sampleRecognition)] freshPage in
  option_map textContent (merchantValueEl q) = Some (str "Joe's Diner")
  /\ option_map textContent (errorBox q) = Some notAnImage
  /\ option_map hidden (errorBox q) = Some false
  /\ option_map hidden (progressWrap q) = Some true.
Proof. vm_compute. repeat split; reflexivity. Qed.

(** The page after the sample receipt is scanned. *)
Example sample_scan :
  let q := handleFile (Some {| type := str "image/png" |}) sampleRecognition freshPage in
  option_map textContent (dateValueEl q) = Some (str "2024-03-05")
  /\ option_map textContent (merchantValueEl q) = Some (str "Joe's Diner")
  /\ option_map textContent (totalValueEl q) = Some (str "$1,234.50")
  /\ option_map disabled (downloadBtn q) = Some false
  /\ progressBar q = Some zero
  /\ csvOfPage q
     = Normal (str "Date,Merchant,Total" ++ [LF]
                 ++ str "2024-03-05,Joe's Diner," ++ [DQUOTE] ++ str "$1,234.50"
                 ++ [DQUOTE]).
Proof. vm_compute. repeat split; reflexivity. Qed.

(** X11: when the three result elements and the download button exist,
    displayResults ends normally; each result element shows its field, or
    a dash for an empty field; the button is disabled exactly when the
    three fields are empty; and the text a click on the button writes is
    the header row and the row of the three fields as escapeCsv writes
    them, an empty field being empty there, not a dash.  A reader for
    which a comma ends a field and a line feed, a carriage return or the
    two in a row end a record reads this text back as the two rows when
    each field is one that escapeCsv quotes or holds no carriage return.
    When one of the four elements is missing displayResults throws and the
    entries kept with the button are as before. *)
Theorem displayed_is_downloaded (r : ExtractionResult) (p : Page) :
  (forall n1 n2 n3 b,
      dateValueEl p = Some n1 -> merchantValueEl p = Some n2 ->
      totalValueEl p = Some n3 -> downloadBtn p = Some b ->
      exists q b',
        displayResults r p = Done q
        /\ dateValueEl q = Some (setText (orDash (date r)) n1)
        /\ merchantValueEl q = Some (setText (orDash (merchant r)) n2)
        /\ totalValueEl q = Some (setText (orDash (total r)) n3)
        /\ downloadBtn q = Some b'
        /\ (disabled b' = true <-> date r = [] /\ merchant r = [] /\ total r = [])
        /\ csvOfPage q = Normal (downloadCSV (date r) (merchant r) (total r))
        /\ (readBack (date r) -> readBack (merchant r) -> readBack (total r) ->
            csvParse (downloadCSV (date r) (merchant r) (total r))
            = [[str "Date"; str "Merchant"; str "Total"];
               [date r; merchant r; total r]]))
  /\ (dateValueEl p = None \/ merchantValueEl p = None
      \/ totalValueEl p = None \/ downloadBtn p = None ->
      exists q, displayResults r p = Raised q /\ downloadBtn q = downloadBtn p).
Proof.
  split.
  - intros n1 n2 n3 b H1 H2 H3 H4. unfold displayResults.
    destruct p as [w pb s e d m t btn]. cbn in H1, H2, H3, H4. subst.
    cbn. eexists. eexists. split; [reflexivity|].
    repeat (split; [reflexivity|]). split; [|split].
    + destruct (date r), (merchant r), (total r); cbn; split;
        try discriminate; try (intros [? [? ?]]; discriminate); auto.
    + unfold csvOfPage. cbn. rewrite !orNothing_id. reflexivity.
    + apply csvParse_downloadCSV.
  - intro H. unfold displayResults.
    destruct p as [w pb s e [d|] [m|] [t|] [btn|]]; cbn in *;
      try (eexists; split; reflexivity);
      destruct H as [H|[H|[H|H]]]; discriminate.
Qed.

Lemma displayed_is_downloaded_witness :
  exists q b',
    displayResults {| date := []; merchant := str "Joe's Diner";
                      total := str "$1,234.50"; raw := [] |} freshPage = Done q
    /\ dateValueEl q = Some {| textContent := [DASH]; hidden := false |}
    /\ downloadBtn q = Some b'
    /\ csvOfPage q = Normal (downloadCSV [] (str "Joe's Diner") (str "$1,234.50"))
    /\ csvParse (downloadCSV [] (str "Joe's Diner") (str "$1,234.50"))
       = [[str "Date"; str "Merchant"; str "Total"];
          [[]; str "Joe's Diner"; str "$1,234.50"]].
Proof.
  destruct (displayed_is_downloaded
              {| date := []; merchant := str "Joe's Diner";
                 total := str "$1,234.50"; raw := [] |} freshPage) as [H _].
  destruct (H _ _ _ _ eq_refl eq_refl eq_refl eq_refl)
    as [q [b' [H1 [H2 [_ [_ [H5 [_ [H7 H8]]]]]]]]].
  exists q, b'. split; [exact H1|]. split; [exact H2|]. split; [exact H5|].
  split; [exact H7|].
  apply H8; apply readBack_plain; reflexivity.
Defined.

(** Without the download button displayResults throws. *)
Example displayResults_without_button :
  exists q, displayResults {| date := []; merchant := str "Joe's Diner";
                              total := str "$1,234.50"; raw := [] |}
                           (withDownloadBtn None freshPage) = Raised q
            /\ option_map textContent (merchantValueEl q) = Some (str "Joe's Diner").
Proof. eexists. split; reflexivity. Qed.

(** X12: whatever the file and the recognition are, handleFile leaves the
    progress area reset: the wrapper hidden, the bar at zero and the status
    text empty, for each of the three that exists. *)
Theorem handleFile_resets_progress (file : option File) (ocr : Recognition) (p : Page) :
  progressWrap (handleFile file ocr p) = option_map (setHidden true) (progressWrap p)
  /\ progressBar (handleFile file ocr p) = option_map (fun _ => zero) (progressBar p)
  /\ statusText (handleFile file ocr p) = option_map (setText []) (statusText p).
Proof.
  assert (Hs : forall m,
    progressWrap (showError m (resetUI p)) = option_map (setHidden true) (progressWrap p)
    /\ progressBar (showError m (resetUI p)) = option_map (fun _ => zero) (progressBar p)
    /\ statusText (showError m (resetUI p)) = option_map (setText []) (statusText p))
    by (intro m; page p; repeat split; reflexivity).
  rewrite handleFile_page. destruct file as [f|]; [|apply Hs].
  destruct (startsWith _ _); [|apply Hs].
  destruct (outcome ocr) as [v|]; [|apply Hs].
  destruct (truthy _); [|apply Hs].
  destruct (parseReceiptText _) as [r|]; [|apply Hs].
  clear Hs. page p; repeat split; reflexivity.
Qed.

Lemma one_units : one = Fin unit64.
Proof. vm_compute. reflexivity. Qed.

Lemma unit64_positive : (0 < unit64)%Z.
Proof. vm_compute. reflexivity. Qed.

Lemma huge64_above : (unit64 < huge64)%Z.
Proof. vm_compute. reflexivity. Qed.

(** The clamp of setProgress: NaN stays NaN; any other number is brought
    between 0 and 1, and is kept when it lies there. *)
Lemma clamp_range x :
  let v := mathMax zero (mathMin one x) in
  if isNaN x then v = NaN
  else isNaN v = false /\ lt v zero = false /\ lt one v = false
       /\ (lt x zero = true -> v = zero) /\ (lt one x = true -> v = one)
       /\ (lt x zero = false -> lt one x = false -> v = x).
Proof.
  cbn zeta. rewrite one_units. unfold zero.
  pose proof unit64_positive as H1. pose proof huge64_above as H2.
  destruct x as [|k|[|]]; cbn [isNaN]; [reflexivity| | |];
    unfold mathMin, mathMax, lt; cbn [isNaN orb ext].
  - destruct (Z.ltb_spec k unit64) as [Hk|Hk]; cbn [isNaN orb ext].
    + destruct (Z.ltb_spec 0 k) as [Hk0|Hk0]; cbn [isNaN ext];
        repeat split;
        try (apply Z.ltb_ge; lia);
        try (intro Hx; apply Z.ltb_lt in Hx; try lia; f_equal; lia);
        try (intros Hx _; apply Z.ltb_ge in Hx; f_equal; lia);
        try reflexivity.
    + destruct (Z.ltb_spec 0 unit64) as [_|Hk0]; [|lia]. cbn [isNaN ext].
      repeat split;
        try (apply Z.ltb_ge; lia);
        try (intro Hx; apply Z.ltb_lt in Hx; lia);
        try (intros _ Hx; apply Z.ltb_ge in Hx; f_equal; lia);
        try reflexivity.
  - destruct (Z.ltb_spec (- huge64) unit64) as [Hk|Hk]; [|lia]. cbn [isNaN orb ext].
    destruct (Z.ltb_spec 0 (- huge64)) as [Hk0|Hk0]; [lia|]. cbn [isNaN ext].
    repeat split;
      try (apply Z.ltb_ge; lia);
      try (intro Hx; apply Z.ltb_lt in Hx; lia);
      try (intros Hx _; apply Z.ltb_ge in Hx; lia);
      try reflexivity.
  - destruct (Z.ltb_spec huge64 unit64) as [Hk|Hk]; [lia|]. cbn [isNaN orb ext].
    destruct (Z.ltb_spec 0 unit64) as [_|Hk0]; [|lia]. cbn [isNaN ext].
    repeat split;
      try (apply Z.ltb_ge; lia);
      try (intro Hx; apply Z.ltb_lt in Hx; lia);
      try (intros _ Hx; apply Z.ltb_ge in Hx; lia);
      try reflexivity.
Qed.

(** X13: setProgress never puts the bar outside the range from 0 to 1: a
    progress that is a number other than NaN is stored as it is when it
    lies in the range, as 0 when it is below and as 1 when it is above;
    NaN is stored as NaN. *)
Theorem setProgress_clamped (message : jsstring) (x : number) (p : Page) (b : number) :
  progressBar p = Some b ->
  exists v, progressBar (setProgress message (Some x) p) = Some v
            /\ if isNaN x then v = NaN
               else isNaN v = false /\ lt v zero = false /\ lt one v = false
                    /\ (lt x zero = true -> v = zero)
                    /\ (lt one x = true -> v = one)
                    /\ (lt x zero = false -> lt one x = false -> v = x).
Proof.
  intro Hb. exists (mathMax zero (mathMin one x)). split; [|apply clamp_range].
  unfold setProgress. destruct (truthy message);
    destruct p as [[?|] ? [?|] ? ? ? ? ?]; cbn -[mathMax mathMin one zero] in Hb |- *;
    rewrite Hb; reflexivity.
Qed.

Lemma setProgress_clamped_witness :
  progressBar (setProgress (str "Recognizing text") (Some (binary64 3 2)) freshPage)
  = Some one.
Proof.
  destruct (setProgress_clamped (str "Recognizing text") (binary64 3 2) freshPage zero
                                eq_refl) as [v [Hv H]].
  change (isNaN (binary64 3 2)) with false in H. cbv iota in H.
  destruct H as [_ [_ [_ [_ [H _]]]]]. rewrite Hv, H; [reflexivity|].
  vm_compute. reflexivity.
Defined.

(** ** Keywords anywhere in a line *)

(** A match at some position makes the search succeed. *)
Lemma search_complete rx rest e l : forall p prev,
  ends (ignoreCase rx) (pattern rx) (lastOr prev p, rest) = e :: l ->
  search rx prev (p ++ rest) <> None.
Proof.
  induction p as [|c p IH]; intros prev H.
  - cbn [lastOr app] in *. destruct rest as [|x t]; cbn [search];
      unfold jsstring in *; rewrite H.
    + intro X. discriminate X.
    + intro X. discriminate X.
  - cbn [lastOr] in H. cbn [app]. rewrite search_cons.
    specialize (IH (Some c) H). clear H.
    destruct (ends _ _ _); [|intro X; discriminate X].
    destruct (search rx (Some c) (p ++ rest)) as [[[? ?] ?]|];
      [intro X; discriminate X | congruence].
Qed.

Lemma test_complete rx p rest e l :
  ends (ignoreCase rx) (pattern rx) (lastOr None p, rest) = e :: l ->
  test rx (p ++ rest) = true.
Proof.
  intro H. unfold test, exec.
  pose proof (search_complete rx rest e l p None H) as Hs.
  destruct (search rx None (p ++ rest)); [reflexivity | congruence].
Qed.

Lemma ends_alts_in i r st e : forall l,
  In r l -> In e (ends i r st) -> In e (ends i (alts l) st).
Proof.
  induction l as [|a l IH]; intros Hin He; [destruct Hin|].
  destruct l as [|b l].
  - destruct Hin as [->|[]]. exact He.
  - change (alts (a :: b :: l)) with (Disj a (alts (b :: l))). cbn [ends].
    apply in_or_app. destruct Hin as [->|Hin]; [left; exact He|].
    right. apply IH; assumption.
Qed.

Lemma ends_char_step i a prev c t :
  canon i a = canon i c -> ends i (Char a) (prev, c :: t) = [(Some c, t)].
Proof. intro H. cbn [ends step snd]. rewrite H, N.eqb_refl. reflexivity. Qed.

Lemma ends_seq_step i a b st st' :
  ends i a st = [st'] -> ends i (Seq a b) st = ends i b st'.
Proof. intro H. cbn [ends]. rewrite H. cbn [flat_map]. apply app_nil_r. Qed.

(** The word total, in whatever case, is matched by its literal under the
    flag i. *)
Lemma ends_total_word prev w post :
  map (canon true) w = str "TOTAL" ->
  exists c, ends true (lit "total") (prev, w ++ post) = [(Some c, post)].
Proof.
  intro H.
  destruct w as [|c1 [|c2 [|c3 [|c4 [|c5 [|c6 w]]]]]]; try discriminate.
  cbn [map] in H. injection H as H1 H2 H3 H4 H5.
  exists c5. unfold lit. cbn [list_ascii_of_string fold_right app].
  rewrite (ends_seq_step true _ _ _ (Some c1, c2 :: c3 :: c4 :: c5 :: post))
    by (apply ends_char_step; rewrite H1; reflexivity).
  rewrite (ends_seq_step true _ _ _ (Some c2, c3 :: c4 :: c5 :: post))
    by (apply ends_char_step; rewrite H2; reflexivity).
  rewrite (ends_seq_step true _ _ _ (Some c3, c4 :: c5 :: post))
    by (apply ends_char_step; rewrite H3; reflexivity).
  rewrite (ends_seq_step true _ _ _ (Some c4, c5 :: post))
    by (apply ends_char_step; rewrite H4; reflexivity).
  rewrite (ends_seq_step true _ _ _ (Some c5, post))
    by (apply ends_char_step; rewrite H5; reflexivity).
  reflexivity.
Qed.

(** X14: a line that holds the word total, in capitals or not and inside a
    longer word or not, is a total line for the scan of the total and a
    line the scan of the merchant passes over: Subtotal counts as
    total. *)
Theorem total_word_anywhere (pre w post : jsstring) :
  map (canon true) w = str "TOTAL" ->
  test totalKeyword (pre ++ w ++ post) = true
  /\ test skipKeywords (pre ++ w ++ post) = true
  /\ passesFilters (pre ++ w ++ post) = false.
Proof.
  intro H. destruct (ends_total_word (lastOr None pre) w post H) as [c Hc].
  assert (Hin : In (Some c, post)
                   (ends true (lit "total") (lastOr None pre, w ++ post)))
    by (rewrite Hc; left; reflexivity).
  assert (Ht : test totalKeyword (pre ++ w ++ post) = true).
  { pose proof (ends_alts_in true (lit "total") _ _
                  [seqs [lit "grand"; star space; lit "total"];
                   seqs [lit "total"; star space; lit "amount"];
                   seqs [lit "amount"; star space; lit "due"];
                   seqs [lit "balance"; star space; lit "due"];
                   lit "total"]
                  (or_intror (or_intror (or_intror (or_intror (or_introl eq_refl)))))
                  Hin) as Ha.
    destruct (ends true _ _) as [|e l] eqn:E in Ha; [destruct Ha|].
    apply (test_complete totalKeyword pre (w ++ post) e l). exact E. }
  assert (Hs : test skipKeywords (pre ++ w ++ post) = true).
  { assert (Hl : In (lit "total")
                    [lit "receipt"; lit "invoice"; lit "store"; lit "market";
                     lit "mart"; lit "supermarket"; lit "shop"; lit "cashier";
                     lit "transaction"; lit "date"; lit "time"; lit "subtotal";
                     lit "tax"; lit "vat"; lit "total"; lit "amount";
                     lit "phone"; lit "tel"; lit "address"; lit "pos";
                     lit "terminal"; lit "card"; lit "change"; lit "cash";
                     lit "credit"; lit "debit"])
      by (do 14 right; left; reflexivity).
    pose proof (ends_alts_in true (lit "total") _ _ _ Hl Hin) as Ha.
    destruct (ends true _ _) as [|e l] eqn:E in Ha; [destruct Ha|].
    apply (test_complete skipKeywords pre (w ++ post) e l). exact E. }
  split; [exact Ht|]. split; [exact Hs|].
  unfold passesFilters. rewrite Hs. cbn [negb]. rewrite andb_false_r. reflexivity.
Qed.

Lemma total_word_anywhere_witness :
  test totalKeyword (str "Subtotal 10.00") = true
  /\ test skipKeywords (str "Subtotal 10.00") = true
  /\ passesFilters (str "Subtotal 10.00") = false.
Proof.
  apply (total_word_anywhere (str "Sub") (str "total") (str " 10.00")).
  reflexivity.
Defined.

(** A subtotal below the total is taken for the total. *)
Example subtotal_below_total :
  exists r, parseReceiptText (str ("Total $11.00" ++ NL ++ "Subtotal $10.00"))
            = Normal r /\ total r = str "$10.00".
Proof. eexists. split; vm_compute; reflexivity. Qed.

(** ** Day-first dates *)



























(** A date that comes after another one is not reached: the first pattern
    that matches anywhere decides. *)
Example day_first_date_after_another :
  dateOf (str "2024-01-01 25/12/2024") = str "2024-01-01".
Proof. vm_compute. reflexivity. Qed.




(** ** Positions of a string by their index *)

Lemma located_start s : located s 0 None s.
Proof. repeat split. apply Nat.le_0_l. Qed.

Lemma located_here s i :
  i <= length s -> located s i (Stateful.prevAt s i) (skipn i s).
Proof. intro H. repeat split. exact H. Qed.

Lemma skipn_cons_inv (A : Type) : forall i (s : list A) c t,
  skipn i s = c :: t -> nth_error s i = Some c /\ skipn (S i) s = t /\ i < length s.
Proof.
  induction i as [|i IH]; intros s c t H.
  - cbn [skipn] in H. subst s. repeat split. cbn [length]. lia.
  - destruct s as [|x s]; [discriminate|]. cbn [skipn] in H.
    destruct (IH s c t H) as [H1 [H2 H3]]. repeat split; [exact H1|exact H2|].
    cbn [length]. lia.
Qed.

Lemma located_step s i prev c t :
  located s i prev (c :: t) -> located s (S i) (Some c) t.
Proof.
  intros [_ [H _]]. destruct (skipn_cons_inv _ _ _ _ _ H) as [H1 [H2 H3]].
  repeat split; [exact H1 | exact H2 | lia].
Qed.

Lemma located_length s i prev suf :
  located s i prev suf -> length s = i + length suf.
Proof.
  intros [_ [H Hi]]. rewrite <- H, length_skipn. lia.
Qed.

Lemma located_end s i prev : located s i prev [] -> i = length s.
Proof. intro H. apply located_length in H. cbn [length] in H. lia. Qed.

Lemma located_skipn s i prev p rest :
  located s i prev (p ++ rest) -> skipn (i + length p) s = rest.
Proof.
  intros [_ [H _]]. rewrite Nat.add_comm, <- skipn_skipn, H.
  rewrite skipn_app, skipn_all, Nat.sub_diag. reflexivity.
Qed.

Lemma firstn_length_app (A : Type) (f r : list A) : firstn (length f) (f ++ r) = f.
Proof.
  rewrite firstn_app, firstn_all, Nat.sub_diag. cbn [firstn]. apply app_nil_r.
Qed.

Lemma substring_found s i prev p m a :
  located s i prev (p ++ m ++ a) ->
  Stateful.substring s (i + length p) (i + length p + length m) = m.
Proof.
  intro H. unfold Stateful.substring. rewrite (located_skipn _ _ _ _ _ H).
  replace (i + length p + length m - (i + length p)) with (length m) by lia.
  apply firstn_length_app.
Qed.

Lemma substring_before s i prev p rest nsp :
  located s i prev (p ++ rest) -> nsp <= i ->
  Stateful.substring s nsp (i + length p) = Stateful.substring s nsp i ++ p.
Proof.
  intros [_ [H Hi]] Hn. unfold Stateful.substring.
  assert (E : skipn nsp s = firstn (i - nsp) (skipn nsp s) ++ p ++ rest).
  { rewrite <- H. rewrite <- (firstn_skipn (i - nsp) (skipn nsp s)) at 1.
    rewrite skipn_skipn. replace (i - nsp + nsp) with i by lia. reflexivity. }
  assert (L : length (firstn (i - nsp) (skipn nsp s)) = i - nsp).
  { rewrite length_firstn, length_skipn. lia. }
  revert E L. generalize (firstn (i - nsp) (skipn nsp s)) as f.
  intros f E L. rewrite E.
  replace (i + length p - nsp) with (length (f ++ p)) by (rewrite length_app; lia).
  rewrite app_assoc. apply firstn_length_app.
Qed.

Lemma substring_rest s nsp i :
  nsp <= i -> skipn nsp s = Stateful.substring s nsp i ++ skipn i s.
Proof.
  intro H. unfold Stateful.substring.
  rewrite <- (firstn_skipn (i - nsp) (skipn nsp s)) at 1.
  rewrite skipn_skipn. replace (i - nsp + nsp) with i by lia. reflexivity.
Qed.

Lemma substring_empty s i : Stateful.substring s i i = [].
Proof. unfold Stateful.substring. rewrite Nat.sub_diag. reflexivity. Qed.

Lemma substring_one s i prev c t :
  located s i prev (c :: t) -> Stateful.substring s i (S i) = [c].
Proof.
  intros [_ [H _]]. unfold Stateful.substring. rewrite H.
  replace (S i - i) with 1 by lia. reflexivity.
Qed.

(** ** The matcher at an index *)

Lemma end_index s i prev suf (e : state) :
  located s i prev suf -> suffixOf (prev, suf) e ->
  length s - length (snd e) = i + length (consumed (prev, suf) e).
Proof.
  intros H Hs. pose proof (located_length _ _ _ _ H) as L.
  pose proof (consumed_spec _ _ Hs) as E. cbn [snd] in E.
  assert (L2 : length suf = length (consumed (prev, suf) e) + length (snd e))
    by (rewrite E at 1; apply length_app).
  lia.
Qed.

Lemma matcherAt_located rx s i prev suf :
  located s i prev suf ->
  Stateful.matcherAt rx s i
  = match ends (ignoreCase rx) (pattern rx) (prev, suf) with
    | e :: _ => Some (i + length (consumed (prev, suf) e))
    | [] => None
    end.
Proof.
  intro H. unfold Stateful.matcherAt.
  pose proof (end_index s i prev suf) as Hx.
  destruct H as [H1 [H2 H3]]. rewrite H1, H2.
  pose proof (ends_suffix (ignoreCase rx) (pattern rx) (prev, suf)) as Hs.
  unfold jsstring in *.
  destruct (ends _ _ _) as [|e l]; [reflexivity|].
  f_equal. apply Hx; [repeat split; assumption|].
  apply Hs. left. reflexivity.
Qed.

(** The loop of exec without the flag y is the search of the pattern from
    the position of lastIndex. *)
Lemma execLoop_search rx s : forall suf i prev,
  located s i prev suf ->
  Stateful.execLoop rx false s i (S (length suf))
  = match search rx prev suf with
    | Some (p, m, _) => Some (i + length p, i + length p + length m)
    | None => None
    end.
Proof.
  induction suf as [|c t IH]; intros i prev H.
  - cbn [length Stateful.execLoop search]. rewrite (matcherAt_located rx s i prev [] H).
    unfold jsstring in *. destruct (ends _ _ _) as [|e l]; [reflexivity|].
    unfold consumed. cbn [snd]. rewrite firstn_nil. cbn [length].
    f_equal. f_equal; lia.
  - cbn [length]. rewrite search_cons.
    change (Stateful.execLoop rx false s i (S (S (length t))))
      with (match Stateful.matcherAt rx s i with
            | Some e => Some (i, e)
            | None => Stateful.execLoop rx false s (S i) (S (length t))
            end).
    rewrite (matcherAt_located rx s i prev (c :: t) H).
    pose proof (IH (S i) (Some c) (located_step _ _ _ _ _ H)) as IH'.
    clear IH. unfold jsstring in *. destruct (ends _ _ _) as [|e l].
    + rewrite IH'.
      destruct (search rx (Some c) t) as [[[p m] a]|]; [|reflexivity].
      cbn [length]. f_equal. f_equal; lia.
    + cbn [length]. f_equal. f_equal; lia.
Qed.

Lemma execLoop_beyond rx y s i : length s < i ->
  Stateful.execLoop rx y s i (S (length s) - i) = None.
Proof. intro H. replace (S (length s) - i) with 0 by lia. reflexivity. Qed.

(** The loop of exec with the flag y tries the one position of lastIndex. *)
Lemma execLoop_sticky rx s i prev suf :
  located s i prev suf ->
  Stateful.execLoop rx true s i (S (length suf))
  = match ends (ignoreCase rx) (pattern rx) (prev, suf) with
    | e :: _ => Some (i, i + length (consumed (prev, suf) e))
    | [] => None
    end.
Proof.
  intro H. cbn [Stateful.execLoop]. rewrite (matcherAt_located rx s i prev suf H).
  unfold jsstring in *. destruct (ends _ _ _); reflexivity.
Qed.

Lemma left_located s i prev suf :
  located s i prev suf -> S (length s) - i = S (length suf).
Proof. intro H. apply located_length in H. lia. Qed.

(** ** The scans of a pattern with the flag g, by index *)

Lemma scan_cons rx prev c t :
  scan rx prev (c :: t) 0
  = match ends (ignoreCase rx) (pattern rx) (prev, c :: t) with
    | e :: _ =>
      consumed (prev, c :: t) e
        :: scan rx (Some c) t (pred (length (consumed (prev, c :: t) e)))
    | [] => scan rx (Some c) t 0
    end.
Proof. reflexivity. Qed.

Lemma scan_end rx prev :
  scan rx prev [] 0
  = match ends (ignoreCase rx) (pattern rx) (prev, []) with
    | e :: _ => [consumed (prev, []) e]
    | [] => []
    end.
Proof. reflexivity. Qed.

Lemma replaceScan_cons rx by_ prev c t :
  replaceScan rx by_ prev (c :: t) 0
  = match ends (ignoreCase rx) (pattern rx) (prev, c :: t) with
    | e :: _ =>
      by_ ++ (if length (consumed (prev, c :: t) e) =? 0 then [c] else [])
          ++ replaceScan rx by_ (Some c) t (pred (length (consumed (prev, c :: t) e)))
    | [] => c :: replaceScan rx by_ (Some c) t 0
    end.
Proof. reflexivity. Qed.

Lemma replaceScan_end rx by_ prev :
  replaceScan rx by_ prev [] 0
  = match ends (ignoreCase rx) (pattern rx) (prev, []) with
    | e :: _ => by_ ++ []
    | [] => []
    end.
Proof. reflexivity. Qed.

Lemma located_add s i prev suf : located s i prev suf -> located s (i + 0) prev suf.
Proof. rewrite Nat.add_0_r. exact (fun H => H). Qed.

(** The code units of a match still to be stepped over lead to the index
    after them, or past the end of the string. *)
Lemma scan_skip rx s : forall k suf i prev,
  located s i prev suf ->
  scan rx prev suf k
  = if i + k <=? length s
    then scan rx (Stateful.prevAt s (i + k)) (skipn (i + k) s) 0
    else [].
Proof.
  induction k as [|k IH]; intros suf i prev H.
  - rewrite Nat.add_0_r. destruct H as [H1 [H2 H3]].
    rewrite H1, H2. apply Nat.leb_le in H3. rewrite H3. reflexivity.
  - destruct suf as [|c t].
    + apply located_end in H. subst i.
      replace (length s + S k <=? length s) with false
        by (symmetry; apply Nat.leb_gt; lia).
      reflexivity.
    + cbn [scan]. rewrite (IH t (S i) (Some c) (located_step _ _ _ _ _ H)).
      rewrite Nat.add_succ_r. reflexivity.
Qed.

Lemma replaceScan_skip rx by_ s : forall k suf i prev,
  located s i prev suf ->
  replaceScan rx by_ prev suf k
  = if i + k <=? length s
    then replaceScan rx by_ (Stateful.prevAt s (i + k)) (skipn (i + k) s) 0
    else [].
Proof.
  induction k as [|k IH]; intros suf i prev H.
  - rewrite Nat.add_0_r. destruct H as [H1 [H2 H3]].
    rewrite H1, H2. apply Nat.leb_le in H3. rewrite H3. reflexivity.
  - destruct suf as [|c t].
    + apply located_end in H. subst i.
      replace (length s + S k <=? length s) with false
        by (symmetry; apply Nat.leb_gt; lia).
      reflexivity.
    + cbn [replaceScan]. rewrite (IH t (S i) (Some c) (located_step _ _ _ _ _ H)).
      rewrite Nat.add_succ_r. reflexivity.
Qed.

Lemma nextIndex_step idx len : nextIndex idx len = S idx + pred len.
Proof. unfold nextIndex. destruct len; cbn [Nat.max pred]; lia. Qed.

Lemma scan_none rx : forall suf prev,
  search rx prev suf = None -> scan rx prev suf 0 = [].
Proof.
  induction suf as [|c t IH]; intros prev H.
  - cbn [search] in H. rewrite scan_end. unfold jsstring in *.
    destruct (ends _ _ _); [reflexivity | discriminate].
  - rewrite search_cons in H. rewrite scan_cons. unfold jsstring in *.
    destruct (ends _ _ _); [|discriminate].
    apply IH. destruct (search rx (Some c) t) as [[[p m] a]|];
      [discriminate | reflexivity].
Qed.

Lemma replaceScan_none rx by_ : forall suf prev,
  search rx prev suf = None -> replaceScan rx by_ prev suf 0 = suf.
Proof.
  induction suf as [|c t IH]; intros prev H.
  - cbn [search] in H. rewrite replaceScan_end. unfold jsstring in *.
    destruct (ends _ _ _); [reflexivity | discriminate].
  - rewrite search_cons in H. rewrite replaceScan_cons. unfold jsstring in *.
    destruct (ends _ _ _); [|discriminate].
    f_equal. apply IH. destruct (search rx (Some c) t) as [[[p m] a]|];
      [discriminate | reflexivity].
Qed.

(** After the first match the scan goes on from the next index. *)
Lemma scan_found rx s : forall suf i prev p m a,
  located s i prev suf -> search rx prev suf = Some (p, m, a) ->
  scan rx prev suf 0
  = m :: (let j := nextIndex (i + length p) (length m) in
          if j <=? length s
          then scan rx (Stateful.prevAt s j) (skipn j s) 0
          else []).
Proof.
  induction suf as [|c t IH]; intros i prev p m a H E; cbn zeta.
  - pose proof (located_end _ _ _ H) as Hi.
    cbn [search] in E. rewrite scan_end. unfold jsstring in *.
    destruct (ends _ _ _) as [|e l]; [discriminate|].
    injection E as <- <- <-. f_equal.
    replace (nextIndex _ _ <=? length s) with false; [reflexivity|].
    symmetry. apply Nat.leb_gt. unfold nextIndex. cbn [length]. lia.
  - rewrite search_cons in E. rewrite scan_cons.
    pose proof (located_step _ _ _ _ _ H) as H'.
    pose proof (IH (S i) (Some c)) as IH'. clear IH.
    unfold jsstring in *. destruct (ends _ _ _) as [|e l].
    + destruct (search rx (Some c) t) as [[[p' m'] a']|] eqn:E'; [|discriminate].
      injection E as <- <- <-. rewrite (IH' p' m' a' H' eq_refl). cbn zeta.
      cbn [length]. rewrite Nat.add_succ_r. reflexivity.
    + injection E as <- <- <-. f_equal. clear IH'.
      rewrite (scan_skip rx s _ t (S i) (Some c) H').
      cbn [length]. rewrite Nat.add_0_r, nextIndex_step. reflexivity.
Qed.

(** The same for replace; between the match and the next index lies the
    code unit after an empty match, which is kept. *)
Lemma replaceScan_found rx by_ s : forall suf i prev p m a,
  located s i prev suf -> search rx prev suf = Some (p, m, a) ->
  replaceScan rx by_ prev suf 0
  = p ++ by_
      ++ (let j := nextIndex (i + length p) (length m) in
          Stateful.substring s (i + length p + length m) j
            ++ if j <=? length s
               then replaceScan rx by_ (Stateful.prevAt s j) (skipn j s) 0
               else []).
Proof.
  induction suf as [|c t IH]; intros i prev p m a H E; cbn zeta.
  - pose proof (located_end _ _ _ H) as Hi.
    cbn [search] in E. rewrite replaceScan_end. unfold jsstring in *.
    destruct (ends _ _ _) as [|e l]; [discriminate|].
    injection E as <- <- <-. cbn [app]. f_equal.
    replace (nextIndex _ _ <=? length s) with false
      by (symmetry; apply Nat.leb_gt; unfold nextIndex; cbn [length]; lia).
    rewrite app_nil_r. unfold Stateful.substring.
    rewrite skipn_all2 by (cbn [length]; lia). symmetry. apply firstn_nil.
  - rewrite search_cons in E. rewrite replaceScan_cons.
    pose proof (located_step _ _ _ _ _ H) as H'.
    pose proof (IH (S i) (Some c)) as IH'. clear IH.
    unfold jsstring in *. destruct (ends _ _ _) as [|e l].
    + destruct (search rx (Some c) t) as [[[p' m'] a']|] eqn:E'; [|discriminate].
      injection E as <- <- <-. rewrite (IH' p' m' a' H' eq_refl). cbn zeta.
      cbn [length app]. rewrite !Nat.add_succ_r. reflexivity.
    + injection E as <- <- <-. cbn [app]. f_equal. clear IH'.
      rewrite (replaceScan_skip rx by_ s _ t (S i) (Some c) H').
      cbn [length]. rewrite !Nat.add_0_r, nextIndex_step.
      destruct (length (consumed (prev, c :: t) e)) as [|k] eqn:Ek.
      * cbn [Nat.eqb pred]. rewrite !Nat.add_0_r.
        rewrite (substring_one s i prev c t H). reflexivity.
      * cbn [Nat.eqb pred]. replace (i + S k) with (S i + k) by lia.
        rewrite substring_empty. reflexivity.
Qed.

(** ** exec on an object *)

Lemma exec_without_flags (o : Stateful.RegExpObject) s w :
  Stateful.global o = false -> Stateful.sticky o = false ->
  Stateful.regExpBuiltinExec o s w
  = Stateful.Returns
      (match search (Stateful.source o) None s with
       | Some (p, m, _) => Some {| Stateful.index := length p; Stateful.matched := m |}
       | None => None
       end) w.
Proof.
  intros Hg Hy. unfold Stateful.regExpBuiltinExec. rewrite Hg, Hy. cbn [orb].
  unfold Stateful.bind, Stateful.ret. rewrite Nat.sub_0_r.
  rewrite (execLoop_search (Stateful.source o) s s 0 None (located_start s)).
  destruct (search (Stateful.source o) None s) as [[[p m] a]|] eqn:E;
    [|reflexivity].
  cbn [Nat.add]. f_equal. f_equal. f_equal.
  apply search_sound in E. destruct E as [E _].
  apply (substring_found s 0 None p m a). rewrite <- E. apply located_start.
Qed.

Lemma exec_global (o : Stateful.RegExpObject) s w i prev suf :
  Stateful.global o = true -> Stateful.sticky o = false ->
  Stateful.lastIndexOf w (Stateful.address o) = i -> located s i prev suf ->
  Stateful.regExpBuiltinExec o s w
  = match search (Stateful.source o) prev suf with
    | Some (p, m, _) =>
      Stateful.Returns
        (Some {| Stateful.index := i + length p; Stateful.matched := m |})
        (Stateful.withLastIndex (Stateful.address o) (i + length p + length m) w)
    | None => Stateful.Returns None (Stateful.withLastIndex (Stateful.address o) 0 w)
    end.
Proof.
  intros Hg Hy Hi H. unfold Stateful.regExpBuiltinExec. rewrite Hg, Hy. cbn [orb].
  unfold Stateful.bind, Stateful.ret, Stateful.getLastIndex, Stateful.setLastIndex.
  rewrite Hi, (left_located _ _ _ _ H).
  rewrite (execLoop_search (Stateful.source o) s suf i prev H).
  destruct (search (Stateful.source o) prev suf) as [[[p m] a]|] eqn:E;
    [|reflexivity].
  f_equal. f_equal. f_equal.
  apply search_sound in E. destruct E as [E _].
  apply (substring_found s i prev p m a). rewrite <- E. exact H.
Qed.

Lemma exec_beyond (o : Stateful.RegExpObject) s w :
  Stateful.global o = true ->
  length s < Stateful.lastIndexOf w (Stateful.address o) ->
  Stateful.regExpBuiltinExec o s w
  = Stateful.Returns None (Stateful.withLastIndex (Stateful.address o) 0 w).
Proof.
  intros Hg Hi. unfold Stateful.regExpBuiltinExec. rewrite Hg. cbn [orb].
  unfold Stateful.bind, Stateful.ret, Stateful.getLastIndex, Stateful.setLastIndex.
  rewrite execLoop_beyond by exact Hi. reflexivity.
Qed.

Lemma exec_sticky (o : Stateful.RegExpObject) s w i prev suf :
  Stateful.sticky o = true ->
  Stateful.lastIndexOf w (Stateful.address o) = i -> located s i prev suf ->
  Stateful.regExpBuiltinExec o s w
  = match ends (ignoreCase (Stateful.source o)) (pattern (Stateful.source o))
               (prev, suf) with
    | e :: _ =>
      Stateful.Returns
        (Some {| Stateful.index := i;
                 Stateful.matched := consumed (prev, suf) e |})
        (Stateful.withLastIndex (Stateful.address o)
                                (i + length (consumed (prev, suf) e)) w)
    | [] => Stateful.Returns None (Stateful.withLastIndex (Stateful.address o) 0 w)
    end.
Proof.
  intros Hy Hi H. unfold Stateful.regExpBuiltinExec. rewrite Hy, orb_true_r.
  unfold Stateful.bind, Stateful.ret, Stateful.getLastIndex, Stateful.setLastIndex.
  rewrite Hi, (left_located _ _ _ _ H).
  rewrite (execLoop_sticky (Stateful.source o) s i prev suf H).
  pose proof (ends_suffix (ignoreCase (Stateful.source o))
                          (pattern (Stateful.source o)) (prev, suf)) as Hs.
  unfold jsstring in *. destruct (ends _ _ _) as [|e l]; [reflexivity|].
  f_equal. f_equal. f_equal.
  assert (Hc : suffixOf (prev, suf) e) by (apply Hs; left; reflexivity).
  apply consumed_spec in Hc. cbn [snd] in Hc.
  unfold Stateful.substring.
  replace (i + length (consumed (prev, suf) e) - i)
    with (length (consumed (prev, suf) e)) by lia.
  destruct H as [_ [H _]]. unfold jsstring in *. rewrite H.
  transitivity (firstn (length (consumed (prev, suf) e))
                       (consumed (prev, suf) e ++ snd e));
    [f_equal; exact Hc | apply firstn_length_app].
Qed.

(** ** What a call keeps of the world *)

Lemma keeps_refl n w : keeps n w w.
Proof. repeat split. apply Nat.le_refl. Qed.

Lemma keeps_trans n w1 w2 w3 : keeps n w1 w2 -> keeps n w2 w3 -> keeps n w1 w3.
Proof.
  intros [P1 [C1 L1]] [P2 [C2 L2]]. repeat split.
  - rewrite P2. exact P1.
  - lia.
  - intros a Ha. rewrite (L2 a Ha). apply L1, Ha.
Qed.

Lemma keeps_set n a v w : n <= a -> keeps n w (Stateful.withLastIndex a v w).
Proof.
  intro H. repeat split; [apply Nat.le_refl|]. intros b Hb.
  cbn [Stateful.withLastIndex Stateful.lastIndexOf].
  replace (b =? a) with false by (symmetry; apply Nat.eqb_neq; lia). reflexivity.
Qed.

Lemma keeps_object n w :
  n <= Stateful.created w ->
  keeps n w (Stateful.withObject (Stateful.withLastIndex (Stateful.created w) 0 w)).
Proof.
  intro H. repeat split.
  - cbn. lia.
  - intros b Hb. cbn.
    replace (b =? Stateful.created w) with false
      by (symmetry; apply Nat.eqb_neq; lia).
    reflexivity.
Qed.

Lemma lastIndex_set a v w :
  Stateful.lastIndexOf (Stateful.withLastIndex a v w) a = v.
Proof. cbn. rewrite Nat.eqb_refl. reflexivity. Qed.

Lemma keeps_created n w w' :
  keeps n w w' -> n <= Stateful.created w -> n <= Stateful.created w'.
Proof. intros [_ [H _]] Hn. lia. Qed.

(** ** The loop of match and replace with the flag g *)

Lemma execAll_beyond (o : Stateful.RegExpObject) s turns w :
  Stateful.global o = true ->
  length s < Stateful.lastIndexOf w (Stateful.address o) ->
  Stateful.execAll o s (S turns) w
  = Stateful.Returns [] (Stateful.withLastIndex (Stateful.address o) 0 w).
Proof.
  intros Hg Hi. cbn [Stateful.execAll]. unfold Stateful.bind.
  rewrite (exec_beyond o s w Hg Hi). reflexivity.
Qed.

(** After a match lastIndex is its end, and one more after an empty
    match. *)
Lemma lastIndex_advanced (o : Stateful.RegExpObject) n idx (m : jsstring) w :
  n <= Stateful.address o ->
  Stateful.lastIndexOf w (Stateful.address o) = idx + length m ->
  exists w',
    match m with
    | [] => Stateful.bind (Stateful.getLastIndex o)
                          (fun thisIndex => Stateful.setLastIndex o (S thisIndex))
    | _ => Stateful.ret tt
    end w = Stateful.Returns tt w'
    /\ keeps n w w'
    /\ Stateful.lastIndexOf w' (Stateful.address o) = nextIndex idx (length m).
Proof.
  intros Hn Hi. destruct m as [|c t].
  - eexists. split; [reflexivity|]. split; [apply keeps_set, Hn|].
    rewrite lastIndex_set, Hi. unfold nextIndex. cbn [length Nat.max]. lia.
  - exists w. split; [reflexivity|]. split; [apply keeps_refl|].
    rewrite Hi. unfold nextIndex. cbn [length Nat.max]. reflexivity.
Qed.

Lemma assemble_cons s by_ (m : Stateful.MatchArray) rest nsp :
  nsp <= Stateful.index m ->
  Stateful.assemble s by_ (m :: rest) nsp
  = Stateful.substring s nsp (Stateful.index m) ++ by_
      ++ Stateful.assemble s by_ rest (Stateful.index m + length (Stateful.matched m)).
Proof.
  intro H. cbn [Stateful.assemble]. apply Nat.leb_le in H. rewrite H. reflexivity.
Qed.

Lemma execAll_scan (o : Stateful.RegExpObject) s n :
  Stateful.global o = true -> Stateful.sticky o = false ->
  n <= Stateful.address o ->
  forall turns i prev suf w,
    located s i prev suf ->
    Stateful.lastIndexOf w (Stateful.address o) = i ->
    length suf + 2 <= turns ->
    exists results w',
      Stateful.execAll o s turns w = Stateful.Returns results w'
      /\ keeps n w w'
      /\ map Stateful.matched results = scan (Stateful.source o) prev suf 0
      /\ forall by_ nsp,
          nsp <= i ->
          Stateful.assemble s by_ results nsp
          = Stateful.substring s nsp i
              ++ replaceScan (Stateful.source o) by_ prev suf 0.
Proof.
  intros Hg Hy Hn. induction turns as [|turns IH]; intros i prev suf w H Hi Ht;
    [lia|].
  cbn [Stateful.execAll]. unfold Stateful.bind at 1.
  rewrite (exec_global o s w i prev suf Hg Hy Hi H).
  destruct (search (Stateful.source o) prev suf) as [[[p m] a]|] eqn:E.
  - pose proof (search_sound _ _ _ _ _ _ E) as [Es _].
    set (w1 := Stateful.withLastIndex (Stateful.address o) (i + length p + length m) w).
    destruct (lastIndex_advanced o n (i + length p) m w1 Hn (lastIndex_set _ _ _))
      as [w2 [E2 [K2 L2]]].
    cbn [Stateful.matched]. unfold Stateful.bind at 1. rewrite E2.
    rewrite (scan_found _ s suf i prev p m a H E).
    cbn zeta.
    assert (K1 : keeps n w w1) by (apply keeps_set, Hn).
    assert (Hs : located s i prev (p ++ m ++ a)) by (rewrite <- Es; exact H).
    pose proof (located_length _ _ _ _ Hs) as Ls.
    rewrite !length_app in Ls.
    set (j := nextIndex (i + length p) (length m)) in *.
    assert (Hj : i + length p + length m <= j /\ i < j)
      by (unfold j, nextIndex; lia).
    assert (Hr : forall by_ nsp rest tail,
               nsp <= i ->
               Stateful.assemble s by_ rest (i + length p + length m)
               = Stateful.substring s (i + length p + length m) j ++ tail ->
               Stateful.assemble s by_
                 ({| Stateful.index := i + length p; Stateful.matched := m |} :: rest) nsp
               = Stateful.substring s nsp i ++ p ++ by_
                   ++ Stateful.substring s (i + length p + length m) j ++ tail).
    { intros by_ nsp rest tail Hnsp Hrest.
      rewrite assemble_cons by (cbn [Stateful.index]; lia).
      cbn [Stateful.index Stateful.matched]. rewrite Hrest.
      rewrite (substring_before s i prev p (m ++ a) nsp Hs Hnsp).
      rewrite <- app_assoc. reflexivity. }
    destruct (Nat.leb_spec j (length s)) as [Hle|Hgt].
    + destruct (IH j (Stateful.prevAt s j) (skipn j s) w2
                   (located_here s j Hle) L2) as [rest [w3 [E3 [K3 [M3 A3]]]]].
      { rewrite length_skipn. rewrite Es, !length_app in Ht. lia. }
      unfold Stateful.bind. rewrite E3.
      eexists. eexists. split; [reflexivity|].
      split; [exact (keeps_trans _ _ _ _ K1 (keeps_trans _ _ _ _ K2 K3))|].
      split; [cbn [map Stateful.matched]; rewrite M3; reflexivity|].
      intros by_ nsp Hnsp.
      rewrite (replaceScan_found _ by_ s suf i prev p m a H E). cbn zeta.
      fold j. replace (j <=? length s) with true by (symmetry; apply Nat.leb_le; exact Hle).
      apply Hr; [exact Hnsp|]. apply A3. apply Hj.
    + destruct turns as [|turns]; [lia|].
      unfold Stateful.bind.
      rewrite (execAll_beyond o s turns w2 Hg) by (rewrite L2; exact Hgt).
      eexists. eexists. split; [unfold Stateful.ret; reflexivity|].
      split.
      { apply (keeps_trans _ _ _ _ K1), (keeps_trans _ _ _ _ K2), keeps_set, Hn. }
      split; [reflexivity|].
      intros by_ nsp Hnsp.
      rewrite (replaceScan_found _ by_ s suf i prev p m a H E). cbn zeta.
      fold j. replace (j <=? length s) with false by (symmetry; apply Nat.leb_gt; exact Hgt).
      apply Hr; [exact Hnsp|]. cbn [Stateful.assemble]. rewrite app_nil_r.
      unfold Stateful.substring.
      rewrite skipn_all2 by (unfold j, nextIndex in Hgt; lia).
      symmetry. apply firstn_nil.
  - eexists. eexists. split; [unfold Stateful.ret; reflexivity|].
    split; [apply keeps_set, Hn|].
    split; [symmetry; apply scan_none, E|].
    intros by_ nsp Hnsp. cbn [Stateful.assemble].
    rewrite (replaceScan_none _ by_ _ _ E).
    destruct H as [_ [H _]]. rewrite <- H. apply substring_rest, Hnsp.
Qed.

(** ** The loop of split *)

Lemma splitLoop_end rx prev skip cur : splitLoop rx prev [] skip cur = [rev cur].
Proof. reflexivity. Qed.

Lemma splitLoop_skipped rx s : forall k suf i prev,
  located s i prev suf -> i + k <= length s ->
  splitLoop rx prev suf k []
  = splitLoop rx (Stateful.prevAt s (i + k)) (skipn (i + k) s) 0 [].
Proof.
  induction k as [|k IH]; intros suf i prev H Hk.
  - rewrite Nat.add_0_r. destruct H as [H1 [H2 _]]. rewrite H1, H2. reflexivity.
  - destruct suf as [|c t].
    + apply located_end in H. lia.
    + rewrite splitLoop_skip.
      rewrite (IH t (S i) (Some c) (located_step _ _ _ _ _ H)) by lia.
      rewrite Nat.add_succ_r. reflexivity.
Qed.

Lemma substring_snoc s p q prev c t :
  located s q prev (c :: t) -> p <= q ->
  Stateful.substring s p (S q) = Stateful.substring s p q ++ [c].
Proof.
  intros H Hp. rewrite <- (Nat.add_1_r q).
  apply (substring_before s q prev [c] t p H Hp).
Qed.

Lemma substring_length s p q :
  q <= length s -> length (Stateful.substring s p q) = q - p.
Proof.
  intro H. unfold Stateful.substring. rewrite length_firstn, length_skipn. lia.
Qed.

Lemma splitLoop_pure (sp : Stateful.RegExpObject) s n :
  Stateful.sticky sp = true -> n <= Stateful.address sp ->
  forall turns p q prev suf w,
    located s q prev suf -> p <= q ->
    2 * length suf + (if p <? q then 1 else 0) + 1 <= turns ->
    exists w',
      Stateful.splitLoop sp s p q turns w
      = Stateful.Returns
          (splitLoop (Stateful.source sp) prev suf 0 (rev (Stateful.substring s p q))) w'
      /\ keeps n w w'.
Proof.
  intros Hy Hn. induction turns as [|turns IH]; intros p q prev suf w H Hp Ht;
    [lia|].
  pose proof (located_length _ _ _ _ H) as L.
  cbn [Stateful.splitLoop]. destruct suf as [|c t].
  - cbn [length] in L. replace (length s <=? q) with true
      by (symmetry; apply Nat.leb_le; lia).
    exists w. split; [|apply keeps_refl].
    rewrite splitLoop_end, rev_involutive. replace q with (length s) by lia.
    reflexivity.
  - cbn [length] in L, Ht. replace (length s <=? q) with false
      by (symmetry; apply Nat.leb_gt; lia).
    unfold Stateful.bind at 1. unfold Stateful.setLastIndex at 1.
    set (w1 := Stateful.withLastIndex (Stateful.address sp) q w).
    assert (K1 : keeps n w w1) by (apply keeps_set, Hn).
    unfold Stateful.bind at 1.
    rewrite (exec_sticky sp s w1 q prev (c :: t) Hy (lastIndex_set _ _ _) H).
    rewrite splitLoop_step.
    pose proof (ends_suffix (ignoreCase (Stateful.source sp))
                            (pattern (Stateful.source sp)) (prev, c :: t)) as Hs.
    pose proof (located_step _ _ _ _ _ H) as H'.
    unfold jsstring in *. destruct (ends _ _ _) as [|e l] eqn:Ee.
    + destruct (IH p (S q) (Some c) t
                   (Stateful.withLastIndex (Stateful.address sp) 0 w1) H')
        as [w' [E' K']]; [lia | destruct (p <? S q); lia |].
      exists w'. split.
      * rewrite E'. rewrite (substring_snoc s p q prev c t H Hp), rev_app_distr.
        reflexivity.
      * exact (keeps_trans _ _ _ _ K1
                 (keeps_trans _ _ _ _ (keeps_set n _ 0 w1 Hn) K')).
    + assert (Hc : suffixOf (prev, c :: t) e) by (apply Hs; left; reflexivity).
      apply consumed_spec in Hc. cbn [snd] in Hc.
      assert (Lm : length (consumed (prev, c :: t) e) <= S (length t)).
      { change (S (length t)) with (length (c :: t)). rewrite Hc at 2.
        rewrite length_app. lia. }
      clear Hc Hs.
      set (m := consumed (prev, c :: t) e) in *.
      set (w2 := Stateful.withLastIndex (Stateful.address sp) (q + length m) w1).
      assert (K2 : keeps n w w2)
        by (apply (keeps_trans _ _ _ _ K1), keeps_set, Hn).
      assert (Li : Stateful.lastIndexOf w2 (Stateful.address sp) = q + length m)
        by apply lastIndex_set.
      unfold Stateful.bind at 1. unfold Stateful.getLastIndex at 1.
      fold w2. rewrite !Li.
      replace (Nat.min (q + length m) (length s)) with (q + length m) by lia.
      cbn zeta.
      destruct (length m) as [|k] eqn:Em.
      * rewrite Nat.add_0_r.
        destruct (Nat.eqb_spec q p) as [->|Hne].
        -- destruct (IH p (S p) (Some c) t w2 H') as [w' [E' K']];
             [lia | destruct (p <? S p); lia |].
           exists w'. split; [|exact (keeps_trans _ _ _ _ K2 K')].
           rewrite E', substring_empty.
           rewrite (substring_one s p prev c t H). reflexivity.
        -- destruct (IH q q prev (c :: t) w2 H (Nat.le_refl q))
             as [w' [E' K']].
           { rewrite Nat.ltb_irrefl. cbn [length].
             replace (p <? q) with true in Ht by (symmetry; apply Nat.ltb_lt; lia).
             lia. }
           unfold Stateful.bind. rewrite E'.
           exists w'. split; [|exact (keeps_trans _ _ _ _ K2 K')].
           unfold Stateful.ret. f_equal.
           rewrite substring_empty. cbn [rev]. rewrite splitLoop_step.
           unfold jsstring in *. rewrite Ee. fold m. rewrite Em.
           pose proof (substring_length s p q) as Lc.
           destruct (Stateful.substring s p q) as [|x y] eqn:Ex.
           ++ cbn [length] in Lc. lia.
           ++ rewrite rev_involutive.
              destruct (rev (x :: y)) eqn:Er; [|reflexivity].
              apply (f_equal (@length _)) in Er. rewrite length_rev in Er.
              discriminate.
      * replace (q + S k =? p) with false by (symmetry; apply Nat.eqb_neq; lia).
        destruct (IH (q + S k) (q + S k) (Stateful.prevAt s (q + S k))
                     (skipn (q + S k) s) w2) as [w' [E' K']].
        { apply located_here. lia. }
        { apply Nat.le_refl. }
        { rewrite Nat.ltb_irrefl, length_skipn. lia. }
        unfold Stateful.bind. rewrite E'.
        exists w'. split; [|exact (keeps_trans _ _ _ _ K2 K')].
        unfold Stateful.ret. f_equal.
        rewrite substring_empty, rev_involutive. cbn [rev]. f_equal.
        rewrite (splitLoop_skipped _ s k t (S q) (Some c) H') by lia.
        rewrite Nat.add_succ_r. reflexivity.
Qed.

(** ** Calls in sequence *)

Lemma returns_ret (A : Type) n (v : A) : returns n (Stateful.ret v) v.
Proof. intros w _. exists w. split; [reflexivity | apply keeps_refl]. Qed.

Lemma raises_throw (A : Type) n : raises n (@Stateful.throw A).
Proof. intros w _. exists w. split; [reflexivity | apply keeps_refl]. Qed.

Lemma follows_ret (A : Type) n (v : A) : follows n (Stateful.ret v) (Normal v).
Proof. apply returns_ret. Qed.

Lemma follows_bind (A B : Type) n (m : Stateful.M A) (k : A -> Stateful.M B) a c :
  returns n m a -> follows n (k a) c -> follows n (Stateful.bind m k) c.
Proof.
  intros Hm Hk. destruct c as [v|]; intros w Hw;
    destruct (Hm w Hw) as [w1 [E1 K1]];
    destruct (Hk w1 (keeps_created _ _ _ K1 Hw)) as [w2 [E2 K2]];
    exists w2; (split; [|exact (keeps_trans _ _ _ _ K1 K2)]);
    unfold Stateful.bind; rewrite E1; exact E2.
Qed.

Lemma returns_bind (A B : Type) n (m : Stateful.M A) (k : A -> Stateful.M B) a b :
  returns n m a -> returns n (k a) b -> returns n (Stateful.bind m k) b.
Proof. exact (follows_bind A B n m k a (Normal b)). Qed.

Lemma follows_ext (A : Type) n (m1 m2 : Stateful.M A) c :
  (forall w, m1 w = m2 w) -> follows n m1 c -> follows n m2 c.
Proof.
  intros E H. destruct c as [v|]; intros w Hw; destruct (H w Hw) as [w' [E' K']];
    exists w'; (split; [|exact K']); rewrite <- E; exact E'.
Qed.

Lemma bind_assoc (A B C : Type) (m : Stateful.M A) (k : A -> Stateful.M B)
      (h : B -> Stateful.M C) w :
  Stateful.bind m (fun a => Stateful.bind (k a) h) w
  = Stateful.bind (Stateful.bind m k) h w.
Proof. unfold Stateful.bind. destruct (m w); reflexivity. Qed.

(** A new object has an address that no object had before. *)
Lemma follows_construct (B : Type) n rx g y (k : Stateful.RegExpObject -> Stateful.M B) c :
  (forall o, Stateful.source o = rx -> Stateful.global o = g ->
             Stateful.sticky o = y -> n <= Stateful.address o ->
             follows n (k o) c) ->
  follows n (Stateful.bind (Stateful.construct rx g y) k) c.
Proof.
  intro Hk.
  assert (H : forall w, n <= Stateful.created w ->
            follows n (k {| Stateful.address := Stateful.created w;
                            Stateful.source := rx; Stateful.global := g;
                            Stateful.sticky := y |}) c)
    by (intros w Hw; apply Hk; auto).
  destruct c as [v|]; intros w Hw;
    destruct (H w Hw (Stateful.withObject
                        (Stateful.withLastIndex (Stateful.created w) 0 w)))
      as [w' [E' K']];
    try (cbn; lia);
    exists w'; (split; [exact E' | exact (keeps_trans _ _ _ _ (keeps_object n w Hw) K')]).
Qed.

Lemma follows_literal (B : Type) n rx g (k : Stateful.RegExpObject -> Stateful.M B) c :
  (forall o, Stateful.source o = rx -> Stateful.global o = g ->
             Stateful.sticky o = false -> n <= Stateful.address o ->
             follows n (k o) c) ->
  follows n (Stateful.bind (Stateful.regExpLiteral rx g) k) c.
Proof. apply follows_construct. Qed.

(** ** The methods on an object and on its pattern *)

Lemma test_returns (o : Stateful.RegExpObject) s n :
  Stateful.global o = false -> Stateful.sticky o = false ->
  returns n (Stateful.test o s) (test (Stateful.source o) s).
Proof.
  intros Hg Hy w _. exists w. split; [|apply keeps_refl].
  unfold Stateful.test, Stateful.bind. rewrite (exec_without_flags o s w Hg Hy).
  unfold test, exec, Stateful.ret.
  destruct (search (Stateful.source o) None s) as [[[p m] a]|]; reflexivity.
Qed.

Lemma match_returns (o : Stateful.RegExpObject) s n :
  Stateful.global o = false -> Stateful.sticky o = false ->
  returns n (Stateful.match_ s o)
         (option_map (fun m => [m]) (match0 s (Stateful.source o))).
Proof.
  intros Hg Hy w _. exists w. split; [|apply keeps_refl].
  unfold Stateful.match_. rewrite Hg. unfold Stateful.bind.
  rewrite (exec_without_flags o s w Hg Hy).
  unfold match0, exec, Stateful.ret.
  destruct (search (Stateful.source o) None s) as [[[p m] a]|]; reflexivity.
Qed.

Lemma replace_returns (o : Stateful.RegExpObject) s by_ n :
  Stateful.global o = false -> Stateful.sticky o = false ->
  returns n (Stateful.replace s o by_) (replace s (Stateful.source o) by_).
Proof.
  intros Hg Hy w _. exists w. split; [|apply keeps_refl].
  unfold Stateful.replace. rewrite Hg. unfold Stateful.bind.
  rewrite (exec_without_flags o s w Hg Hy).
  unfold replace, exec, Stateful.ret.
  destruct (search (Stateful.source o) None s) as [[[p m] a]|] eqn:E.
  - f_equal. rewrite assemble_cons by apply Nat.le_0_l.
    cbn [Stateful.index Stateful.matched Stateful.assemble].
    apply search_sound in E. destruct E as [E _].
    assert (H : located s 0 None (p ++ m ++ a)) by (rewrite <- E; apply located_start).
    pose proof (substring_before s 0 None p (m ++ a) 0 H (Nat.le_refl 0)) as Hb.
    cbn [Nat.add] in Hb. rewrite Hb.
    rewrite substring_empty. cbn [app]. f_equal. f_equal.
    rewrite app_assoc in H.
    pose proof (located_skipn s 0 None (p ++ m) a H) as Hk.
    cbn [Nat.add] in Hk. rewrite length_app in Hk. exact Hk.
  - reflexivity.
Qed.

Lemma execAll_start (o : Stateful.RegExpObject) s n w :
  Stateful.global o = true -> Stateful.sticky o = false ->
  n <= Stateful.address o ->
  exists results w',
    Stateful.bind (Stateful.setLastIndex o 0)
                  (fun _ => Stateful.execAll o s (length s + 2)) w
    = Stateful.Returns results w'
    /\ keeps n w w'
    /\ map Stateful.matched results = scan (Stateful.source o) None s 0
    /\ forall by_, Stateful.assemble s by_ results 0
                   = replaceAll s (Stateful.source o) by_.
Proof.
  intros Hg Hy Hn.
  destruct (execAll_scan o s n Hg Hy Hn (length s + 2) 0 None s
              (Stateful.withLastIndex (Stateful.address o) 0 w)
              (located_start s) (lastIndex_set _ _ _) (Nat.le_refl _))
    as [results [w' [E [K [Hm Ha]]]]].
  exists results, w'. split; [exact E|].
  split; [exact (keeps_trans _ _ _ _ (keeps_set n _ 0 w Hn) K)|].
  split; [exact Hm|].
  intro by_. rewrite (Ha by_ 0 (Nat.le_refl 0)), substring_empty. reflexivity.
Qed.

Lemma matchAll_returns (o : Stateful.RegExpObject) s n :
  Stateful.global o = true -> Stateful.sticky o = false ->
  n <= Stateful.address o ->
  returns n (Stateful.match_ s o) (matchAll s (Stateful.source o)).
Proof.
  intros Hg Hy Hn w _.
  destruct (execAll_start o s n w Hg Hy Hn) as [results [w' [E [K [Hm _]]]]].
  exists w'. split; [|exact K].
  unfold Stateful.match_. rewrite Hg.
  unfold Stateful.bind, Stateful.setLastIndex in *. rewrite E. unfold Stateful.ret, matchAll. rewrite <- Hm.
  destruct results; reflexivity.
Qed.

Lemma replaceAll_returns (o : Stateful.RegExpObject) s by_ n :
  Stateful.global o = true -> Stateful.sticky o = false ->
  n <= Stateful.address o ->
  returns n (Stateful.replace s o by_) (replaceAll s (Stateful.source o) by_).
Proof.
  intros Hg Hy Hn w _.
  destruct (execAll_start o s n w Hg Hy Hn) as [results [w' [E [K [_ Ha]]]]].
  exists w'. split; [|exact K].
  unfold Stateful.replace. rewrite Hg.
  unfold Stateful.bind, Stateful.setLastIndex in *. rewrite E.
  unfold Stateful.ret. rewrite Ha. reflexivity.
Qed.

Lemma split_returns (o : Stateful.RegExpObject) s n :
  returns n (Stateful.split s o) (split s (Stateful.source o)).
Proof.
  intros w Hw. unfold Stateful.split, Stateful.bind at 1, Stateful.construct.
  set (sp := {| Stateful.address := Stateful.created w;
                Stateful.source := Stateful.source o;
                Stateful.global := Stateful.global o;
                Stateful.sticky := true |}).
  set (w1 := Stateful.withObject (Stateful.withLastIndex (Stateful.created w) 0 w)).
  assert (K1 : keeps n w w1) by apply (keeps_object n w Hw).
  assert (L1 : Stateful.lastIndexOf w1 (Stateful.address sp) = 0)
    by (cbn; rewrite Nat.eqb_refl; reflexivity).
  destruct s as [|c t].
  - unfold Stateful.bind.
    rewrite (exec_sticky sp [] w1 0 None [] eq_refl L1 (located_start [])).
    cbn [Stateful.source sp]. unfold split. unfold jsstring in *.
    destruct (ends _ _ _) as [|e l]; eexists;
      (split; [reflexivity|]);
      exact (keeps_trans _ _ _ _ K1 (keeps_set n _ _ w1 Hw)).
  - destruct (splitLoop_pure sp (c :: t) n eq_refl Hw (2 * length (c :: t) + 2)
                             0 0 None (c :: t) w1 (located_start _) (Nat.le_refl 0))
      as [w' [E' K']]; [cbn; lia|].
    exists w'. split; [|exact (keeps_trans _ _ _ _ K1 K')].
    rewrite E'. rewrite substring_empty. reflexivity.
Qed.

(** ** The statements of parseReceiptText on their objects *)

Lemma linesOf_returns text n : returns n (Stateful.linesOf text) (linesOf text).
Proof.
  unfold Stateful.linesOf. apply (follows_literal _ n lineBreak false _ (Normal _)).
  intros o Hs _ _ _.
  apply (returns_bind _ _ n _ _ (split text lineBreak)).
  - rewrite <- Hs. apply split_returns.
  - apply returns_ret.
Qed.

Lemma follows_literals (B : Type) n : forall rxs (k : list Stateful.RegExpObject -> Stateful.M B) c,
  (forall os, Forall2 plainFor rxs os -> follows n (k os) c) ->
  follows n (Stateful.bind (Stateful.literals rxs) k) c.
Proof.
  induction rxs as [|rx rest IH]; intros k c Hk.
  - apply (follows_bind _ _ n _ _ []); [apply returns_ret|].
    apply Hk. constructor.
  - cbn [Stateful.literals].
    apply (follows_ext _ n _ _ c (bind_assoc _ _ _ _ _ _)).
    apply follows_literal. intros o Hs Hg Hy _.
    apply (follows_ext _ n _ _ c (bind_assoc _ _ _ _ _ _)).
    apply IH. intros os Hos.
    apply (follows_bind _ _ n _ _ (o :: os)); [apply returns_ret|].
    apply Hk. constructor; [repeat split; assumption | exact Hos].
Qed.

Lemma dateLoop_returns fullText n : forall rxs os,
  Forall2 plainFor rxs os ->
  returns n (Stateful.dateLoop os fullText) (dateLoop rxs fullText).
Proof.
  intros rxs os H. induction H as [|rx o rxs os [Hs [Hg Hy]] _ IH].
  - apply returns_ret.
  - cbn [Stateful.dateLoop dateLoop].
    apply (returns_bind _ _ n _ _ _ _ (match_returns o fullText n Hg Hy)).
    rewrite Hs. destruct (match0 fullText rx) as [m0|]; cbn [option_map].
    + apply returns_ret.
    + exact IH.
Qed.

Lemma totalLoop_follows (currency bare : Stateful.RegExpObject) lines n :
  plainFor currencyAmount currency -> plainFor amountOnly bare ->
  forall k, follows n (Stateful.totalLoop currency bare lines k) (totalLoop lines k).
Proof.
  intros [Cs [Cg Cy]] [Bs [Bg By]]. induction k as [|i IH].
  - apply follows_ret.
  - cbn [Stateful.totalLoop totalLoop].
    apply follows_literal. intros kw Ks Kg Ky _.
    apply (follows_bind _ _ n _ _ _ _ (test_returns kw _ n Kg Ky)).
    rewrite Ks. destruct (test totalKeyword (toString (nth_error lines i)));
      [|exact IH].
    destruct (nth_error lines i) as [l|]; [|apply raises_throw].
    apply (follows_bind _ _ n _ _ _ _ (match_returns currency l n Cg Cy)).
    rewrite Cs. destruct (match0 l currencyAmount) as [m1|]; cbn [option_map].
    + cbn [Stateful.element0 hd_error].
      apply follows_literal. intros junk Js Jg Jy _.
      apply (follows_bind _ _ n _ _ _ _ (replace_returns junk m1 [] n Jg Jy)).
      rewrite Js. apply follows_ret.
    + apply (follows_bind _ _ n _ _ _ _ (match_returns bare l n Bg By)).
      rewrite Bs. destruct (match0 l amountOnly) as [m2|]; cbn [option_map].
      * apply follows_ret.
      * exact IH.
Qed.

Lemma maxMatches_returns n : forall matches acc,
  returns n (Stateful.maxMatches matches acc) (fold_left maxStep matches acc).
Proof.
  induction matches as [|s0 rest IH]; intro acc.
  - apply returns_ret.
  - cbn [Stateful.maxMatches fold_left].
    apply (follows_literal _ n commaG true _ (Normal _)). intros o Hs Hg Hy Hn.
    apply (returns_bind _ _ n _ _ _ _ (replaceAll_returns o s0 [] n Hg Hy Hn)).
    rewrite Hs. apply IH.
Qed.

Lemma maxLines_returns n : forall lines acc,
  returns n (Stateful.maxLines lines acc) (fold_left maxLine lines acc).
Proof.
  induction lines as [|line rest IH]; intro acc.
  - apply returns_ret.
  - cbn [Stateful.maxLines fold_left].
    apply (follows_literal _ n amountG true _ (Normal _)). intros o Hs Hg Hy Hn.
    apply (returns_bind _ _ n _ _ _ _ (matchAll_returns o line n Hg Hy Hn)).
    rewrite Hs. unfold maxLine at 2.
    destruct (matchAll line amountG) as [ms|].
    + apply (returns_bind _ _ n _ _ _ _ (maxMatches_returns n ms acc)). apply IH.
    + apply IH.
Qed.

Lemma maxTotal_returns lines n : returns n (Stateful.maxTotal lines) (maxTotal lines).
Proof.
  unfold Stateful.maxTotal, maxTotal.
  apply (returns_bind _ _ n _ _ _ _ (maxLines_returns n lines (minusOne, []))).
  destruct (fold_left maxLine lines (minusOne, [])) as [maxVal maxStr].
  apply returns_ret.
Qed.

Lemma alphaRatio_returns line n : returns n (Stateful.alphaRatio line) (alphaRatio line).
Proof.
  unfold Stateful.alphaRatio, alphaRatio.
  apply (follows_literal _ n nonLetterG true _ (Normal _)). intros o Hs Hg Hy Hn.
  apply (returns_bind _ _ n _ _ _ _ (replaceAll_returns o line [] n Hg Hy Hn)).
  rewrite Hs. apply returns_ret.
Qed.

Lemma sanitize_returns line n : returns n (Stateful.sanitize line) (sanitize line).
Proof.
  unfold Stateful.sanitize, sanitize.
  apply (follows_literal _ n disallowedG true _ (Normal _)). intros d Ds Dg Dy Dn.
  apply (returns_bind _ _ n _ _ _ _ (replaceAll_returns d line [] n Dg Dy Dn)).
  rewrite Ds.
  apply (follows_literal _ n spacesG true _ (Normal _)). intros o Hs Hg Hy Hn.
  apply (returns_bind _ _ n _ _ _ _ (replaceAll_returns o _ (str " ") n Hg Hy Hn)).
  rewrite Hs. apply returns_ret.
Qed.

Lemma merchantLoop_follows (keywords : Stateful.RegExpObject) lines n :
  plainFor skipKeywords keywords ->
  forall k i found,
    follows n (Stateful.merchantLoop keywords lines i k found)
            (merchantLoop lines i k found).
Proof.
  intros [Ks [Kg Ky]]. induction k as [|k IH]; intros i found.
  - apply follows_ret.
  - cbn [Stateful.merchantLoop merchantLoop].
    destruct (nth_error lines i) as [line|]; [|apply raises_throw].
    apply (follows_bind _ _ n _ _ _ _ (alphaRatio_returns line n)).
    destruct (lt (alphaRatio line) threeTenths); [apply IH|].
    apply (follows_bind _ _ n _ _ _ _ (test_returns keywords line n Kg Ky)).
    rewrite Ks. destruct (test skipKeywords line); [apply IH|].
    destruct (length line <? 2); [apply IH|].
    apply (follows_bind _ _ n _ _ _ _ (sanitize_returns line n)).
    destruct (truthy (sanitize line)); [apply follows_ret | apply IH].
Qed.

(** The call on its objects ends as the function of the text says,
    whatever the world it starts in. *)
Lemma parseReceiptText_follows text n :
  follows n (Stateful.parseReceiptText text) (parseReceiptText text).
Proof.
  unfold Stateful.parseReceiptText, parseReceiptText.
  apply (follows_bind _ _ n _ _ _ _ (linesOf_returns text n)).
  apply follows_literals. intros patterns Hp.
  apply (follows_bind _ _ n _ _ _ _ (dateLoop_returns _ n _ _ Hp)).
  apply follows_literal. intros currency Cs Cg Cy _.
  apply follows_literal. intros bare Bs Bg By _.
  pose proof (totalLoop_follows currency bare (linesOf text) n
                (conj Cs (conj Cg Cy)) (conj Bs (conj Bg By))
                (length (linesOf text))) as Ht.
  destruct (totalLoop (linesOf text) (length (linesOf text))) as [foundTotal|];
    cbn [bind].
  - apply (follows_bind _ _ n _ _ _ _ Ht).
    apply (follows_bind _ _ n _ _
             (if truthy foundTotal then foundTotal else maxTotal (linesOf text))).
    { destruct (truthy foundTotal); [apply returns_ret | apply maxTotal_returns]. }
    apply follows_literal. intros keywords Ks Kg Ky _.
    pose proof (merchantLoop_follows keywords (linesOf text) n
                  (conj Ks (conj Kg Ky))
                  (Nat.min (length (linesOf text)) 12) 0 []) as Hm.
    destruct (merchantLoop (linesOf text) 0 _ []) as [foundMerchant|]; cbn [bind].
    + apply (follows_bind _ _ n _ _ _ _ Hm). apply follows_ret.
    + intros w Hw. destruct (Hm w Hw) as [w' [E' K']]. exists w'.
      split; [|exact K']. unfold Stateful.bind. rewrite E'. reflexivity.
  - intros w Hw. destruct (Ht w Hw) as [w' [E' K']]. exists w'.
    split; [|exact K']. unfold Stateful.bind. rewrite E'. reflexivity.
Qed.

(** An object with the flag g keeps its place in the string from one call
    of test to the next: the third call finds no comma left. *)
Example test_with_flag_g :
  completionOf (testThrice (str "a,b,c") newWorld) = Some (Normal (true, true, false)).
Proof. vm_compute. reflexivity. Qed.

(** The sample receipt, parsed in a world with objects already made *)
Example sample_in_used_world :
  completionOf (Stateful.parseReceiptText
                  (str ("Joe's Diner" ++ NL ++ "2024-03-05" ++ NL ++ "Total $1,234.50"))
                  usedWorld)
  = Some (Normal {| date := str "2024-03-05"; merchant := str "Joe's Diner";
                    total := str "$1,234.50";
                    raw := str ("Joe's Diner" ++ NL ++ "2024-03-05" ++ NL
                                  ++ "Total $1,234.50") |}).
Proof. vm_compute. reflexivity. Qed.

(** C7: parseReceiptText is a function of its text alone.  Run on its
    RegExp objects, with the lastIndex that exec reads and writes, the call
    returns, and it returns the same result in any two worlds, whatever
    objects exist in them, whatever their lastIndex and whatever the page
    shows: the result of the function of the text that the other
    properties are about.  A second call, in the world the first one
    leaves, returns it again.  The call leaves the page and the lastIndex
    of the objects that existed as they were. *)
Theorem parseReceiptText_deterministic (text : jsstring) (w1 w2 : Stateful.World) :
  exists r w1' w2' w1'',
    Stateful.parseReceiptText text w1 = Stateful.Returns r w1'
    /\ Stateful.parseReceiptText text w2 = Stateful.Returns r w2'
    /\ Stateful.parseReceiptText text w1' = Stateful.Returns r w1''
    /\ parseReceiptText text = Normal r
    /\ Stateful.page w1' = Stateful.page w1
    /\ forall a, a < Stateful.created w1 ->
                 Stateful.lastIndexOf w1' a = Stateful.lastIndexOf w1 a.
Proof.
  destruct (parse_normal text) as [t [m [_ [_ Hr]]]].
  destruct (parseReceiptText text) as [r|] eqn:Er; [|discriminate]. clear Hr t m.
  pose proof (parseReceiptText_follows text) as H. rewrite Er in H. cbn [follows] in H.
  destruct (H (Stateful.created w1) w1 (Nat.le_refl _)) as [w1' [E1 [K1 [_ L1]]]].
  destruct (H 0 w2 (Nat.le_0_l _)) as [w2' [E2 _]].
  destruct (H 0 w1' (Nat.le_0_l _)) as [w1'' [E3 _]].
  exists r, w1', w2', w1''. repeat split; assumption.
Qed.
